(** * BlueBerryService: a shallow embedding of the session-lock scheduler

    The development follows [src/BlueBerryService.ts] (the duration-mode
    service with its set of active timeouts).

    Conventions of the embedding.
    - A JavaScript string is the list of its UTF-16 code units.
    - A JavaScript number is an exact rational or [NaN]: arithmetic is the
      rounding-free idealisation of IEEE doubles, so overflow to an
      infinity does not occur.  The code has the same number wherever the
      operands and the results are integers below 2^53; statements on the
      value of a duration are made for such settings, or do not depend on
      the rounding.
    - Methods of the service are computations over an explicit [world]:
      the fields of the object, the secret storage, the configuration, the
      timer table of the runtime and the trace of externally visible
      events.
    - A task yields at its timed sleeps, and a loop task that was just
      created runs its body in a step of its own; awaits on child
      processes and on the secret storage are taken in one piece.  What
      the outside answers (process results, the clock, the random source,
      the user) is read from an arbitrary environment. *)

From Stdlib Require Import QArith ZArith NArith Lia Lqa String Ascii DecimalString.
From stdpp Require Import base numbers option list gmap.

Set Default Proof Using "Type".
Local Open Scope N_scope.

(** ** Strings as code units *)

Abbreviation jsstring := (list N).

(** Code units of an ASCII literal. *)
Fixpoint u (s : string) : jsstring :=
  match s with
  | EmptyString => []
  | String c s' => N_of_ascii c :: u s'
  end.

Fixpoint take_while (p : N → bool) (s : jsstring) : jsstring :=
  match s with
  | [] => []
  | c :: s' => if p c then c :: take_while p s' else []
  end.

Fixpoint drop_while (p : N → bool) (s : jsstring) : jsstring :=
  match s with
  | [] => []
  | c :: s' => if p c then drop_while p s' else s
  end.

(** [\d] without the unicode flag: the ten ASCII digits. *)
Definition is_digit (c : N) : bool := (48 <=? c) && (c <=? 57).

Definition DOT : N := 46.

(** The class [[\d.]]. *)
Definition is_digit_or_dot (c : N) : bool := is_digit c || (c =? DOT).

(** The class [[hms]] under the [i] flag.  Canonicalisation never maps a
    code unit above 127 to an ASCII letter, so exactly the six ASCII
    letters match. *)
Definition is_unit_letter (c : N) : bool :=
  (c =? 104) || (c =? 109) || (c =? 115) || (c =? 72) || (c =? 77) || (c =? 83).

(** [toLowerCase] on a single ASCII letter. *)
Definition toLowerCase1 (c : N) : N :=
  if (65 <=? c) && (c <=? 90) then c + 32 else c.

(** WhiteSpace and LineTerminator code points, as stripped by [trim]. *)
Definition is_js_whitespace (c : N) : bool :=
  (c =? 9) || (c =? 10) || (c =? 11) || (c =? 12) || (c =? 13) || (c =? 32)
  || (c =? 0xA0) || (c =? 0x1680) || ((0x2000 <=? c) && (c <=? 0x200A))
  || (c =? 0x2028) || (c =? 0x2029) || (c =? 0x202F) || (c =? 0x205F)
  || (c =? 0x3000) || (c =? 0xFEFF).

Definition trimStart (s : jsstring) : jsstring := drop_while is_js_whitespace s.
Definition trimEnd (s : jsstring) : jsstring := reverse (trimStart (reverse s)).
Definition trim (s : jsstring) : jsstring := trimEnd (trimStart s).

Fixpoint starts_with (p s : jsstring) : bool :=
  match p, s with
  | [], _ => true
  | a :: p', b :: s' => (a =? b) && starts_with p' s'
  | _ :: _, [] => false
  end.

(** [String.prototype.includes]. *)
Fixpoint includes (hay needle : jsstring) : bool :=
  starts_with needle hay ||
  match hay with
  | [] => false
  | _ :: hay' => includes hay' needle
  end.

(** [split("\n")]: always at least one piece. *)
Fixpoint split_lines (s : jsstring) : list jsstring :=
  match s with
  | [] => [[]]
  | c :: s' =>
      if c =? 10 then [] :: split_lines s'
      else match split_lines s' with
           | l :: ls => (c :: l) :: ls
           | [] => [[c]]
           end
  end.

(** ** Numbers *)

Inductive jsnum : Type :=
| Num (q : Q)
| NaN.

(** Arithmetic without rounding; on integers below 2^53 with such a
    result it is the arithmetic of the code. *)
Definition jsmul (a b : jsnum) : jsnum :=
  match a, b with Num x, Num y => Num (x * y) | _, _ => NaN end.
Definition jsadd (a b : jsnum) : jsnum :=
  match a, b with Num x, Num y => Num (x + y) | _, _ => NaN end.
Definition jssub (a b : jsnum) : jsnum :=
  match a, b with Num x, Num y => Num (x - y) | _, _ => NaN end.

(** Comparisons with [NaN] are false. *)
Definition jsgt (a b : jsnum) : bool :=
  match a, b with Num x, Num y => negb (Qle_bool x y) | _, _ => false end.
Definition jsge (a b : jsnum) : bool :=
  match a, b with Num x, Num y => Qle_bool y x | _, _ => false end.
Definition js_strict_eq (a b : jsnum) : bool :=
  match a, b with Num x, Num y => Qeq_bool x y | _, _ => false end.

Definition ofZ (z : Z) : jsnum := Num (inject_Z z).

(** Equality of numbers up to the representation of the fraction. *)
Definition jsnum_equiv (a b : jsnum) : Prop :=
  match a, b with
  | Num x, Num y => (x == y)%Q
  | NaN, NaN => True
  | _, _ => False
  end.

Definition digit_val (c : N) : Z := Z.of_N (c - 48).

(** Value of a digit string, most significant digit first. *)
Definition digits_val (ds : jsstring) : Z :=
  fold_left (λ acc c, 10 * acc + digit_val c)%Z ds 0%Z.

Definition pow10 (n : nat) : positive := Nat.iter n (Pos.mul 10) 1%positive.

(** The decimal literal with integer digits [ip] and fraction digits [fp]. *)
Definition decimal_value (ip fp : jsstring) : Q :=
  (digits_val (ip ++ fp) # pow10 (length fp))%Q.

(** [parseFloat] on the first capture group.  The group ranges over
    [[\d.]] only, so the sign, exponent, [Infinity] and leading-blank
    parts of the grammar cannot occur; the longest prefix that is a
    decimal literal is digits, optionally a dot and more digits, or a dot
    and at least one digit.  No such prefix: [NaN].  The value is the
    exact decimal, where the code has the nearest double; the two are the
    same on whole numbers below 2^53. *)
Definition parseFloat (s : jsstring) : jsnum :=
  let ip := take_while is_digit s in
  match drop_while is_digit s with
  | c :: r =>
      if c =? DOT then
        let fp := take_while is_digit r in
        match ip, fp with
        | [], [] => NaN
        | _, _ => Num (decimal_value ip fp)
        end
      else match ip with [] => NaN | _ => Num (decimal_value ip []) end
  | [] => match ip with [] => NaN | _ => Num (decimal_value ip []) end
  end.

(** [s.match(/^([\d.]+)([hms])$/i)]: the two capture groups.  The unit
    letters are outside [[\d.]], so the greedy scan needs no backtracking. *)
Definition match_duration (s : jsstring) : option (jsstring * N) :=
  match take_while is_digit_or_dot s, drop_while is_digit_or_dot s with
  | c :: g, [l] => if is_unit_letter l then Some (c :: g, l) else None
  | _, _ => None
  end.

(** ** Events, configuration and the world *)

(** The three reasons [validateLockIntervals] gives. *)
Inductive violation : Type :=
| MinExceedsLimit                          (* "Minimum lock interval exceeds 30 minutes limit" *)
| MaxExceedsLimit                          (* "Maximum lock interval exceeds 30 minutes limit" *)
| MinGreaterThanMax (minMs maxMs : jsnum). (* "Minimum lock interval (..ms) cannot be greater than maximum (..ms)" *)

(** The texts handed to the logger and to the notification surface, by
    the statement that produces them. *)
Inductive message : Type :=
| WouldExecute (cmd : jsstring) (args : list jsstring)
| InvalidDurationFormat (duration : jsstring)
| ErrorGettingKeyboardIds
| ErrorGettingMouseIds
| LoginctlOutput (output : jsstring)
| FoundSessionId (id : jsstring)
| NoSessionFound
| LoginctlError
| NoSessionIdForLogout
| TerminatingSession (id : jsstring)
| ValidationFailed (reason : option violation)
| StoppedInvalidSettings (reason : option violation)
| DurationExpired (duration : jsstring)
| FinishedAfter (duration : jsstring)
| NewCycleStarted
| NextLockIn (lockIntervalMs : jsnum)
| FoundMice (ids : list N)
| FoundKeyboards (ids : list N)
| SleepingFor (lockIntervalMs : jsnum)
| UnlockedFor (ms : jsnum)
| CycleCompleted
| MissingBinaries (missing : list jsstring)
| SecretNotSet
| SecretSetStartAgain
| CannotStart (reason : option violation)
| BannerRule
| StartingDryRun
| BannerDuration (duration : jsstring)
| BannerInterval (lo hi : jsstring)
| InitialLock
| Started (dryRun : bool) (duration lo hi : jsstring)
| StopRequested
| ClearingTimeouts (count : nat)
| AllTimeoutsCleared
| LoopTaskNotAwaited
| StoppedSuccessfully
| IsStopped
| EnterPassword
| PasswordUpdated
| SecretCleared.

Inductive event : Type :=
| Spawn (cmd : jsstring) (args : list jsstring)   (* child_process.spawn *)
| LogInfo (m : message)
| LogError (m : message)
| ShowInformation (m : message)
| ShowError (m : message)
| ShowInputBox (m : message).

(** [workspace.getConfiguration("blueberry")]; an unset key is [None]. *)
Record config : Type := Config {
  dryRun : option bool;
  duration : option jsstring;
  lockIntervalMin : option jsstring;
  lockIntervalMax : option jsstring
}.

(** The button picked on the "secret is not set" error. *)
Inductive choice : Type := SetSecretNow | Cancel.

(** What the outside answers at its n-th consultation. *)
Record Env : Type := MkEnv {
  env_spawn : nat → bool;             (* child ends with 'exit', else 'error' *)
  env_stdout : nat → option jsstring; (* output on exit code 0, else rejection *)
  env_random : nat → Q;               (* Math.random() *)
  env_now : nat → Z;                  (* Date.now() *)
  env_pick : nat → option choice;     (* showErrorMessage with items *)
  env_input : nat → option jsstring   (* showInputBox *)
}.

(** Where a loop task waits in a timed sleep, with the locals it still
    needs. *)
Inductive cont : Type :=
| AfterLockedHold (secret : jsstring) (mouseIds keyboardIds : list N) (dryRun : bool)
| AfterUnlockedHold (mouseIds keyboardIds : list N) (dryRun : bool).

Record world : Type := World {
  (* fields of the service *)
  active : bool;
  currentLoopTask : option nat;
  requiredBinariesChecked : bool;
  activeTimeouts : gset nat;
  startTime : Z;
  (* collaborators *)
  secretStorage : option jsstring;    (* the value under "blueberry-secret" *)
  configuration : config;
  (* runtime *)
  timers : gset nat;                  (* timeouts armed and not yet fired or cleared *)
  sleepers : gmap nat (jsnum * cont); (* pending sleep promises and what awaits them *)
  entering : gset nat;                (* loop tasks created, body not yet run *)
  next_timer : nat;
  next_task : nat;
  (* outside *)
  env : Env;
  ticks : nat;
  trace : list event
}.

Definition set_active (x : bool) (w : world) : world :=
  World x (currentLoopTask w) (requiredBinariesChecked w) (activeTimeouts w) (startTime w) (secretStorage w) (configuration w) (timers w) (sleepers w) (entering w) (next_timer w) (next_task w) (env w) (ticks w) (trace w).
Definition set_currentLoopTask (x : option nat) (w : world) : world :=
  World (active w) x (requiredBinariesChecked w) (activeTimeouts w) (startTime w) (secretStorage w) (configuration w) (timers w) (sleepers w) (entering w) (next_timer w) (next_task w) (env w) (ticks w) (trace w).
Definition set_requiredBinariesChecked (x : bool) (w : world) : world :=
  World (active w) (currentLoopTask w) x (activeTimeouts w) (startTime w) (secretStorage w) (configuration w) (timers w) (sleepers w) (entering w) (next_timer w) (next_task w) (env w) (ticks w) (trace w).
Definition set_activeTimeouts (x : gset nat) (w : world) : world :=
  World (active w) (currentLoopTask w) (requiredBinariesChecked w) x (startTime w) (secretStorage w) (configuration w) (timers w) (sleepers w) (entering w) (next_timer w) (next_task w) (env w) (ticks w) (trace w).
Definition set_startTime (x : Z) (w : world) : world :=
  World (active w) (currentLoopTask w) (requiredBinariesChecked w) (activeTimeouts w) x (secretStorage w) (configuration w) (timers w) (sleepers w) (entering w) (next_timer w) (next_task w) (env w) (ticks w) (trace w).
Definition set_secretStorage (x : option jsstring) (w : world) : world :=
  World (active w) (currentLoopTask w) (requiredBinariesChecked w) (activeTimeouts w) (startTime w) x (configuration w) (timers w) (sleepers w) (entering w) (next_timer w) (next_task w) (env w) (ticks w) (trace w).
Definition set_configuration (x : config) (w : world) : world :=
  World (active w) (currentLoopTask w) (requiredBinariesChecked w) (activeTimeouts w) (startTime w) (secretStorage w) x (timers w) (sleepers w) (entering w) (next_timer w) (next_task w) (env w) (ticks w) (trace w).
Definition set_timers (x : gset nat) (w : world) : world :=
  World (active w) (currentLoopTask w) (requiredBinariesChecked w) (activeTimeouts w) (startTime w) (secretStorage w) (configuration w) x (sleepers w) (entering w) (next_timer w) (next_task w) (env w) (ticks w) (trace w).
Definition set_sleepers (x : gmap nat (jsnum * cont)) (w : world) : world :=
  World (active w) (currentLoopTask w) (requiredBinariesChecked w) (activeTimeouts w) (startTime w) (secretStorage w) (configuration w) (timers w) x (entering w) (next_timer w) (next_task w) (env w) (ticks w) (trace w).
Definition set_entering (x : gset nat) (w : world) : world :=
  World (active w) (currentLoopTask w) (requiredBinariesChecked w) (activeTimeouts w) (startTime w) (secretStorage w) (configuration w) (timers w) (sleepers w) x (next_timer w) (next_task w) (env w) (ticks w) (trace w).
Definition set_next_timer (x : nat) (w : world) : world :=
  World (active w) (currentLoopTask w) (requiredBinariesChecked w) (activeTimeouts w) (startTime w) (secretStorage w) (configuration w) (timers w) (sleepers w) (entering w) x (next_task w) (env w) (ticks w) (trace w).
Definition set_next_task (x : nat) (w : world) : world :=
  World (active w) (currentLoopTask w) (requiredBinariesChecked w) (activeTimeouts w) (startTime w) (secretStorage w) (configuration w) (timers w) (sleepers w) (entering w) (next_timer w) x (env w) (ticks w) (trace w).
Definition set_env (x : Env) (w : world) : world :=
  World (active w) (currentLoopTask w) (requiredBinariesChecked w) (activeTimeouts w) (startTime w) (secretStorage w) (configuration w) (timers w) (sleepers w) (entering w) (next_timer w) (next_task w) x (ticks w) (trace w).
Definition set_ticks (x : nat) (w : world) : world :=
  World (active w) (currentLoopTask w) (requiredBinariesChecked w) (activeTimeouts w) (startTime w) (secretStorage w) (configuration w) (timers w) (sleepers w) (entering w) (next_timer w) (next_task w) (env w) x (trace w).
Definition set_trace (x : list event) (w : world) : world :=
  World (active w) (currentLoopTask w) (requiredBinariesChecked w) (activeTimeouts w) (startTime w) (secretStorage w) (configuration w) (timers w) (sleepers w) (entering w) (next_timer w) (next_task w) (env w) (ticks w) x.

(** ** Computations of the service *)

(** A promise settles: it resolves with a value or rejects. *)
Inductive outcome (A : Type) : Type :=
| Resolved (a : A)
| Rejected.
Arguments Resolved {A} a.
Arguments Rejected {A}.

Definition M (A : Type) : Type := world → outcome A * world.

Definition ret {A} (a : A) : M A := λ w, (Resolved a, w).

(** [await m] and go on with the value, or propagate the rejection. *)
Definition bind {A B} (m : M A) (f : A → M B) : M B := λ w,
  match m w with
  | (Resolved a, w') => f a w'
  | (Rejected, w') => (Rejected, w')
  end.

Notation "'let*' x ':=' m 'in' k" := (bind m (λ x, k))
  (at level 10, x pattern, m at level 100, k at level 200).
Notation "m >> k" := (bind m (λ _, k))
  (at level 100, k at level 200, right associativity).

Definition reject {A} : M A := λ w, (Rejected, w).

(** [try { m } catch { h }]. *)
Definition try_catch {A} (m h : M A) : M A := λ w,
  match m w with
  | (Resolved a, w') => (Resolved a, w')
  | (Rejected, w') => h w'
  end.

(** [void p]: the call is made, its promise is dropped. *)
Definition void {A} (m : M A) : M unit := λ w, (Resolved (), (m w).2).

Definition gets {A} (f : world → A) : M A := λ w, (Resolved (f w), w).
Definition modify (f : world → world) : M unit := λ w, (Resolved (), f w).
Definition emit (e : event) : M unit := modify (λ w, set_trace (trace w ++ [e]) w).

(** One answer from the outside. *)
Definition consult {A} (f : Env → nat → A) : M A := λ w,
  (Resolved (f (env w) (ticks w)), set_ticks (S (ticks w)) w).

(** [for (const x of xs) { body }]. *)
Fixpoint for_each {A} (xs : list A) (body : A → M unit) : M unit :=
  match xs with
  | [] => ret ()
  | x :: xs' => body x >> for_each xs' body
  end.

Definition when (b : bool) (m : M unit) : M unit := if b then m else ret ().

Definition logInfo (m : message) : M unit := emit (LogInfo m).
Definition logError (m : message) : M unit := emit (LogError m).

Definition LOCK_CMD : jsstring := u "ft_lock".
Definition XDOTOOL_CMD : jsstring := u "xdotool".
Definition XSET_CMD : jsstring := u "xset".
Definition XINPUT_CMD : jsstring := u "xinput".
Definition LOGINCTL_CMD : jsstring := u "loginctl".
Definition REQUIRED_BINARIES : list jsstring :=
  [u "ft_lock"; u "xdotool"; u "xset"; u "xinput"; u "loginctl"].
Definition UNLOCK_TIME_MS : jsnum := ofZ 500.

Definition logCommand (cmd : jsstring) (args : list jsstring) : M unit :=
  logInfo (WouldExecute cmd args).

Definition isDryRun : M bool :=
  let* c := gets configuration in ret (default false (dryRun c)).

(** [sleep(ms)], awaited by a task that goes on as [k]: a timeout is
    armed, entered in [activeTimeouts], and the task waits for it. *)
Definition sleep (ms : jsnum) (k : cont) : M unit :=
  modify (λ w,
    let timeoutId := next_timer w in
    set_next_timer (S timeoutId)
      (set_sleepers (<[timeoutId := (ms, k)]> (sleepers w))
        (set_timers ({[timeoutId]} ∪ timers w)
          (set_activeTimeouts ({[timeoutId]} ∪ activeTimeouts w) w)))).

Definition ONE_HOUR : jsnum := jsmul (jsmul (ofZ 60) (ofZ 60)) (ofZ 1000).

Definition parseDuration (duration : jsstring) : M jsnum :=
  match match_duration (trim duration) with
  | None =>
      logError (InvalidDurationFormat duration) >>
      ret ONE_HOUR
  | Some (g1, g2) =>
      let value := parseFloat g1 in
      let unit := toLowerCase1 g2 in
      if unit =? 104 then ret (jsmul (jsmul (jsmul value (ofZ 60)) (ofZ 60)) (ofZ 1000))
      else if unit =? 109 then ret (jsmul (jsmul value (ofZ 60)) (ofZ 1000))
      else if unit =? 115 then ret (jsmul value (ofZ 1000))
      else ret ONE_HOUR
  end.

(** The listing returned for [xinput list] in dry-run mode. *)
Definition MOCK_XINPUT_LIST : jsstring :=
  [0x23A1] ++ u " Virtual core pointer                    " ++ [9] ++ u "id=2" ++ [9] ++ u "[master pointer  (3)]" ++ [10] ++
  [0x239C] ++ u "   " ++ [0x21B3] ++ u " Virtual core XTEST pointer              " ++ [9] ++ u "id=4" ++ [9] ++ u "[slave  pointer  (2)]" ++ [10] ++
  [0x239C] ++ u "   " ++ [0x21B3] ++ u " Logitech USB Mouse                       " ++ [9] ++ u "id=9" ++ [9] ++ u "[slave  pointer  (2)]" ++ [10] ++
  [0x23A3] ++ u " Virtual core keyboard                   " ++ [9] ++ u "id=3" ++ [9] ++ u "[master keyboard (2)]" ++ [10] ++
  u "    " ++ [0x21B3] ++ u " Virtual core XTEST keyboard             " ++ [9] ++ u "id=5" ++ [9] ++ u "[slave  keyboard (3)]" ++ [10] ++
  u "    " ++ [0x21B3] ++ u " AT Translated Set 2 wired keyboard      " ++ [9] ++ u "id=10" ++ [9] ++ u "[slave  keyboard (3)]".

Definition MOCK_SESSIONS : jsstring := u "c54 103457 abennar seat0".

(** [runCommandAsync]: the exit code it resolves with is never read. *)
Definition runCommandAsync (cmd : jsstring) (args : list jsstring) : M unit :=
  let* d := isDryRun in
  if d then logCommand cmd args
  else
    emit (Spawn cmd args) >>
    let* exited := consult env_spawn in
    if exited then ret () else reject.

Definition execAndWaitForOutput (cmd : jsstring) (args : list jsstring) : M jsstring :=
  let* d := isDryRun in
  if d then
    logCommand cmd args >>
    if bool_decide (cmd = XINPUT_CMD) && bool_decide (args !! 0%nat = Some (u "list"))
    then ret MOCK_XINPUT_LIST
    else if bool_decide (cmd = LOGINCTL_CMD)
            && bool_decide (args !! 0%nat = Some (u "list-sessions"))
            && bool_decide (args !! 1%nat = Some (u "--no-legend"))
    then ret MOCK_SESSIONS
    else ret []
  else
    emit (Spawn cmd args) >>
    let* out := consult env_stdout in
    match out with
    | Some stdout => ret stdout
    | None => reject
    end.

Definition checkBinaryExists (binaryName : jsstring) : M bool :=
  let* d := isDryRun in
  if d then logCommand (u "which") [binaryName] >> ret true
  else
    try_catch
      (let* result := execAndWaitForOutput (u "which") [binaryName] in
       ret (0 <? length (trim result))%nat)
      (ret false).

(** The loop of [checkRequiredBinaries], with [missing] as accumulator. *)
Fixpoint checkBinaries_loop (binaries missing : list jsstring) : M (list jsstring) :=
  match binaries with
  | [] => ret missing
  | binary :: rest =>
      let* exists_ := checkBinaryExists binary in
      checkBinaries_loop rest (if exists_ then missing else missing ++ [binary])
  end.

Definition checkRequiredBinaries : M (bool * list jsstring) :=
  let* missing := checkBinaries_loop REQUIRED_BINARIES [] in
  ret (bool_decide (length missing = 0%nat), missing).

(** [id.toString()]. *)
Definition toString (id : N) : jsstring :=
  u (NilZero.string_of_uint (N.to_uint id)).

Definition disableInputDevices (deviceIds : list N) : M unit :=
  for_each deviceIds (λ id : N,
    try_catch (runCommandAsync XINPUT_CMD [u "disable"; toString id]) (ret ())).

Definition enableInputDevices (deviceIds : list N) : M unit :=
  for_each deviceIds (λ id : N,
    try_catch (runCommandAsync XINPUT_CMD [u "enable"; toString id]) (ret ())).

(** [line.match(/id=(\d+)/)]: the capture of the leftmost match. *)
Fixpoint match_id (line : jsstring) : option jsstring :=
  match line with
  | [] => None
  | _ :: line' =>
      if starts_with (u "id=") line then
        match take_while is_digit (drop 3 line) with
        | [] => match_id line'
        | ds => Some ds
        end
      else match_id line'
  end.

(** [parseInt] of a capture of [\d+], as the exact number; the code has
    it as a double, which is that number below 2^53. *)
Definition parseInt (ds : jsstring) : N := Z.to_N (digits_val ds).

(** The loop over the lines in [getKeyboardIds]. *)
Fixpoint keyboard_loop (lines : list jsstring) (keyboardIds : list N) : list N :=
  match lines with
  | [] => keyboardIds
  | line :: rest =>
      if includes line (u "slave  keyboard") && includes line (u "wired keyboard") then
        match match_id line with
        | Some g1 => keyboard_loop rest (keyboardIds ++ [parseInt g1])
        | None => keyboard_loop rest keyboardIds
        end
      else keyboard_loop rest keyboardIds
  end.

(** The loop over the lines in [getMouseIds]. *)
Fixpoint mouse_loop (lines : list jsstring) (mouseIds : list N) : list N :=
  match lines with
  | [] => mouseIds
  | line :: rest =>
      if includes line (u "slave  pointer")
         && (includes line (u "Mouse") || includes line (u "mouse")) then
        match match_id line with
        | Some g1 => mouse_loop rest (mouseIds ++ [parseInt g1])
        | None => mouse_loop rest mouseIds
        end
      else mouse_loop rest mouseIds
  end.

Definition getKeyboardIds : M (list N) :=
  try_catch
    (let* output := execAndWaitForOutput XINPUT_CMD [u "list"] in
     ret (keyboard_loop (split_lines output) []))
    (logError ErrorGettingKeyboardIds >> ret []).

Definition getMouseIds : M (list N) :=
  try_catch
    (let* output := execAndWaitForOutput XINPUT_CMD [u "list"] in
     ret (mouse_loop (split_lines output) []))
    (logError ErrorGettingMouseIds >> ret []).

Record validation : Type := Validation {
  valid : bool;
  error : option violation
}.

Definition MAX_INTERVAL_MS : jsnum := jsmul (jsmul (ofZ 30) (ofZ 60)) (ofZ 1000).

Definition validateLockIntervals (minMs maxMs : jsnum) : validation :=
  if jsgt minMs MAX_INTERVAL_MS then Validation false (Some MinExceedsLimit)
  else if jsgt maxMs MAX_INTERVAL_MS then Validation false (Some MaxExceedsLimit)
  else if jsgt minMs maxMs then Validation false (Some (MinGreaterThanMax minMs maxMs))
  else Validation true None.

Definition getRandomLockInterval (minMs maxMs : jsnum) : M jsnum :=
  if js_strict_eq minMs maxMs then ret minMs
  else
    let* r := consult env_random in
    ret (jsadd (jsmul (Num r) (jssub maxMs minMs)) minMs).

(** The loop over the lines in [getCurrentSessionId]: the first field of
    the first line that is not blank.  [split(/\s+/)] of a trimmed,
    non-empty line has that line's leading run of non-blanks as [parts[0]]. *)
Fixpoint first_session_field (lines : list jsstring) : option jsstring :=
  match lines with
  | [] => None
  | line :: rest =>
      match trim line with
      | [] => first_session_field rest
      | trimmed => Some (take_while (λ c, negb (is_js_whitespace c)) trimmed)
      end
  end.

Definition getCurrentSessionId : M (option jsstring) :=
  try_catch
    (let* output := execAndWaitForOutput LOGINCTL_CMD [u "list-sessions"; u "--no-legend"] in
     logInfo (LoginctlOutput output) >>
     match first_session_field (split_lines output) with
     | Some id => logInfo (FoundSessionId id) >> ret (Some id)
     | None => logError NoSessionFound >> ret None
     end)
    (logError LoginctlError >> ret None).

Definition terminateSession : M unit :=
  let* sessionId := getCurrentSessionId in
  match sessionId with
  | None | Some [] => logError NoSessionIdForLogout
  | Some id =>
      logInfo (TerminatingSession id) >>
      runCommandAsync LOGINCTL_CMD [u "terminate-session"; id]
  end.

Definition hasTimeExpired (durationMs : jsnum) : M bool :=
  let* now := consult env_now in
  let* started := gets startTime in
  let elapsedMs := ofZ (now - started) in
  ret (jsge elapsedMs durationMs).

Definition stop : M unit :=
  logInfo StopRequested >>
  modify (set_active false) >>
  let* timeoutCount := gets (λ w, size (activeTimeouts w)) in
  logInfo (ClearingTimeouts timeoutCount) >>
  let* ids := gets (λ w, elements (activeTimeouts w)) in
  for_each ids (λ timeoutId : nat,
    (* clearTimeout(timeoutId) *)
    modify (λ w, set_timers (timers w ∖ {[timeoutId]}) w)) >>
  modify (set_activeTimeouts ∅) >>
  logInfo AllTimeoutsCleared >>
  let* task := gets currentLoopTask in
  when (bool_decide (is_Some task))
    (logInfo LoopTaskNotAwaited >>
     modify (set_currentLoopTask None)) >>
  logInfo StoppedSuccessfully >>
  emit (ShowInformation IsStopped).

(** [this.loopTask()] at the call: a task is created; its first statement
    is an [await], so its body runs later, after the caller went on. *)
Definition call_loopTask : M nat :=
  let* id := gets next_task in
  modify (λ w, set_next_task (S id) (set_entering ({[id]} ∪ entering w) w)) >>
  ret id.

Definition xset_off : M unit :=
  void (runCommandAsync XSET_CMD [u "dpms"; u "force"; u "off"]).

(** The body of [loopTask] up to its first timed sleep. *)
Definition loopTask : M unit :=
  let* stored := gets secretStorage in
  let* running := gets active in
  match trim <$> stored with
  | None | Some [] => ret ()
  | Some secret =>
    if negb running then ret () else
    let* config := gets configuration in
    let* dryRun := isDryRun in
    let duration := default (u "1h") (duration config) in
    let* durationMs := parseDuration duration in
    let lockIntervalMinStr := default (u "10m") (lockIntervalMin config) in
    let lockIntervalMaxStr := default (u "20m") (lockIntervalMax config) in
    let* lockIntervalMinMs := parseDuration lockIntervalMinStr in
    let* lockIntervalMaxMs := parseDuration lockIntervalMaxStr in
    let validation := validateLockIntervals lockIntervalMinMs lockIntervalMaxMs in
    if negb (valid validation) then
      logError (ValidationFailed (error validation)) >>
      stop >>
      emit (ShowError (StoppedInvalidSettings (error validation)))
    else
    let* expired := hasTimeExpired durationMs in
    if expired then
      logInfo (DurationExpired duration) >>
      terminateSession >>
      void stop >>
      emit (ShowInformation (FinishedAfter duration))
    else
    let* lockIntervalMs := getRandomLockInterval lockIntervalMinMs lockIntervalMaxMs in
    when dryRun
      (logInfo NewCycleStarted >>
       logInfo (NextLockIn lockIntervalMs)) >>
    let* mouseIds := getMouseIds in
    let* keyboardIds := getKeyboardIds in
    when dryRun
      (logInfo (FoundMice mouseIds) >>
       logInfo (FoundKeyboards keyboardIds)) >>
    runCommandAsync LOCK_CMD [] >>
    xset_off >>
    when dryRun (logInfo (SleepingFor lockIntervalMs)) >>
    sleep lockIntervalMs (AfterLockedHold secret mouseIds keyboardIds dryRun)
  end.

(** [loopTask] from a sleep that resolved to the next sleep or the end. *)
Definition resume (k : cont) : M unit :=
  match k with
  | AfterLockedHold secret mouseIds keyboardIds dryRun =>
      let* running := gets active in
      if negb running then ret () else
      xset_off >>
      disableInputDevices mouseIds >>
      disableInputDevices keyboardIds >>
      runCommandAsync LOCK_CMD [] >>
      runCommandAsync XDOTOOL_CMD [u "type"; secret] >>
      xset_off >>
      runCommandAsync XDOTOOL_CMD [u "key"; u "Return"] >>
      xset_off >>
      when dryRun (logInfo (UnlockedFor UNLOCK_TIME_MS)) >>
      sleep UNLOCK_TIME_MS (AfterUnlockedHold mouseIds keyboardIds dryRun)
  | AfterUnlockedHold mouseIds keyboardIds dryRun =>
      let* running := gets active in
      if negb running then ret () else
      xset_off >>
      enableInputDevices mouseIds >>
      enableInputDevices keyboardIds >>
      when dryRun (logInfo CycleCompleted) >>
      let* running := gets active in
      when running
        (let* task := call_loopTask in
         modify (set_currentLoopTask (Some task)))
  end.

Definition setSecret : M unit :=
  emit (ShowInputBox EnterPassword) >>
  let* pw := consult env_input in
  match pw with
  | None | Some [] => ret ()
  | Some pw =>
      let trimmed := trim pw in
      modify (set_secretStorage (Some trimmed)) >>
      emit (ShowInformation PasswordUpdated)
  end.

Definition clearSecret : M unit :=
  modify (set_secretStorage None) >>
  emit (ShowInformation SecretCleared).

(** The first block of [start]: the required binaries are checked until
    the check has passed once.  [false] stands for the [return] after the
    error message. *)
Definition binaries_gate (dryRun : bool) : M bool :=
  let* checked := gets requiredBinariesChecked in
  if negb checked then
    let* (allPresent, missing) := checkRequiredBinaries in
    if negb allPresent && negb dryRun then
      emit (ShowError (MissingBinaries missing)) >> ret false
    else
      modify (set_requiredBinariesChecked true) >> ret true
  else ret true.

(** The block of [start] for a secret that is not set: the error with
    its two buttons, and [setSecret] when the user picks the first. *)
Definition secret_missing : M unit :=
  emit (ShowError SecretNotSet) >>
  let* action := consult env_pick in
  match action with
  | Some SetSecretNow =>
      setSecret >>
      emit (ShowInformation SecretSetStartAgain)
  | _ => ret ()
  end.

Definition start : M unit :=
  let* dryRun := isDryRun in
  let* proceed := binaries_gate dryRun in
  if negb proceed then ret () else
  let* stored := gets secretStorage in
  match trim <$> stored with
  | None | Some [] => secret_missing
  | Some (_ :: _) =>
      let* running := gets active in
      if running then ret () else
      modify (set_active true) >>
      let* now := consult env_now in
      modify (set_startTime now) >>
      let* config := gets configuration in
      let duration := default (u "1h") (duration config) in
      let lockIntervalMinStr := default (u "10m") (lockIntervalMin config) in
      let lockIntervalMaxStr := default (u "20m") (lockIntervalMax config) in
      let* lockIntervalMinMs := parseDuration lockIntervalMinStr in
      let* lockIntervalMaxMs := parseDuration lockIntervalMaxStr in
      let validation := validateLockIntervals lockIntervalMinMs lockIntervalMaxMs in
      if negb (valid validation) then
        emit (ShowError (CannotStart (error validation)))
      else
      when dryRun
        (logInfo BannerRule >>
         logInfo StartingDryRun >>
         logInfo (BannerDuration duration) >>
         logInfo (BannerInterval lockIntervalMinStr lockIntervalMaxStr) >>
         logInfo BannerRule) >>
      when dryRun (logInfo InitialLock) >>
      runCommandAsync LOCK_CMD [] >>
      let* task := call_loopTask in
      modify (set_currentLoopTask (Some task)) >>
      emit (ShowInformation (Started dryRun duration lockIntervalMinStr lockIntervalMaxStr))
  end.

Definition dispose : M unit := stop.

(** ** The scheduler as a transition system *)

(** A created loop task starts its body. *)
Definition enter (id : nat) (w : world) : world :=
  (loopTask (set_entering (entering w ∖ {[id]}) w)).2.

(** Timeout [t] elapses: its callback removes it from [activeTimeouts]
    and resolves the sleep, and the waiting task goes on. *)
Definition fire (t : nat) (ms : jsnum) (k : cont) (w : world) : world :=
  (resume k
     (set_sleepers (delete t (sleepers w))
        (set_activeTimeouts (activeTimeouts w ∖ {[t]})
           (set_timers (timers w ∖ {[t]}) w)))).2.

Inductive label : Type :=
| CallStart
| CallStop
| CallDispose
| CallSetSecret
| CallClearSecret
| Enter (id : nat)
| Fire (t : nat)
| Reconfigure (c : config).

Inductive step : world → label → world → Prop :=
| step_start w : step w CallStart (start w).2
| step_stop w : step w CallStop (stop w).2
| step_dispose w : step w CallDispose (dispose w).2
| step_setSecret w : step w CallSetSecret (setSecret w).2
| step_clearSecret w : step w CallClearSecret (clearSecret w).2
| step_enter w id : id ∈ entering w → step w (Enter id) (enter id w)
| step_fire w t ms k :
    t ∈ timers w → sleepers w !! t = Some (ms, k) →
    step w (Fire t) (fire t ms k w)
| step_reconfigure w c : step w (Reconfigure c) (set_configuration c w).

(** Runs, with the labels taken. *)
Inductive run : world → list label → world → Prop :=
| run_nil w : run w [] w
| run_cons w l w' ls w'' : step w l w' → run w' ls w'' → run w (l :: ls) w''.

(** A freshly constructed service. *)
Definition initial (c : config) (stored : option jsstring) (e : Env) : world :=
  World false None false ∅ 0%Z stored c ∅ ∅ ∅ 0 0 e 0 [].

(** ** Vocabulary of the statements *)

(** A decimal literal from its digits: [ip], or [ip.fp] when a fraction
    part is present. *)
Definition literal (ip : jsstring) (fp : option jsstring) : jsstring :=
  ip ++ from_option (λ f, DOT :: f) [] fp.

(** Milliseconds per unit: hours, minutes, seconds. *)
Definition unit_factor (c : N) : Q :=
  if (c =? 104) || (c =? 72) then 3600000
  else if (c =? 109) || (c =? 77) then 60000
  else 1000.

(** "A decimal number": digits, optionally a dot and digits, with at
    least one digit in all. *)
Definition is_decimal_literal (s : jsstring) : bool :=
  let ip := take_while is_digit s in
  match drop_while is_digit s with
  | [] => negb (bool_decide (ip = []))
  | c :: fp =>
      (c =? DOT) && forallb is_digit fp
      && negb (bool_decide (ip = []) && bool_decide (fp = []))
  end.

(** "A decimal number immediately followed by a single unit letter,
    surrounding whitespace allowed." *)
Definition is_duration_form (s : jsstring) : bool :=
  match reverse (trim s) with
  | c :: g => is_unit_letter c && is_decimal_literal (reverse g)
  | [] => false
  end.

(** A line has a marker when the marker occurs somewhere in it. *)
Definition contains (line marker : jsstring) : Prop :=
  ∃ pre post, line = pre ++ marker ++ post.

(** An [id=<digits>] token of a line: the text before it, its digits,
    taken as far as they go, and the text after it. *)
Definition id_token (line pre ds post : jsstring) : Prop :=
  line = pre ++ u "id=" ++ ds ++ post
  ∧ ds ≠ [] ∧ Forall (λ c, is_digit c = true) ds
  ∧ match post with [] => True | c :: _ => is_digit c = false end.

(** The number of the leftmost [id=<digits>] token of a line. *)
Definition first_id (line : jsstring) (id : N) : Prop :=
  ∃ pre ds post, id_token line pre ds post ∧ id = parseInt ds
    ∧ ∀ pre' ds' post', id_token line pre' ds' post' → (length pre ≤ length pre')%nat.

(** What one line contributes to the keyboards, and to the mice. *)
Definition keyboard_candidate (line : jsstring) : option N :=
  if includes line (u "slave  keyboard") && includes line (u "wired keyboard")
  then parseInt <$> match_id line else None.

Definition mouse_candidate (line : jsstring) : option N :=
  if includes line (u "slave  pointer")
     && (includes line (u "Mouse") || includes line (u "mouse"))
  then parseInt <$> match_id line else None.

(** ASCII case folding, for markers compared without regard to case. *)
Definition fold_case (s : jsstring) : jsstring := toLowerCase1 <$> s.

Definition includes_ci (line marker : jsstring) : bool :=
  includes (fold_case line) (fold_case marker).

(** What [stop] writes to the log and shows, in order. *)
Definition stop_log (w : world) : list event :=
  [LogInfo StopRequested;
   LogInfo (ClearingTimeouts (size (activeTimeouts w)));
   LogInfo AllTimeoutsCleared]
  ++ (if bool_decide (is_Some (currentLoopTask w)) then [LogInfo LoopTaskNotAwaited] else [])
  ++ [LogInfo StoppedSuccessfully; ShowInformation IsStopped].

(** The world [stop] leaves behind. *)
Definition stopped (w : world) : world :=
  World false None (requiredBinariesChecked w) ∅ (startTime w)
    (secretStorage w) (configuration w)
    (timers w ∖ activeTimeouts w) (sleepers w) (entering w)
    (next_timer w) (next_task w) (env w) (ticks w)
    (trace w ++ stop_log w).

(** A process is spawned, or, in dry-run, logged as "would execute". *)
Definition is_command (e : event) : bool :=
  match e with
  | Spawn _ _ | LogInfo (WouldExecute _ _) => true
  | _ => false
  end.

(** The session-lock command. *)
Definition is_lock_action (e : event) : bool :=
  match e with
  | Spawn cmd _ | LogInfo (WouldExecute cmd _) => bool_decide (cmd = LOCK_CMD)
  | _ => false
  end.

(** An invocation of the input-text-injection command. *)
Definition is_credential_replay (e : event) : bool :=
  match e with
  | Spawn cmd _ | LogInfo (WouldExecute cmd _) => bool_decide (cmd = XDOTOOL_CMD)
  | _ => false
  end.

(** The two invocations of the unlock step for a given secret: typing
    the secret, and the confirmation keypress. *)
Definition replay_of (secret : jsstring) (e : event) : Prop :=
  ∃ args, (args = [u "type"; secret] ∨ args = [u "key"; u "Return"])
    ∧ (e = Spawn XDOTOOL_CMD args ∨ e = LogInfo (WouldExecute XDOTOOL_CMD args)).

(** The events from [w0] to [w] all satisfy [P]. *)
Definition emitted (P : event → Prop) (w0 w : world) : Prop :=
  ∃ new, trace w = trace w0 ++ new ∧ Forall P new.

(** The sleeps pending in [w] were pending in [w0] or satisfy [S]. *)
Definition slept (S : jsnum * cont → Prop) (w0 w : world) : Prop :=
  ∀ t v, sleepers w !! t = Some v → sleepers w0 !! t = Some v ∨ S v.

(** The fields that make up a session and its loop are the same. *)
Definition same_session (w0 w : world) : Prop :=
  active w = active w0 ∧ startTime w = startTime w0
  ∧ currentLoopTask w = currentLoopTask w0
  ∧ activeTimeouts w = activeTimeouts w0 ∧ timers w = timers w0
  ∧ sleepers w = sleepers w0 ∧ entering w = entering w0
  ∧ next_timer w = next_timer w0 ∧ next_task w = next_task w0.

(** The worlds a service can be in. *)
Definition reachable (w : world) : Prop :=
  ∃ c stored e ls, run (initial c stored e) ls w.

(** Armed timeouts are registered in [activeTimeouts], and identifiers in
    use, of timeouts and of sleeps, lie below the next one to be handed
    out. *)
Definition timers_registered (w : world) : Prop :=
  timers w ⊆ activeTimeouts w
  ∧ (∀ t, t ∈ timers w → (t < next_timer w)%nat)
  ∧ (∀ t, is_Some (sleepers w !! t) → (t < next_timer w)%nat).

(** The sleep of timeout [t] is still awaited, by [v], and its timeout
    is no longer armed. *)
Definition abandoned (t : nat) (v : jsnum * cont) (w : world) : Prop :=
  (t ∉ timers w) ∧ (t < next_timer w)%nat ∧ sleepers w !! t = Some v.

(** The last two statements of [stop]: the completion log and the
    notification. *)
Definition stop_completion : M unit :=
  logInfo StoppedSuccessfully >> emit (ShowInformation IsStopped).

(** The statements of [stop], in the order of the source. *)
Definition stop_statements : list (M unit) :=
  [ logInfo StopRequested;
    modify (set_active false);
    (let* timeoutCount := gets (λ w, size (activeTimeouts w)) in
     logInfo (ClearingTimeouts timeoutCount));
    (let* ids := gets (λ w, elements (activeTimeouts w)) in
     for_each ids (λ timeoutId : nat,
       modify (λ w, set_timers (timers w ∖ {[timeoutId]}) w)));
    modify (set_activeTimeouts ∅);
    logInfo AllTimeoutsCleared;
    (let* task := gets currentLoopTask in
     when (bool_decide (is_Some task))
       (logInfo LoopTaskNotAwaited >> modify (set_currentLoopTask None)));
    logInfo StoppedSuccessfully;
    emit (ShowInformation IsStopped) ].

(** Statements run one after the other. *)
Fixpoint run_statements (ms : list (M unit)) : M unit :=
  match ms with
  | [] => ret ()
  | m :: ms' => m >> run_statements ms'
  end.

(** The worlds a sequence of statements passes through: the one it
    starts in, and the one after each statement. *)
Fixpoint states_between (ms : list (M unit)) (w : world) : list world :=
  w :: match ms with
       | [] => []
       | m :: ms' => states_between ms' (m w).2
       end.

(** Since [w0] the completion of [stop] was logged or shown. *)
Definition completion_logged (w0 w : world) : Prop :=
  ∃ new, trace w = trace w0 ++ new
    ∧ (LogInfo StoppedSuccessfully ∈ new ∨ ShowInformation IsStopped ∈ new).

(** The sleep of timeout [t] has not resolved: a task still awaits it. *)
Definition sleep_pending (t : nat) (w : world) : Prop :=
  is_Some (sleepers w !! t).

(** Worlds to run the service on: an outside that answers nothing, a
    dry-run service with a stored secret and both intervals at ten
    minutes, and that service started and suspended in its first locked
    hold. *)
Definition silent_env : Env :=
  MkEnv (λ _, true) (λ _, None) (λ _, 0%Q) (λ _, 0%Z) (λ _, None) (λ _, None).

Definition dry_world : world :=
  initial (Config (Some true) None (Some (u "10m")) (Some (u "10m")))
    (Some (u "pw")) silent_env.

Definition locked_hold_world : world := enter 0 (start dry_world).2.

(** Both at once, as the footprint of a computation started in [w0]. *)
Definition footprint (P : event → Prop) (S : jsnum * cont → Prop) (w0 w : world) : Prop :=
  emitted P w0 w ∧ slept S w0 w.

(** The secret that an event types into the session, if it types one. *)
Definition typed_secret (e : event) : option jsstring :=
  match e with
  | Spawn cmd [a; s] | LogInfo (WouldExecute cmd [a; s]) =>
      if bool_decide (cmd = XDOTOOL_CMD ∧ a = u "type") then Some s else None
  | _ => None
  end.

(** Every secret typed so far, and every secret a suspended cycle is
    about to type, is non-empty. *)
Definition replay_safe (w : world) : Prop :=
  (∀ e s, e ∈ trace w → typed_secret e = Some s → s ≠ [])
  ∧ (∀ t ms secret mouseIds keyboardIds dryRun,
       sleepers w !! t = Some (ms, AfterLockedHold secret mouseIds keyboardIds dryRun) →
       secret ≠ []).

(** What a call that starts nothing may do: the session is as it was
    and no lock command is run. *)
Definition session_frame (w0 w : world) : Prop :=
  same_session w0 w ∧ emitted (λ e, is_lock_action e = false) w0 w.

(** The check of the binaries lets [start] through: it passed before, or
    the service is in dry-run, or every binary is found. *)
Definition gate_open (w : world) : Prop :=
  requiredBinariesChecked w = true
  ∨ default false (dryRun (configuration w)) = true
  ∨ ∃ missing, (checkRequiredBinaries w).1 = Resolved (true, missing).

(** Since [w0] the user was told that the secret is not set, with the
    offer to set it. *)
Definition prompted (w0 w : world) : Prop :=
  ∃ new, trace w = trace w0 ++ new ∧ ShowError SecretNotSet ∈ new.

(** [keeps I m]: whatever [m] does, and however it settles, it leads from
    worlds in [I] to worlds in [I]. *)
Definition keeps (I : world → Prop) {A} (m : M A) : Prop :=
  ∀ w, I w → I (m w).2.

(** ** Vocabulary of the further statements *)

(** The trimmed text has the shape the pattern of [parseDuration] asks
    for: digits and dots, at least one, then one unit letter. *)
Definition pattern_form (s : jsstring) : Prop :=
  ∃ g c, s = g ++ [c] ∧ g ≠ []
    ∧ Forall (λ c, is_digit_or_dot c = true) g ∧ is_unit_letter c = true.

(** The number [parseDuration] returns for a string; it does not depend
    on the world. *)
Definition duration_value (s : jsstring) : jsnum :=
  match (parseDuration s dry_world).1 with
  | Resolved v => v
  | Rejected => NaN
  end.

(** The world after [parseDuration]: the error is logged when the
    pattern does not match. *)
Definition after_parse (s : jsstring) (w : world) : world :=
  match match_duration (trim s) with
  | Some _ => w
  | None => set_trace (trace w ++ [LogError (InvalidDurationFormat s)]) w
  end.

(** A computation that always resolves. *)
Definition never_rejects {A} (m : M A) : Prop :=
  ∀ w, ∃ a, (m w).1 = Resolved a.

(** When [m] rejects from a world in [I], it leaves a world in [I]. *)
Definition rejects_within (I : world → Prop) {A} (m : M A) : Prop :=
  ∀ w, I w → (m w).1 = Rejected → I (m w).2.

(** The service is in dry-run. *)
Definition dry (w : world) : Prop :=
  default false (dryRun (configuration w)) = true.

Definition is_spawn (e : event) : bool :=
  match e with Spawn _ _ => true | _ => false end.

(** The event of running a command: a spawn, or in dry-run its log line. *)
Definition command_event (dryRun : bool) (cmd : jsstring) (args : list jsstring) : event :=
  if dryRun then LogInfo (WouldExecute cmd args) else Spawn cmd args.

(** Whether the probe for a binary, answered at consultation [k], finds
    it: the command succeeds and prints more than blanks. *)
Definition probe_finds (w : world) (k : nat) : bool :=
  match env_stdout (env w) k with
  | Some out => (0 <? length (trim out))%nat
  | None => false
  end.

(** The binaries of a list whose probes, answered from consultation [k]
    on, do not find them. *)
Fixpoint not_found (w : world) (k : nat) (binaries : list jsstring) : list jsstring :=
  match binaries with
  | [] => []
  | b :: rest =>
      if probe_finds w k then not_found w (S k) rest
      else b :: not_found w (S k) rest
  end.

(** A number within the safety cap of thirty minutes, or no number. *)
Definition within_cap (ms : jsnum) : Prop :=
  match ms with
  | Num q => (q <= 1800000)%Q
  | NaN => True
  end.

(** The five log lines of a second [stop]. *)
Definition stop_again_log : list event :=
  [LogInfo StopRequested; LogInfo (ClearingTimeouts 0); LogInfo AllTimeoutsCleared;
   LogInfo StoppedSuccessfully; ShowInformation IsStopped].

(** Everything but the trace and the count of consultations is the same. *)
Definition same_state (w0 w : world) : Prop :=
  same_session w0 w
  ∧ requiredBinariesChecked w = requiredBinariesChecked w0
  ∧ secretStorage w = secretStorage w0
  ∧ configuration w = configuration w0
  ∧ env w = env w0.

(** A service started outside dry-run on a host where no process can be
    spawned, though listings are answered. *)
Definition failing_env : Env :=
  MkEnv (λ _, false) (λ _, Some (u "x")) (λ _, 0%Q) (λ _, 0%Z) (λ _, None) (λ _, None).

(** The loop tasks, the timeouts and the pending sleeps are the same. *)
Definition same_tasks (w0 w : world) : Prop :=
  currentLoopTask w = currentLoopTask w0
  ∧ activeTimeouts w = activeTimeouts w0 ∧ timers w = timers w0
  ∧ sleepers w = sleepers w0 ∧ entering w = entering w0
  ∧ next_timer w = next_timer w0 ∧ next_task w = next_task w0.

(** An active service outside dry-run, with a secret and both intervals
    at ten minutes, on the host where no process can be spawned. *)
Definition failing_world : world :=
  set_active true
    (initial (Config None None (Some (u "10m")) (Some (u "10m")))
       (Some (u "pw")) failing_env).

(** Dry-run is on, and since [w0] no process was spawned. *)
Definition dry_quiet (w0 w : world) : Prop :=
  dry w ∧ emitted (λ e, is_spawn e = false) w0 w.

(** Registered timeouts are armed, and armed timeouts have a task
    waiting for them. *)
Definition timers_tracked (w : world) : Prop :=
  activeTimeouts w ⊆ timers w
  ∧ ∀ t, t ∈ timers w → is_Some (sleepers w !! t).

(** The service is stopped: the flag is clear, no timeout is armed, and
    since [w0] no command was run. *)
Definition at_rest (w0 w : world) : Prop :=
  active w = false ∧ timers w = ∅ ∧ emitted (λ e, is_command e = false) w0 w.

(** The settings as [start] and [loopTask] read them, with their
    defaults, and the verdict on the two intervals. *)
Definition configured_duration (c : config) : jsstring :=
  default (u "1h") (duration c).
Definition configured_min (c : config) : jsstring :=
  default (u "10m") (lockIntervalMin c).
Definition configured_max (c : config) : jsstring :=
  default (u "20m") (lockIntervalMax c).

Definition configured_validation (c : config) : validation :=
  validateLockIntervals (duration_value (configured_min c))
    (duration_value (configured_max c)).

(** A secret is stored and is not blank. *)
Definition has_secret (w : world) : Prop :=
  ∃ c s, trim <$> secretStorage w = Some (c :: s).

(** Since [w0] the lock command was run once, as the event [e]. *)
Definition locked_once (e : event) (w0 w : world) : Prop :=
  ∃ pre post, trace w = trace w0 ++ pre ++ e :: post
    ∧ Forall (λ e, is_lock_action e = false) pre
    ∧ Forall (λ e, is_lock_action e = false) post.

(** What the check of the binaries in [start] leaves as it was. *)
Definition gate_frame (w0 w : world) : Prop :=
  session_frame w0 w ∧ secretStorage w = secretStorage w0
  ∧ configuration w = configuration w0 ∧ env w = env w0.

(** The outside draws random numbers as [Math.random] does, from
    [0, 1). *)
Definition random_in_range (e : Env) : Prop :=
  ∀ k, (0 <= env_random e k)%Q ∧ (env_random e k < 1)%Q.

(** The outside is [e], and every pending sleep was entered for a time
    within the cap. *)
Definition sleeps_capped (e : Env) (w : world) : Prop :=
  env w = e ∧ ∀ t ms k, sleepers w !! t = Some (ms, k) → within_cap ms.

(** Every command can be run: in dry-run it is only logged, and
    otherwise each process can be spawned. *)
Definition can_run_commands (w : world) : Prop :=
  dry w ∨ ∀ k, env_spawn (env w) k = true.

(** Since [w0] the events [evs] were emitted, in this order, and nothing
    else changed but the count of consultations. *)
Definition traced (w0 : world) (evs : list event) (w : world) : Prop :=
  trace w = trace w0 ++ evs ∧ same_state w0 w.

Definition xset_event (d : bool) : event :=
  command_event d XSET_CMD [u "dpms"; u "force"; u "off"].

(** The commands of the unlock step, in order: the display is turned
    off, the mice and then the keyboards are disabled, the lock command is
    run, the secret is typed, and the return key is pressed. *)
Definition unlock_commands (d : bool) (secret : jsstring) (mouseIds keyboardIds : list N)
    : list event :=
  [xset_event d]
  ++ map (λ id, command_event d XINPUT_CMD [u "disable"; toString id]) mouseIds
  ++ map (λ id, command_event d XINPUT_CMD [u "disable"; toString id]) keyboardIds
  ++ [command_event d LOCK_CMD [];
      command_event d XDOTOOL_CMD [u "type"; secret];
      xset_event d;
      command_event d XDOTOOL_CMD [u "key"; u "Return"];
      xset_event d].

(** The commands after the unlocked hold: the display is turned off and
    the mice and then the keyboards are enabled again. *)
Definition reenable_commands (d : bool) (mouseIds keyboardIds : list N) : list event :=
  [xset_event d]
  ++ map (λ id, command_event d XINPUT_CMD [u "enable"; toString id]) mouseIds
  ++ map (λ id, command_event d XINPUT_CMD [u "enable"; toString id]) keyboardIds.

(** Since [w0] no lock command was run, and nothing changed but the
    trace and the count of consultations. *)
Definition lock_free (w0 w : world) : Prop :=
  emitted (λ e, is_lock_action e = false) w0 w ∧ same_state w0 w.

(** A whole number of at most nine digits and a unit letter, with blanks
    around it allowed. *)
Definition whole_form (s : jsstring) : Prop :=
  ∃ ds c, trim s = ds ++ [c] ∧ ds ≠ [] ∧ (length ds ≤ 9)%nat
    ∧ Forall (λ d, is_digit d = true) ds ∧ is_unit_letter c = true.

(** Durations on which the arithmetic of the code does not round, so
    that the number it has is the exact one: a whole number of at most
    nine digits (it and its products with 60, 60 and 1000 are integers
    below 2^53), a text that the pattern rejects (the fallback of one
    hour), and dots alone before the unit (no number). *)
Definition unrounded (s : jsstring) : Prop :=
  whole_form s
  ∨ ¬ pattern_form (trim s)
  ∨ ∃ n c, trim s = replicate (S n) DOT ++ [c] ∧ is_unit_letter c = true.

Definition intervals_unrounded (c : config) : Prop :=
  unrounded (configured_min c) ∧ unrounded (configured_max c).

(** The clock reads below 2^53, as [Date.now] does, now and at the
    start of the session, so that their difference is exact as well. *)
Definition clock_in_range (w : world) : Prop :=
  (0 ≤ startTime w < 2 ^ 53)%Z ∧ (0 ≤ env_now (env w) (ticks w) < 2 ^ 53)%Z.

Definition settings_unrounded (w : world) : Prop :=
  intervals_unrounded (configuration w)
  ∧ unrounded (configured_duration (configuration w))
  ∧ clock_in_range w.

(** * Properties *)

(** ** Interval validation and the random interval *)

Lemma MAX_INTERVAL_MS_value : jsnum_equiv MAX_INTERVAL_MS (ofZ 1800000).
Proof. reflexivity. Qed.

Lemma jsgt_Num_true (x y : Q) : jsgt (Num x) (Num y) = true ↔ (y < x)%Q.
Proof.
  unfold jsgt. rewrite negb_true_iff, <- not_true_iff_false, Qle_bool_iff.
  split; [apply Qnot_le_lt | apply Qlt_not_le].
Qed.

Lemma jsgt_Num_false (x y : Q) : jsgt (Num x) (Num y) = false ↔ (x <= y)%Q.
Proof.
  unfold jsgt. rewrite negb_false_iff. apply Qle_bool_iff.
Qed.

(** C4: with a ceiling of 1 800 000 ms, pairs [min <= max <= ceiling] are
    valid; a [min] above the ceiling is reported as such; a [max] above it,
    with [min] within, as such; and [min > max], both within, as such. *)
Theorem validateLockIntervals_spec (a b : Q) :
  ((a <= b)%Q → (b <= 1800000)%Q →
     validateLockIntervals (Num a) (Num b) = Validation true None)
  ∧ ((1800000 < a)%Q →
     validateLockIntervals (Num a) (Num b) = Validation false (Some MinExceedsLimit))
  ∧ ((a <= 1800000)%Q → (1800000 < b)%Q →
     validateLockIntervals (Num a) (Num b) = Validation false (Some MaxExceedsLimit))
  ∧ ((a <= 1800000)%Q → (b <= 1800000)%Q → (b < a)%Q →
     validateLockIntervals (Num a) (Num b)
     = Validation false (Some (MinGreaterThanMax (Num a) (Num b)))).
Proof.
  assert (Hgt : ∀ x, jsgt (Num x) MAX_INTERVAL_MS = true ↔ (1800000 < x)%Q).
  { intros x. change MAX_INTERVAL_MS with (Num (30 * 60 * 1000)).
    rewrite jsgt_Num_true. split; intros H; lra. }
  assert (Hle : ∀ x, jsgt (Num x) MAX_INTERVAL_MS = false ↔ (x <= 1800000)%Q).
  { intros x. change MAX_INTERVAL_MS with (Num (30 * 60 * 1000)).
    rewrite jsgt_Num_false. split; intros H; lra. }
  unfold validateLockIntervals. repeat split.
  - intros Hab Hb.
    assert (Ha : (a <= 1800000)%Q) by lra.
    apply Hle in Ha, Hb. rewrite Ha, Hb.
    apply jsgt_Num_false in Hab. by rewrite Hab.
  - intros Ha. apply Hgt in Ha. by rewrite Ha.
  - intros Ha Hb. apply Hle in Ha. apply Hgt in Hb. by rewrite Ha, Hb.
  - intros Ha Hb Hab. apply Hle in Ha, Hb. rewrite Ha, Hb.
    apply jsgt_Num_true in Hab. by rewrite Hab.
Qed.

Lemma validateLockIntervals_spec_witness :
  validateLockIntervals (Num 600000) (Num 1200000) = Validation true None
  ∧ validateLockIntervals (Num 1800001) (Num 5) = Validation false (Some MinExceedsLimit)
  ∧ validateLockIntervals (Num 5) (Num 1800001) = Validation false (Some MaxExceedsLimit)
  ∧ validateLockIntervals (Num 7) (Num 5)
    = Validation false (Some (MinGreaterThanMax (Num 7) (Num 5))).
Proof.
  split; [|split; [|split]].
  - apply (validateLockIntervals_spec 600000 1200000); unfold Qle; simpl; lia.
  - apply (validateLockIntervals_spec 1800001 5); unfold Qlt; simpl; lia.
  - apply (validateLockIntervals_spec 5 1800001); unfold Qle, Qlt; simpl; lia.
  - apply (validateLockIntervals_spec 7 5); unfold Qle, Qlt; simpl; lia.
Defined.

(** C6: for [min < max] and [Math.random()] in [0, 1), the interval drawn
    lies in [[min, max]]; for [min = max] it is that value, and the random
    source is not consulted (the world is unchanged). *)
Theorem getRandomLockInterval_range (a b : Q) (w : world) :
  ((a < b)%Q → (0 <= env_random (env w) (ticks w) < 1)%Q →
     ∃ v, (getRandomLockInterval (Num a) (Num b) w).1 = Resolved (Num v)
          ∧ (a <= v <= b)%Q)
  ∧ ((a == b)%Q → getRandomLockInterval (Num a) (Num b) w = (Resolved (Num a), w)).
Proof.
  unfold getRandomLockInterval, js_strict_eq. split.
  - intros Hab [Hr0 Hr1].
    destruct (Qeq_bool a b) eqn:E.
    { apply Qeq_bool_iff in E. lra. }
    eexists. split; [reflexivity|]. cbn -[Qmult Qplus Qminus Qle].
    set (r := env_random (env w) (ticks w)) in *.
    split; nra.
  - intros Hab. apply Qeq_bool_iff in Hab. by rewrite Hab.
Qed.

Lemma getRandomLockInterval_range_witness :
  let w := initial (Config None None None None) None
             (MkEnv (λ _, true) (λ _, None) (λ _, 1 # 2)%Q (λ _, 0%Z) (λ _, None) (λ _, None)) in
  (∃ v, (getRandomLockInterval (Num 600000) (Num 1200000) w).1 = Resolved (Num v)
        ∧ (600000 <= v <= 1200000)%Q)
  ∧ getRandomLockInterval (Num 600000) (Num 600000) w = (Resolved (Num 600000), w).
Proof.
  intros w. split.
  - apply (getRandomLockInterval_range 600000 1200000 w).
    + unfold Qlt; simpl; lia.
    + simpl. split; [unfold Qle | unfold Qlt]; simpl; lia.
  - apply (getRandomLockInterval_range 600000 600000 w). reflexivity.
Defined.

(** ** Duration parsing *)

Section Scanning.
Context (p : N → bool).

Lemma take_while_app (xs ys : jsstring) :
  Forall (λ c, p c = true) xs → take_while p (xs ++ ys) = xs ++ take_while p ys.
Proof.
  induction 1 as [|c xs Hc _ IH]; simpl; [done|]. by rewrite Hc, IH.
Qed.

Lemma drop_while_app (xs ys : jsstring) :
  Forall (λ c, p c = true) xs → drop_while p (xs ++ ys) = drop_while p ys.
Proof.
  induction 1 as [|c xs Hc _ IH]; simpl; [done|]. by rewrite Hc.
Qed.

Lemma take_while_all (xs : jsstring) :
  Forall (λ c, p c = true) xs → take_while p xs = xs.
Proof.
  intros H. rewrite <- (app_nil_r xs) at 1.
  rewrite take_while_app by done. simpl. by rewrite app_nil_r.
Qed.

Lemma drop_while_all (xs : jsstring) :
  Forall (λ c, p c = true) xs → drop_while p xs = [].
Proof.
  intros H. rewrite <- (app_nil_r xs). by rewrite drop_while_app.
Qed.

Lemma take_while_Forall (xs : jsstring) :
  Forall (λ c, p c = true) (take_while p xs).
Proof.
  induction xs as [|c xs IH]; simpl; [constructor|].
  destruct (p c) eqn:E; constructor; done.
Qed.

Lemma take_drop_while (xs : jsstring) :
  take_while p xs ++ drop_while p xs = xs.
Proof.
  induction xs as [|c xs IH]; simpl; [done|].
  destruct (p c); simpl; [by rewrite IH | done].
Qed.
End Scanning.

Lemma Forall_digit_or_dot (ds : jsstring) :
  Forall (λ c, is_digit c = true) ds → Forall (λ c, is_digit_or_dot c = true) ds.
Proof.
  intros Hds. eapply Forall_impl; [exact Hds|].
  intros c H. unfold is_digit_or_dot. by rewrite H.
Qed.

Lemma unit_letter_not_digit_or_dot (c : N) :
  is_unit_letter c = true → is_digit_or_dot c = false.
Proof.
  unfold is_unit_letter, is_digit_or_dot, is_digit, DOT.
  rewrite !orb_true_iff, !N.eqb_eq.
  intros H; decompose [or] H; subst; reflexivity.
Qed.

Lemma unit_letter_not_whitespace (c : N) :
  is_unit_letter c = true → is_js_whitespace c = false.
Proof.
  unfold is_unit_letter. rewrite !orb_true_iff, !N.eqb_eq.
  intros H; decompose [or] H; subst; reflexivity.
Qed.

Lemma digit_or_dot_not_whitespace (c : N) :
  is_digit_or_dot c = true → is_js_whitespace c = false.
Proof.
  unfold is_digit_or_dot, is_digit, DOT, is_js_whitespace.
  rewrite orb_true_iff, andb_true_iff, !N.leb_le, N.eqb_eq. intros H.
  repeat (apply orb_false_intro);
    try (apply N.eqb_neq; lia); try (apply andb_false_iff; rewrite !N.leb_gt; lia).
Qed.

(** Blanks around a text that neither starts nor ends with a blank are
    what [trim] removes. *)
Lemma trim_padded (ws1 ws2 g : jsstring) (c : N) :
  Forall (λ c, is_js_whitespace c = true) ws1 →
  Forall (λ c, is_js_whitespace c = true) ws2 →
  Forall (λ c, is_js_whitespace c = false) g →
  is_js_whitespace c = false →
  trim (ws1 ++ g ++ c :: ws2) = g ++ [c].
Proof.
  intros H1 H2 Hg Hc. unfold trim, trimEnd, trimStart.
  rewrite drop_while_app by done.
  assert (Hd : drop_while is_js_whitespace (g ++ c :: ws2) = g ++ c :: ws2).
  { destruct Hg as [|a g Ha _]; simpl; [by rewrite Hc | by rewrite Ha]. }
  rewrite Hd.
  replace (g ++ c :: ws2) with ((g ++ [c]) ++ ws2) by (by rewrite <- app_assoc).
  rewrite reverse_app, drop_while_app by (by apply Forall_reverse).
  rewrite reverse_app. simpl. rewrite Hc.
  change (c :: reverse g) with ([c] ++ reverse g).
  rewrite reverse_app, reverse_involutive. done.
Qed.

(** The pattern accepts every non-empty text over digits and dots that
    is followed by one unit letter, and captures the two parts. *)
Lemma match_duration_accepts (g : jsstring) (c : N) :
  g ≠ [] → Forall (λ c, is_digit_or_dot c = true) g → is_unit_letter c = true →
  match_duration (g ++ [c]) = Some (g, c).
Proof.
  intros Hne Hg Hc. unfold match_duration.
  rewrite take_while_app, drop_while_app by done. simpl.
  rewrite (unit_letter_not_digit_or_dot c Hc), app_nil_r, Hc.
  destruct g; [done | reflexivity].
Qed.

(** Conversely, a match splits the text in that way. *)
Lemma match_duration_sound (s g : jsstring) (c : N) :
  match_duration s = Some (g, c) →
  s = g ++ [c] ∧ g ≠ [] ∧ Forall (λ c, is_digit_or_dot c = true) g
  ∧ is_unit_letter c = true.
Proof.
  unfold match_duration. intros H.
  pose proof (take_drop_while is_digit_or_dot s) as Hs.
  pose proof (take_while_Forall is_digit_or_dot s) as Hf.
  destruct (take_while is_digit_or_dot s) as [|a g'] eqn:Et; [done|].
  destruct (drop_while is_digit_or_dot s) as [|l [|? ?]] eqn:Ed; try done.
  destruct (is_unit_letter l) eqn:El; [|done].
  injection H as <- <-. done.
Qed.

Lemma parseFloat_integer (ip : jsstring) :
  Forall (λ c, is_digit c = true) ip → ip ≠ [] →
  parseFloat ip = Num (decimal_value ip []).
Proof.
  intros Hip Hne. unfold parseFloat.
  rewrite take_while_all, drop_while_all by done. by destruct ip.
Qed.

(** After the fraction digits, [parseFloat] ignores whatever follows a
    character that is no digit. *)
Lemma parseFloat_fraction (ip fp rest : jsstring) :
  Forall (λ c, is_digit c = true) ip → Forall (λ c, is_digit c = true) fp →
  ip ≠ [] ∨ fp ≠ [] →
  match rest with [] => True | c :: _ => is_digit c = false end →
  parseFloat (ip ++ DOT :: fp ++ rest) = Num (decimal_value ip fp).
Proof.
  intros Hip Hfp Hne Hrest. unfold parseFloat.
  rewrite take_while_app, drop_while_app by done. simpl.
  rewrite take_while_app by done.
  assert (Hr : take_while is_digit rest = []).
  { destruct rest as [|c r]; simpl; [done | by rewrite Hrest]. }
  rewrite Hr, !app_nil_r.
  destruct ip, fp; simpl; try done. by destruct Hne.
Qed.

Lemma parseFloat_dots (n : nat) : parseFloat (replicate (S n) DOT) = NaN.
Proof. destruct n; reflexivity. Qed.

Lemma parseFloat_literal (ip : jsstring) (fp : option jsstring) :
  Forall (λ c, is_digit c = true) ip →
  Forall (λ c, is_digit c = true) (default [] fp) →
  ip ≠ [] ∨ default [] fp ≠ [] →
  parseFloat (literal ip fp) = Num (decimal_value ip (default [] fp)).
Proof.
  intros Hip Hfp Hne. unfold literal. destruct fp as [fp|]; simpl in *.
  - rewrite <- (app_nil_r fp) at 1. by apply parseFloat_fraction.
  - rewrite app_nil_r. apply parseFloat_integer; [done|]. by destruct Hne.
Qed.

Lemma literal_digit_or_dot (ip : jsstring) (fp : option jsstring) :
  Forall (λ c, is_digit c = true) ip →
  Forall (λ c, is_digit c = true) (default [] fp) →
  Forall (λ c, is_digit_or_dot c = true) (literal ip fp).
Proof.
  intros Hip Hfp. unfold literal. apply Forall_app. split.
  - by apply Forall_digit_or_dot.
  - destruct fp as [fp|]; simpl in *; [|constructor].
    constructor; [reflexivity | by apply Forall_digit_or_dot].
Qed.

(** On a string that matches the pattern, [parseDuration] logs nothing
    and scales what [parseFloat] makes of the first group. *)
Lemma parseDuration_matched (s g : jsstring) (c : N) (w : world) :
  match_duration (trim s) = Some (g, c) →
  ∃ v, parseDuration s w = (Resolved v, w)
       ∧ jsnum_equiv v (jsmul (parseFloat g) (Num (unit_factor c))).
Proof.
  intros Hm. unfold parseDuration. rewrite Hm.
  apply match_duration_sound in Hm as (_ & _ & _ & Hc).
  unfold is_unit_letter in Hc. rewrite !orb_true_iff, !N.eqb_eq in Hc.
  decompose [or] Hc; subst c; cbn -[parseFloat jsmul ofZ];
    (eexists; split; [reflexivity|]);
    destruct (parseFloat g) as [q|]; cbn; try done;
    unfold inject_Z; ring.
Qed.

(** The part of C5 that the code meets: a decimal number [n] followed by
    a unit letter, blanks around it allowed, parses to [n] times the
    factor of the unit, and nothing is logged. *)
Lemma parseDuration_well_formed
    (ws1 ws2 ip : jsstring) (fp : option jsstring) (c : N) (w : world) :
  Forall (λ c, is_js_whitespace c = true) ws1 →
  Forall (λ c, is_js_whitespace c = true) ws2 →
  Forall (λ c, is_digit c = true) ip →
  Forall (λ c, is_digit c = true) (default [] fp) →
  ip ≠ [] ∨ default [] fp ≠ [] →
  is_unit_letter c = true →
  ∃ q, parseDuration (ws1 ++ literal ip fp ++ c :: ws2) w = (Resolved (Num q), w)
       ∧ (q == decimal_value ip (default [] fp) * unit_factor c)%Q.
Proof.
  intros Hws1 Hws2 Hip Hfp Hne Hc.
  pose proof (literal_digit_or_dot ip fp Hip Hfp) as Hlit.
  destruct (parseDuration_matched (ws1 ++ literal ip fp ++ c :: ws2)
              (literal ip fp) c w) as (v & Hv & Heq).
  - rewrite trim_padded; try done.
    + apply match_duration_accepts; [|done..].
      unfold literal. destruct Hne as [Hne|Hne]; [by destruct ip|].
      destruct fp; [by destruct ip | done].
    + eapply Forall_impl; [exact Hlit|]. apply digit_or_dot_not_whitespace.
    + by apply unit_letter_not_whitespace.
  - rewrite parseFloat_literal in Heq by done.
    destruct v as [q|]; [|done]. by exists q.
Qed.

Lemma parseDuration_well_formed_witness :
  let w := initial (Config None None None None) None
             (MkEnv (λ _, true) (λ _, None) (λ _, 0%Q) (λ _, 0%Z) (λ _, None) (λ _, None)) in
  ∃ q, parseDuration (u " 1.5H ") w = (Resolved (Num q), w) ∧ (q == 5400000)%Q.
Proof.
  intros w.
  destruct (parseDuration_well_formed (u " ") (u " ") (u "1") (Some (u "5")) 72 w)
    as (q & Hq & Hv).
  - repeat constructor.
  - repeat constructor.
  - repeat constructor.
  - repeat constructor.
  - left. discriminate.
  - reflexivity.
  - exists q. split; [exact Hq|]. rewrite Hv. reflexivity.
Defined.

Lemma parseDuration_same_number (s1 s2 g1 g2 : jsstring) (c : N) (w : world) :
  match_duration (trim s1) = Some (g1, c) →
  match_duration (trim s2) = Some (g2, c) →
  parseFloat g1 = parseFloat g2 →
  parseDuration s1 w = parseDuration s2 w.
Proof.
  intros H1 H2 Hg. unfold parseDuration. by rewrite H1, H2, Hg.
Qed.

Lemma match_duration_unpadded (g : jsstring) (c : N) :
  g ≠ [] → Forall (λ c, is_digit_or_dot c = true) g → is_unit_letter c = true →
  match_duration (trim (g ++ [c])) = Some (g, c).
Proof.
  intros Hne Hg Hc.
  change (g ++ [c]) with ([] ++ g ++ [c]) at 1.
  rewrite (trim_padded [] [] g c); try done.
  - by apply match_duration_accepts.
  - eapply Forall_impl; [exact Hg|]. apply digit_or_dot_not_whitespace.
  - by apply unit_letter_not_whitespace.
Qed.

(** C10: the pattern lets through numeric parts that are no decimal
    numbers.  [".h"] and ["10.5.5m"] both match; the first parses to
    [NaN], the second to the value of ["10.5m"] (630 000 ms), neither to
    the one-hour fallback, and in both cases nothing is logged.  In
    general a numeric part made of dots only gives [NaN], and whatever
    follows a second dot is dropped. *)
Theorem parseDuration_loose_numeric_part (w : world) :
  match_duration (trim (u ".h")) = Some (u ".", 104)
  ∧ match_duration (trim (u "10.5.5m")) = Some (u "10.5.5", 109)
  ∧ is_decimal_literal (u ".") = false
  ∧ is_decimal_literal (u "10.5.5") = false
  ∧ parseDuration (u ".h") w = (Resolved NaN, w)
  ∧ (∃ q, parseDuration (u "10.5.5m") w = (Resolved (Num q), w)
          ∧ (q == 630000)%Q ∧ ¬ jsnum_equiv (Num q) ONE_HOUR)
  ∧ parseDuration (u "10.5.5m") w = parseDuration (u "10.5m") w
  ∧ (∀ (n : nat) (c : N), is_unit_letter c = true →
       parseDuration (replicate (S n) DOT ++ [c]) w = (Resolved NaN, w))
  ∧ (∀ (ip fp rest : jsstring) (c : N),
       Forall (λ c, is_digit c = true) ip → Forall (λ c, is_digit c = true) fp →
       ip ≠ [] ∨ fp ≠ [] →
       Forall (λ c, is_digit_or_dot c = true) rest →
       is_unit_letter c = true →
       parseDuration (ip ++ DOT :: fp ++ DOT :: rest ++ [c]) w
       = parseDuration (ip ++ DOT :: fp ++ [c]) w).
Proof.
  split; [reflexivity|]. split; [reflexivity|].
  split; [reflexivity|]. split; [reflexivity|].
  split; [reflexivity|].
  split.
  { eexists. split; [reflexivity|]. split; [reflexivity|]. cbn. intros H. discriminate H. }
  split; [reflexivity|].
  split.
  - intros n c Hc.
    destruct (parseDuration_matched (replicate (S n) DOT ++ [c]) (replicate (S n) DOT) c w)
      as (v & Hv & Heq).
    + apply match_duration_unpadded; [done| |done].
      apply Forall_replicate. reflexivity.
    + rewrite parseFloat_dots in Heq. by destruct v.
  - intros ip fp rest c Hip Hfp Hne Hrest Hc.
    assert (Hlit : Forall (λ c, is_digit_or_dot c = true) (ip ++ DOT :: fp)).
    { apply (literal_digit_or_dot ip (Some fp)); done. }
    apply (parseDuration_same_number _ _ (ip ++ DOT :: fp ++ DOT :: rest) (ip ++ DOT :: fp) c).
    + replace (ip ++ DOT :: fp ++ DOT :: rest ++ [c])
        with ((ip ++ DOT :: fp ++ DOT :: rest) ++ [c])
        by (rewrite <- !app_assoc; simpl; rewrite <- !app_assoc; done).
      apply match_duration_unpadded; [by destruct ip| |done].
      replace (ip ++ DOT :: fp ++ DOT :: rest)
        with ((ip ++ DOT :: fp) ++ DOT :: rest)
        by (rewrite <- !app_assoc; done).
      apply Forall_app. split; [done|]. by constructor.
    + replace (ip ++ DOT :: fp ++ [c]) with ((ip ++ DOT :: fp) ++ [c])
        by (rewrite <- !app_assoc; done).
      apply match_duration_unpadded; [by destruct ip|done|done].
    + rewrite (parseFloat_fraction ip fp (DOT :: rest)) by done.
      rewrite <- (app_nil_r fp) at 2.
      by rewrite (parseFloat_fraction ip fp []).
Qed.

Lemma parseDuration_loose_numeric_part_witness :
  let w := initial (Config None None None None) None
             (MkEnv (λ _, true) (λ _, None) (λ _, 0%Q) (λ _, 0%Z) (λ _, None) (λ _, None)) in
  parseDuration (u "...s") w = (Resolved NaN, w)
  ∧ parseDuration (u "1.2.3s") w = parseDuration (u "1.2s") w.
Proof.
  intros w.
  destruct (parseDuration_loose_numeric_part w) as (_ & _ & _ & _ & _ & _ & _ & Hdots & Hcut).
  split.
  - apply (Hdots 2%nat 115). reflexivity.
  - apply (Hcut (u "1") (u "2") (u "3") 115).
    + repeat constructor.
    + repeat constructor.
    + left. discriminate.
    + repeat constructor.
    + reflexivity.
Defined.

(** C5, at an input the code gets wrong: [".h"] is not a number followed
    by a unit, yet [parseDuration] answers [NaN] instead of the one-hour
    fallback and logs no error; a string the pattern rejects, such as
    ["abc"], does get the fallback and the error. *)
Theorem parseDuration_dot_not_rejected (w : world) :
  is_duration_form (u ".h") = false
  ∧ (parseDuration (u ".h") w).1 = Resolved NaN
  ∧ ¬ jsnum_equiv NaN ONE_HOUR
  ∧ trace (parseDuration (u ".h") w).2 = trace w
  ∧ is_duration_form (u "abc") = false
  ∧ (parseDuration (u "abc") w).1 = Resolved ONE_HOUR
  ∧ trace (parseDuration (u "abc") w).2
    = trace w ++ [LogError (InvalidDurationFormat (u "abc"))].
Proof.
  repeat split; try reflexivity. intros H. exact H.
Qed.

(** ** Device enumeration *)

Lemma starts_with_spec (p s : jsstring) :
  starts_with p s = true ↔ ∃ r, s = p ++ r.
Proof.
  revert s. induction p as [|a p IH]; intros s; simpl.
  - split; [by exists s | done].
  - destruct s as [|b s].
    + split; [done | by intros [r Hr]].
    + rewrite andb_true_iff, N.eqb_eq, IH. split.
      * intros [-> [r ->]]. by exists r.
      * intros [r Hr]. injection Hr as -> ->. split; [done | by exists r].
Qed.

Lemma includes_spec (line marker : jsstring) :
  includes line marker = true ↔ contains line marker.
Proof.
  unfold contains. induction line as [|c line IH]; simpl.
  - rewrite orb_false_r, starts_with_spec. split.
    + intros [r Hr]. by exists [], r.
    + intros (pre & post & H). symmetry in H.
      apply app_eq_nil in H as [-> H]. apply app_eq_nil in H as [-> ->]. by exists [].
  - rewrite orb_true_iff, starts_with_spec, IH. split.
    + intros [[r Hr] | (pre & post & Hr)].
      * by exists [], r.
      * exists (c :: pre), post. by rewrite Hr.
    + intros (pre & post & H). destruct pre as [|a pre].
      * left. by exists post.
      * right. injection H as -> ->. by exists pre, post.
Qed.

Lemma take_while_digit_token (ds post : jsstring) :
  Forall (λ c, is_digit c = true) ds →
  match post with [] => True | c :: _ => is_digit c = false end →
  take_while is_digit (ds ++ post) = ds.
Proof.
  intros Hds Hpost. rewrite take_while_app by done.
  destruct post as [|c post]; simpl; [|rewrite Hpost]; by rewrite app_nil_r.
Qed.

Lemma drop_while_head (p : N → bool) (s : jsstring) :
  match drop_while p s with [] => True | c :: _ => p c = false end.
Proof.
  induction s as [|c s IH]; simpl; [done|]. by destruct (p c) eqn:E.
Qed.

(** A token at the very start of the line is what the first attempt of
    the search finds. *)
Lemma id_token_here (rest ds post : jsstring) :
  id_token (u "id=" ++ rest) [] ds post → take_while is_digit rest = ds.
Proof.
  intros (Heq & _ & Hds & Hpost). simpl in Heq.
  injection Heq as ->. by apply take_while_digit_token.
Qed.

Lemma id_token_cons (c : N) (line pre ds post : jsstring) :
  id_token line pre ds post → id_token (c :: line) (c :: pre) ds post.
Proof. intros (-> & H). split; [done | exact H]. Qed.

Lemma id_token_uncons (c a : N) (line pre ds post : jsstring) :
  id_token (c :: line) (a :: pre) ds post → id_token line pre ds post.
Proof. intros (Heq & H). injection Heq as -> ->. split; [done | exact H]. Qed.

(** The search returns the digits of the leftmost token. *)
Lemma match_id_first (line ds : jsstring) :
  match_id line = Some ds →
  ∃ pre post, id_token line pre ds post
    ∧ ∀ pre' ds' post', id_token line pre' ds' post' → (length pre ≤ length pre')%nat.
Proof.
  revert ds. induction line as [|c line IH]; intros ds; [done|].
  assert (Hrec : match_id line = Some ds →
                 (∀ ds' post', ¬ id_token (c :: line) [] ds' post') →
                 ∃ pre post, id_token (c :: line) pre ds post
                   ∧ ∀ pre' ds' post', id_token (c :: line) pre' ds' post' →
                       (length pre ≤ length pre')%nat).
  { intros Hm Hno. destruct (IH ds Hm) as (pre & post & Htok & Hmin).
    exists (c :: pre), post. split; [by apply id_token_cons|].
    intros [|a pre'] ds' post' Htok'; [by destruct (Hno ds' post')|].
    simpl. apply le_n_S. apply (Hmin pre' ds' post').
    by apply (id_token_uncons c a). }
  cbn [match_id].
  destruct (starts_with (u "id=") (c :: line)) eqn:Hs.
  - apply starts_with_spec in Hs as [rest Hrest]. rewrite Hrest.
    change (drop 3 (u "id=" ++ rest)) with rest.
    destruct (take_while is_digit rest) as [|d ds0] eqn:Et.
    + intros Hm. rewrite <- Hrest. apply Hrec; [done|].
      intros ds' post' Htok. rewrite Hrest in Htok.
      pose proof (id_token_here _ _ _ Htok) as Hd.
      destruct Htok as (_ & Hne & _). rewrite Et in Hd. by subst ds'.
    + intros Hm. injection Hm as <-.
      exists [], (drop_while is_digit rest). split.
      * split; [|split; [done|split]].
        -- rewrite <- Et, take_drop_while. done.
        -- rewrite <- Et. apply take_while_Forall.
        -- apply drop_while_head.
      * intros. simpl. lia.
  - intros Hm. apply Hrec; [done|].
    intros ds' post' (Heq & _). simpl in Heq.
    assert (starts_with (u "id=") (c :: line) = true); [|congruence].
    apply starts_with_spec. exists (ds' ++ post'). by rewrite Heq.
Qed.

Lemma match_id_complete (line pre ds post : jsstring) :
  id_token line pre ds post → is_Some (match_id line).
Proof.
  revert line. induction pre as [|a pre IH]; intros line Htok.
  - destruct Htok as (-> & Hne & Hds & Hpost).
    change ([] ++ u "id=" ++ ds ++ post) with (105 :: 100 :: 61 :: ds ++ post).
    cbn [match_id].
    assert (Hs : starts_with (u "id=") (105 :: 100 :: 61 :: ds ++ post) = true).
    { apply starts_with_spec. by exists (ds ++ post). }
    rewrite Hs. change (drop 3 (105 :: 100 :: 61 :: ds ++ post)) with (ds ++ post).
    rewrite take_while_digit_token by done.
    destruct ds; [done | by eexists].
  - destruct line as [|c line]; [by destruct Htok|].
    apply id_token_uncons, IH in Htok.
    cbn [match_id]. destruct (starts_with _ _); [|done].
    by destruct (take_while _ _).
Qed.

(** Two tokens that start at the same place are the same token. *)
Lemma id_token_same_start (line pre ds post pre' ds' post' : jsstring) :
  id_token line pre ds post → id_token line pre' ds' post' →
  length pre = length pre' → ds = ds'.
Proof.
  intros (Heq & _ & Hds & Hpost) (Heq' & _ & Hds' & Hpost') Hlen.
  rewrite Heq in Heq'. apply app_inj_1 in Heq' as [_ Heq']; [|done].
  apply app_inv_head in Heq'.
  rewrite <- (take_while_digit_token ds post), <- (take_while_digit_token ds' post');
    by rewrite ?Heq'.
Qed.

Lemma match_id_first_id (line : jsstring) (id : N) :
  parseInt <$> match_id line = Some id ↔ first_id line id.
Proof.
  unfold first_id. split.
  - destruct (match_id line) as [ds|] eqn:Hm; [|done]. intros [= <-].
    destruct (match_id_first line ds Hm) as (pre & post & Htok & Hmin).
    by exists pre, ds, post.
  - intros (pre & ds & post & Htok & -> & Hmin).
    destruct (match_id_complete _ _ _ _ Htok) as [ds0 Hm]. rewrite Hm. simpl.
    destruct (match_id_first line ds0 Hm) as (pre0 & post0 & Htok0 & Hmin0).
    f_equal. f_equal. apply (id_token_same_start line pre0 ds0 post0 pre ds post); try done.
    apply Nat.le_antisymm; eauto.
Qed.

Lemma keyboard_loop_omap (lines : list jsstring) (keyboardIds : list N) :
  keyboard_loop lines keyboardIds = keyboardIds ++ omap keyboard_candidate lines.
Proof.
  revert keyboardIds. induction lines as [|line lines IH]; intros acc; simpl.
  - by rewrite app_nil_r.
  - unfold keyboard_candidate at 1.
    destruct (_ && _); [|apply IH].
    destruct (match_id line); simpl; rewrite IH; [|done].
    by rewrite <- app_assoc.
Qed.

Lemma mouse_loop_omap (lines : list jsstring) (mouseIds : list N) :
  mouse_loop lines mouseIds = mouseIds ++ omap mouse_candidate lines.
Proof.
  revert mouseIds. induction lines as [|line lines IH]; intros acc; simpl.
  - by rewrite app_nil_r.
  - unfold mouse_candidate at 1.
    destruct (_ && _); [|apply IH].
    destruct (match_id line); simpl; rewrite IH; [|done].
    by rewrite <- app_assoc.
Qed.

Lemma keyboard_candidate_spec (line : jsstring) (id : N) :
  keyboard_candidate line = Some id ↔
  contains line (u "slave  keyboard") ∧ contains line (u "wired keyboard")
  ∧ first_id line id.
Proof.
  unfold keyboard_candidate.
  rewrite <- !includes_spec, <- match_id_first_id.
  destruct (includes line (u "slave  keyboard")), (includes line (u "wired keyboard"));
    simpl; intuition congruence.
Qed.

Lemma mouse_candidate_spec (line : jsstring) (id : N) :
  mouse_candidate line = Some id ↔
  contains line (u "slave  pointer")
  ∧ (contains line (u "Mouse") ∨ contains line (u "mouse"))
  ∧ first_id line id.
Proof.
  unfold mouse_candidate.
  rewrite <- !includes_spec, <- match_id_first_id.
  destruct (includes line (u "slave  pointer")), (includes line (u "Mouse")),
    (includes line (u "mouse")); simpl; intuition congruence.
Qed.

Lemma getKeyboardIds_dry (w : world) :
  default false (dryRun (configuration w)) = true →
  (getKeyboardIds w).1 = Resolved [10].
Proof.
  intros Hd. unfold getKeyboardIds, try_catch, bind, execAndWaitForOutput, isDryRun,
    bind, gets, ret. cbn -[MOCK_XINPUT_LIST split_lines keyboard_loop]. rewrite Hd.
  vm_compute. reflexivity.
Qed.

Lemma getMouseIds_dry (w : world) :
  default false (dryRun (configuration w)) = true →
  (getMouseIds w).1 = Resolved [9].
Proof.
  intros Hd. unfold getMouseIds, try_catch, bind, execAndWaitForOutput, isDryRun,
    bind, gets, ret. cbn -[MOCK_XINPUT_LIST split_lines mouse_loop]. rewrite Hd.
  vm_compute. reflexivity.
Qed.

Lemma getKeyboardIds_real (w : world) (output : jsstring) :
  default false (dryRun (configuration w)) = false →
  env_stdout (env w) (ticks w) = Some output →
  (getKeyboardIds w).1 = Resolved (omap keyboard_candidate (split_lines output)).
Proof.
  intros Hd Hout. unfold getKeyboardIds, try_catch, bind, execAndWaitForOutput, isDryRun,
    bind, gets, ret, consult, emit, modify.
  cbn -[split_lines keyboard_loop]. rewrite Hd.
  cbn -[split_lines keyboard_loop]. rewrite Hout.
  cbn -[split_lines keyboard_loop]. by rewrite keyboard_loop_omap.
Qed.

Lemma getMouseIds_real (w : world) (output : jsstring) :
  default false (dryRun (configuration w)) = false →
  env_stdout (env w) (ticks w) = Some output →
  (getMouseIds w).1 = Resolved (omap mouse_candidate (split_lines output)).
Proof.
  intros Hd Hout. unfold getMouseIds, try_catch, bind, execAndWaitForOutput, isDryRun,
    bind, gets, ret, consult, emit, modify.
  cbn -[split_lines mouse_loop]. rewrite Hd.
  cbn -[split_lines mouse_loop]. rewrite Hout.
  cbn -[split_lines mouse_loop]. by rewrite mouse_loop_omap.
Qed.

(** What the two listings do: the ids come out in the order of the
    lines; a line gives a keyboard id exactly when it has the markers
    ["slave  keyboard"] and ["wired keyboard"] and an [id=<digits>] token,
    a mouse id exactly when it has ["slave  pointer"], one of the spellings
    ["Mouse"] and ["mouse"], and such a token; the id is read off the
    leftmost token.  On the dry-run listing the keyboards are [[10]] and
    the mice [[9]]. *)
Lemma device_classification :
  (∀ output, keyboard_loop (split_lines output) []
             = omap keyboard_candidate (split_lines output))
  ∧ (∀ output, mouse_loop (split_lines output) []
               = omap mouse_candidate (split_lines output))
  ∧ (∀ line id, keyboard_candidate line = Some id ↔
       contains line (u "slave  keyboard") ∧ contains line (u "wired keyboard")
       ∧ first_id line id)
  ∧ (∀ line id, mouse_candidate line = Some id ↔
       contains line (u "slave  pointer")
       ∧ (contains line (u "Mouse") ∨ contains line (u "mouse"))
       ∧ first_id line id)
  ∧ (∀ w output, default false (dryRun (configuration w)) = false →
       env_stdout (env w) (ticks w) = Some output →
       (getKeyboardIds w).1 = Resolved (omap keyboard_candidate (split_lines output))
       ∧ (getMouseIds w).1 = Resolved (omap mouse_candidate (split_lines output)))
  ∧ (∀ w, default false (dryRun (configuration w)) = true →
       (getKeyboardIds w).1 = Resolved [10] ∧ (getMouseIds w).1 = Resolved [9]).
Proof.
  split; [intros; apply keyboard_loop_omap|].
  split; [intros; apply mouse_loop_omap|].
  split; [apply keyboard_candidate_spec|].
  split; [apply mouse_candidate_spec|].
  split.
  - intros w output Hd Hout. split.
    + by apply getKeyboardIds_real.
    + by apply getMouseIds_real.
  - intros w Hd. split.
    + by apply getKeyboardIds_dry.
    + by apply getMouseIds_dry.
Qed.

Lemma device_classification_witness :
  let e := MkEnv (λ _, true) (λ _, Some (u "x wired keyboard id=12 [slave  keyboard (3)]"))
             (λ _, 0%Q) (λ _, 0%Z) (λ _, None) (λ _, None) in
  ((getKeyboardIds (initial (Config (Some false) None None None) None e)).1 = Resolved [12]
   ∧ (getMouseIds (initial (Config (Some false) None None None) None e)).1 = Resolved [])
  ∧ ((getKeyboardIds (initial (Config (Some true) None None None) None e)).1 = Resolved [10]
     ∧ (getMouseIds (initial (Config (Some true) None None None) None e)).1 = Resolved [9]).
Proof.
  intros e.
  destruct device_classification as (_ & _ & _ & _ & Hreal & Hdry).
  split.
  - apply (Hreal (initial (Config (Some false) None None None) None e)
             (u "x wired keyboard id=12 [slave  keyboard (3)]")); reflexivity.
  - apply (Hdry (initial (Config (Some true) None None None) None e)). reflexivity.
Defined.

(** C7: the code misses a mouse whose name spells the marker in another
    capitalisation.  The line of a slave pointer named ["Logitech USB
    MOUSE"], with id 9, has the pointer marker, the mouse marker up to
    case and an id token; [getMouseIds] tests the two spellings ["Mouse"]
    and ["mouse"] only and returns no id for a listing of that line,
    where the same line with the name spelt ["Mouse"] gives [[9]]. *)
Theorem mouse_marker_is_case_sensitive :
  let line := u "Logitech USB MOUSE" ++ [9] ++ u "id=9" ++ [9] ++ u "[slave  pointer  (2)]" in
  let line' := u "Logitech USB Mouse" ++ [9] ++ u "id=9" ++ [9] ++ u "[slave  pointer  (2)]" in
  let listing (l : jsstring) :=
    initial (Config None None None None) None
      (MkEnv (λ _, true) (λ _, Some l) (λ _, 0%Q) (λ _, 0%Z) (λ _, None) (λ _, None)) in
  includes line (u "slave  pointer") = true
  ∧ includes_ci line (u "mouse") = true
  ∧ match_id line = Some (u "9")
  ∧ mouse_loop (split_lines line) [] = []
  ∧ (getMouseIds (listing line)).1 = Resolved []
  ∧ (getMouseIds (listing line')).1 = Resolved [9].
Proof. vm_compute. done. Qed.

(** Two more lines, on the id token: with
    both markers and no id token nothing is counted, and of two id tokens
    the first, not the last, is taken. *)
Example keyboard_line_without_id :
  keyboard_loop (split_lines (u "wired keyboard [slave  keyboard (3)]")) [] = [].
Proof. reflexivity. Qed.

Example mouse_line_with_two_ids :
  mouse_loop (split_lines (u "pad id=7 mouse id=9 [slave  pointer  (2)]")) [] = [7].
Proof. reflexivity. Qed.

(** ** Invariants of computations *)

Section Keeps.
Context (I : world → Prop).

Lemma keeps_ret {A} (a : A) : keeps I (ret a).
Proof. by intros w. Qed.

Lemma keeps_reject {A} : keeps I (@reject A).
Proof. by intros w. Qed.

Lemma keeps_gets {A} (f : world → A) : keeps I (gets f).
Proof. by intros w. Qed.

Lemma keeps_modify (f : world → world) :
  (∀ w, I w → I (f w)) → keeps I (modify f).
Proof. intros H w. apply H. Qed.

Lemma keeps_consult {A} (f : Env → nat → A) :
  (∀ w, I w → I (set_ticks (S (ticks w)) w)) → keeps I (consult f).
Proof. intros H w. apply H. Qed.

Lemma keeps_bind {A B} (m : M A) (f : A → M B) :
  keeps I m → (∀ a, keeps I (f a)) → keeps I (bind m f).
Proof.
  intros Hm Hf w Hw. unfold bind. specialize (Hm w Hw).
  destruct (m w) as [[a|] w']; simpl in *; [by apply Hf | done].
Qed.

Lemma keeps_try_catch {A} (m h : M A) :
  keeps I m → keeps I h → keeps I (try_catch m h).
Proof.
  intros Hm Hh w Hw. unfold try_catch. specialize (Hm w Hw).
  destruct (m w) as [[a|] w']; simpl in *; [done | by apply Hh].
Qed.

Lemma keeps_void {A} (m : M A) : keeps I m → keeps I (void m).
Proof. intros Hm w Hw. by apply Hm. Qed.

Lemma keeps_when (b : bool) (m : M unit) : keeps I m → keeps I (when b m).
Proof. intros Hm. destruct b; [done | apply keeps_ret]. Qed.

Lemma keeps_for_each {A} (xs : list A) (body : A → M unit) :
  (∀ x, keeps I (body x)) → keeps I (for_each xs body).
Proof.
  intros Hb. induction xs as [|x xs IH]; simpl; [apply keeps_ret|].
  apply keeps_bind; [apply Hb | by intros _].
Qed.

Lemma keeps_checkBinaries_loop (binaries missing : list jsstring) :
  (∀ b, keeps I (checkBinaryExists b)) →
  keeps I (checkBinaries_loop binaries missing).
Proof.
  intros Hb. revert missing.
  induction binaries as [|b bs IH]; intros missing; simpl; [apply keeps_ret|].
  apply keeps_bind; [apply Hb | intros x; apply IH].
Qed.
End Keeps.

(** Reduces [keeps I m] to the effect of the single writes in [m]; [prim]
    is to show that one write keeps [I]. *)
Ltac keeps_step prim :=
  lazymatch goal with
  | |- keeps _ (ret _) => apply keeps_ret
  | |- keeps _ reject => apply keeps_reject
  | |- keeps _ (gets _) => apply keeps_gets
  | |- keeps _ (modify _) => apply keeps_modify; prim
  | |- keeps _ (consult _) => apply keeps_consult; prim
  | |- keeps _ (try_catch _ _) => apply keeps_try_catch
  | |- keeps _ (void _) => apply keeps_void
  | |- keeps _ (when _ _) => apply keeps_when
  | |- keeps _ (for_each _ _) => apply keeps_for_each; intros ?
  | |- keeps _ (checkBinaries_loop _ _) => apply keeps_checkBinaries_loop; intros ?
  | |- keeps _ (bind _ _) => apply keeps_bind; [|intros ?]
  | |- keeps _ (match ?x with _ => _ end) => destruct x
  | |- keeps _ _ =>
      progress unfold
        logInfo, logError, logCommand, emit, isDryRun, sleep, parseDuration,
        runCommandAsync, execAndWaitForOutput, checkBinaryExists,
        checkRequiredBinaries, disableInputDevices, enableInputDevices,
        getKeyboardIds, getMouseIds, getRandomLockInterval, getCurrentSessionId,
        terminateSession, hasTimeExpired, call_loopTask, xset_off, setSecret,
        clearSecret, binaries_gate, secret_missing
  end.

Ltac keeps_split prim := repeat (keeps_step prim).

(** ** Stopping *)

Lemma set_timers_id (w : world) : set_timers (timers w) w = w.
Proof. by destruct w. Qed.

Lemma clearTimeout_loop (ids : list nat) (w : world) :
  for_each ids (λ timeoutId : nat,
    modify (λ w, set_timers (timers w ∖ {[timeoutId]}) w)) w
  = (Resolved (), set_timers (timers w ∖ list_to_set ids) w).
Proof.
  revert w. induction ids as [|t ids IH]; intros w; simpl.
  - by rewrite difference_empty_L, set_timers_id.
  - unfold bind, modify at 1. rewrite IH. f_equal.
    unfold set_timers. simpl. f_equal. set_solver.
Qed.

(** [stop] in closed form: it always resolves, clears the flag, disarms
    the registered timeouts, empties the set and drops the task. *)
Lemma stop_spec (w : world) : stop w = (Resolved (), stopped w).
Proof.
  unfold stop, bind, logInfo, emit, modify, gets, when. simpl.
  rewrite clearTimeout_loop. simpl.
  rewrite list_to_set_elements_L.
  unfold stopped, stop_log.
  destruct w as [? task ? ? ? ? ? ? ? ? ? ? ? ? ?].
  destruct task; simpl; rewrite <- ?app_assoc; reflexivity.
Qed.

(** ** An abandoned sleep stays abandoned *)

Ltac abandoned_write :=
  let w := fresh "w" in
  let Hn := fresh "Hn" in
  let Hl := fresh "Hl" in
  let Hs := fresh "Hs" in
  intros w (Hn & Hl & Hs); split; [|split]; simpl;
  [ first [ exact Hn | set_solver by lia ]
  | first [ exact Hl | lia ]
  | first [ exact Hs | rewrite lookup_insert_ne by lia; exact Hs ] ].

Lemma abandoned_stop t v : keeps (abandoned t v) stop.
Proof. unfold stop. keeps_split abandoned_write. Qed.

Lemma abandoned_start t v : keeps (abandoned t v) start.
Proof. unfold start. keeps_split abandoned_write. Qed.

Lemma abandoned_setSecret t v : keeps (abandoned t v) setSecret.
Proof. keeps_split abandoned_write. Qed.

Lemma abandoned_clearSecret t v : keeps (abandoned t v) clearSecret.
Proof. keeps_split abandoned_write. Qed.

Lemma abandoned_loopTask t v : keeps (abandoned t v) loopTask.
Proof. unfold loopTask. keeps_split abandoned_write; apply abandoned_stop. Qed.

Lemma abandoned_resume t v k : keeps (abandoned t v) (resume k).
Proof. unfold resume. keeps_split abandoned_write. Qed.

(** No step resumes an abandoned sleep. *)
Lemma abandoned_step t v w l w' :
  step w l w' → abandoned t v w → l ≠ Fire t ∧ abandoned t v w'.
Proof.
  intros Hstep Hab. destruct Hstep as [w|w|w|w|w|w id Hid|w t' ms k Ht' Hk|w c].
  - split; [done | by apply abandoned_start].
  - split; [done | by apply abandoned_stop].
  - split; [done | by apply abandoned_stop].
  - split; [done | by apply abandoned_setSecret].
  - split; [done | by apply abandoned_clearSecret].
  - split; [done|]. apply abandoned_loopTask.
    destruct Hab as (Hn & Hl & Hs). by repeat split.
  - assert (t' ≠ t) as Hne by (intros ->; by destruct Hab).
    split; [congruence|]. apply abandoned_resume.
    destruct Hab as (Hn & Hl & Hs). repeat split; simpl; [set_solver | done |].
    by rewrite lookup_delete_ne.
  - split; [done|]. destruct Hab as (Hn & Hl & Hs). by repeat split.
Qed.

Lemma abandoned_run t v w ls w' :
  run w ls w' → abandoned t v w → (Fire t ∉ ls) ∧ abandoned t v w'.
Proof.
  induction 1 as [w|w l w1 ls w2 Hstep _ IH]; intros Hab.
  - split; [apply not_elem_of_nil | done].
  - destruct (abandoned_step t v w l w1 Hstep Hab) as [Hne Hab1].
    destruct (IH Hab1) as [Hnot Hab2]. split; [|done].
    rewrite not_elem_of_cons. split; [congruence | done].
Qed.

(** ** Timeouts of reachable worlds *)

Ltac registered_write :=
  let w := fresh "w" in
  let Hs := fresh "Hs" in
  let Hl := fresh "Hl" in
  let Hd := fresh "Hd" in
  let t := fresh "t" in
  let Ht := fresh "Ht" in
  intros w (Hs & Hl & Hd); split; [|split]; simpl;
  [ first [ exact Hs | set_solver ]
  | first [ exact Hl
          | intros t Ht; apply elem_of_union in Ht as [Ht|Ht];
            [ apply elem_of_singleton in Ht; lia | specialize (Hl _ Ht); lia ]
          | intros t Ht; apply elem_of_difference in Ht as [Ht _]; by apply Hl ]
  | first [ exact Hd
          | intros t Ht; destruct (decide (t = next_timer w)) as [->|];
            [ lia | rewrite lookup_insert_ne in Ht by done; specialize (Hd _ Ht); lia ] ] ].

Lemma registered_stop : keeps timers_registered stop.
Proof.
  intros w (Hs & Hl & Hd). rewrite stop_spec. simpl.
  split; [set_solver|]. split; [|done].
  intros t Ht. apply Hl. set_solver.
Qed.

Lemma registered_start : keeps timers_registered start.
Proof. unfold start. keeps_split registered_write. Qed.

Lemma registered_setSecret : keeps timers_registered setSecret.
Proof. keeps_split registered_write. Qed.

Lemma registered_clearSecret : keeps timers_registered clearSecret.
Proof. keeps_split registered_write. Qed.

Lemma registered_loopTask : keeps timers_registered loopTask.
Proof. unfold loopTask. keeps_split registered_write; apply registered_stop. Qed.

Lemma registered_resume k : keeps timers_registered (resume k).
Proof. unfold resume. keeps_split registered_write. Qed.

Lemma registered_step w l w' :
  step w l w' → timers_registered w → timers_registered w'.
Proof.
  intros Hstep Hr. destruct Hstep as [w|w|w|w|w|w id Hid|w t' ms k Ht' Hk|w c].
  - by apply registered_start.
  - by apply registered_stop.
  - by apply registered_stop.
  - by apply registered_setSecret.
  - by apply registered_clearSecret.
  - apply registered_loopTask. destruct Hr as (Hs & Hl & Hd). by repeat split.
  - apply registered_resume. destruct Hr as (Hs & Hl & Hd).
    split; [|split]; simpl.
    + set_solver.
    + intros t Ht. apply Hl. set_solver.
    + intros t Ht. apply Hd. destruct (decide (t = t')) as [->|Hne].
      * by rewrite lookup_delete_eq in Ht; destruct Ht.
      * by rewrite lookup_delete_ne in Ht.
  - destruct Hr as (Hs & Hl & Hd). by repeat split.
Qed.

Lemma registered_run w ls w' :
  run w ls w' → timers_registered w → timers_registered w'.
Proof.
  induction 1 as [w|w l w1 ls w2 Hstep _ IH]; intros Hr; [done|].
  apply IH. by apply (registered_step w l).
Qed.

Lemma reachable_registered w : reachable w → timers_registered w.
Proof.
  intros (c & stored & e & ls & Hrun). apply (registered_run _ _ _ Hrun).
  split; [done|]. split.
  - intros t Ht. simpl in Ht. set_solver.
  - intros t [v Hv]. simpl in Hv. by rewrite lookup_empty in Hv.
Qed.

Lemma locked_hold_world_reachable : reachable locked_hold_world.
Proof.
  exists (Config (Some true) None (Some (u "10m")) (Some (u "10m"))),
    (Some (u "pw")), silent_env, [CallStart; Enter 0%nat].
  eapply run_cons; [apply step_start|].
  eapply run_cons; [|apply run_nil].
  apply step_enter. vm_compute. reflexivity.
Defined.

(** ** Cancellation *)

Lemma stop_emits_no_command (w : world) :
  emitted (λ e, is_command e = false) w (stop w).2.
Proof.
  rewrite stop_spec. exists (stop_log w). split; [done|].
  unfold stop_log. destruct (bool_decide _); repeat constructor.
Qed.

(** After [stop], a sleep that was pending is abandoned for good. *)
Lemma stop_abandons (w : world) (t : nat) (v : jsnum * cont) :
  timers_registered w → sleepers w !! t = Some v →
  abandoned t v (stop w).2.
Proof.
  intros (Hs & Hl & Hd) Hv. rewrite stop_spec. split; [|split]; simpl.
  - set_solver.
  - apply Hd. by exists v.
  - done.
Qed.

(** C2: when [stop] is called while a cycle waits in its locked-hold
    sleep, [stop] resolves, runs no command, and leaves no registered and
    no armed timeout; and in whatever the service does afterwards the
    timeout of that sleep never fires, so the cycle stays where it was,
    before its device disable, unlock, unlocked hold and device enable. *)
Theorem stop_during_locked_hold
    (w : world) (t : nat) (ms : jsnum) (secret : jsstring)
    (mouseIds keyboardIds : list N) (dryRun : bool) :
  reachable w →
  t ∈ timers w →
  sleepers w !! t = Some (ms, AfterLockedHold secret mouseIds keyboardIds dryRun) →
  (stop w).1 = Resolved ()
  ∧ activeTimeouts (stop w).2 = ∅
  ∧ timers (stop w).2 = ∅
  ∧ active (stop w).2 = false
  ∧ emitted (λ e, is_command e = false) w (stop w).2
  ∧ ∀ ls w', run (stop w).2 ls w' →
      (Fire t ∉ ls)
      ∧ sleepers w' !! t = Some (ms, AfterLockedHold secret mouseIds keyboardIds dryRun).
Proof.
  intros Hreach Ht Hv.
  pose proof (reachable_registered w Hreach) as Hreg.
  split; [by rewrite stop_spec|].
  split; [by rewrite stop_spec|].
  split.
  { rewrite stop_spec. simpl. destruct Hreg as (Hs & _). set_solver. }
  split; [by rewrite stop_spec|].
  split; [apply stop_emits_no_command|].
  intros ls w' Hrun.
  destruct (abandoned_run t _ _ ls w' Hrun (stop_abandons w t _ Hreg Hv))
    as (Hfire & _ & _ & Hs').
  done.
Qed.

Lemma stop_during_locked_hold_witness :
  (stop locked_hold_world).1 = Resolved ()
  ∧ activeTimeouts (stop locked_hold_world).2 = ∅
  ∧ timers (stop locked_hold_world).2 = ∅
  ∧ active (stop locked_hold_world).2 = false
  ∧ emitted (λ e, is_command e = false) locked_hold_world (stop locked_hold_world).2
  ∧ ∀ ls w', run (stop locked_hold_world).2 ls w' →
      (Fire 0%nat ∉ ls)
      ∧ sleepers w' !! 0%nat
        = Some (Num 600000, AfterLockedHold (u "pw") [9] [10] true).
Proof.
  apply (stop_during_locked_hold locked_hold_world 0%nat).
  - exact locked_hold_world_reachable.
  - vm_compute. reflexivity.
  - vm_compute. reflexivity.
Defined.

(** C3 as stated fails: in the service suspended in its first locked
    hold, timeout 0 is registered and its sleep is awaited; after [stop]
    the timeout is disarmed, nothing is registered, and the sleep is
    still awaited, now and after every further run: it never resolves. *)
Lemma cancelled_sleep_never_resolves :
  (0%nat ∈ activeTimeouts locked_hold_world)
  ∧ sleep_pending 0 locked_hold_world
  ∧ (0%nat ∉ timers (stop locked_hold_world).2)
  ∧ activeTimeouts (stop locked_hold_world).2 = ∅
  ∧ sleep_pending 0 (stop locked_hold_world).2
  ∧ ∀ ls w', run (stop locked_hold_world).2 ls w' → sleep_pending 0 w'.
Proof.
  split; [vm_compute; reflexivity|].
  split; [by eexists|].
  split; [vm_compute; intros H; discriminate H|].
  split; [by rewrite stop_spec|].
  split; [by eexists|].
  intros ls w' Hrun.
  assert (Hab : abandoned 0 (Num 600000, AfterLockedHold (u "pw") [9] [10] true)
                  (stop locked_hold_world).2).
  { apply stop_abandons; [|vm_compute; reflexivity].
    apply reachable_registered, locked_hold_world_reachable. }
  destruct (abandoned_run _ _ _ ls w' Hrun Hab) as (_ & _ & _ & Hs).
  by eexists.
Qed.

(** The worlds [stop] passes through, in closed form. *)
Lemma stop_states (w : world) :
  states_between stop_statements w
  = let w1 := set_trace (trace w ++ [LogInfo StopRequested]) w in
    let w2 := set_active false w1 in
    let w3 := set_trace (trace w2 ++ [LogInfo (ClearingTimeouts (size (activeTimeouts w)))])
                w2 in
    let w4 := set_timers (timers w ∖ activeTimeouts w) w3 in
    let w5 := set_activeTimeouts ∅ w4 in
    let w6 := set_trace (trace w5 ++ [LogInfo AllTimeoutsCleared]) w5 in
    let w7 := if bool_decide (is_Some (currentLoopTask w))
              then set_currentLoopTask None
                     (set_trace (trace w6 ++ [LogInfo LoopTaskNotAwaited]) w6)
              else w6 in
    let w8 := set_trace (trace w7 ++ [LogInfo StoppedSuccessfully]) w7 in
    let w9 := set_trace (trace w8 ++ [ShowInformation IsStopped]) w8 in
    [w; w1; w2; w3; w4; w5; w6; w7; w8; w9].
Proof.
  unfold stop_statements. cbn [states_between].
  unfold bind, gets, logInfo, emit, modify, when, ret. cbn [fst snd].
  rewrite clearTimeout_loop. cbn [fst snd activeTimeouts set_trace set_active].
  rewrite list_to_set_elements_L.
  cbn [currentLoopTask set_trace set_activeTimeouts set_timers set_active].
  destruct (bool_decide (is_Some (currentLoopTask w))); reflexivity.
Qed.

(** Between two statements of [stop], once its completion is in the log
    the registered timeouts have been disarmed and the set is empty. *)
Lemma stop_drains_before_completion (w w' : world) :
  w' ∈ states_between stop_statements w → completion_logged w w' →
  timers w' = timers w ∖ activeTimeouts w ∧ activeTimeouts w' = ∅.
Proof.
  rewrite stop_states. cbv zeta. intros Hin (new & Hn & Hlog).
  assert (Hno : ∀ evs : list event,
            trace w' = trace w ++ evs →
            Forall (λ e, e ≠ LogInfo StoppedSuccessfully ∧ e ≠ ShowInformation IsStopped) evs →
            False).
  { intros evs He Hf. rewrite Hn in He. apply app_inv_head in He. subst new.
    rewrite Forall_forall in Hf. destruct Hlog as [H|H]; apply Hf in H; tauto. }
  repeat (apply elem_of_cons in Hin as [-> | Hin]);
    try (by apply elem_of_nil in Hin);
    try destruct (bool_decide (is_Some (currentLoopTask w)));
    first
      [ by split
      | exfalso; apply (Hno []); [by rewrite app_nil_r | constructor]
      | exfalso; eapply Hno;
        [ simpl; rewrite <- ?app_assoc; reflexivity
        | repeat constructor; discriminate ] ].
Qed.

Lemma stop_last_state (w : world) :
  last (states_between stop_statements w) = Some (stop w).2
  ∧ completion_logged w (stop w).2.
Proof.
  rewrite stop_states, stop_spec. cbv zeta. split.
  - cbn [last snd]. f_equal. unfold stopped, stop_log.
    destruct w as [? [task|] ? ? ? ? ? ? ? ? ? ? ? ? ?];
      cbn [active currentLoopTask requiredBinariesChecked activeTimeouts startTime
           secretStorage configuration timers sleepers entering next_timer next_task
           env ticks trace set_active set_currentLoopTask set_activeTimeouts
           set_timers set_trace];
      [change (bool_decide (is_Some (Some task))) with true
      |change (bool_decide (is_Some (@None nat))) with false];
      cbv iota;
      cbn [active currentLoopTask requiredBinariesChecked activeTimeouts startTime
           secretStorage configuration timers sleepers entering next_timer next_task
           env ticks trace set_active set_currentLoopTask set_activeTimeouts
           set_timers set_trace];
      f_equal; rewrite <- !app_assoc; reflexivity.
  - exists (stop_log w). split; [reflexivity|]. left. unfold stop_log.
    rewrite !elem_of_app, !elem_of_cons. tauto.
Qed.

(** C3, as the code has it: [stop] disarms every registered timeout and
    empties the set before its completion log is written; it resolves no
    sleep (the awaiting tasks are left as they are), and a sleep pending
    at [stop] is never resolved afterwards: its task does not go on.
    The order is that of the statements of [stop]: [stop] is the run of
    its statements, the world it ends in is the last they pass through,
    and in every world between two statements in which the completion is
    already logged or shown, no timeout is armed and the set is empty. *)
Theorem stop_cancels_registered_timeouts (w : world) :
  reachable w →
  (∀ t, t ∈ activeTimeouts w → t ∉ timers (stop w).2)
  ∧ timers (stop w).2 = ∅
  ∧ activeTimeouts (stop w).2 = ∅
  ∧ (stop w = run_statements stop_statements w
     ∧ last (states_between stop_statements w) = Some (stop w).2
     ∧ completion_logged w (stop w).2
     ∧ ∀ w', w' ∈ states_between stop_statements w → completion_logged w w' →
         timers w' = ∅ ∧ activeTimeouts w' = ∅
         ∧ ∀ t, t ∈ activeTimeouts w → t ∉ timers w')
  ∧ (∃ w1, timers w1 = ∅ ∧ activeTimeouts w1 = ∅
           ∧ emitted (λ e, e ≠ LogInfo StoppedSuccessfully ∧ e ≠ ShowInformation IsStopped) w w1
           ∧ stop w = stop_completion w1)
  ∧ sleepers (stop w).2 = sleepers w
  ∧ (∀ t ls w', sleep_pending t w → run (stop w).2 ls w' →
       (Fire t ∉ ls) ∧ sleepers w' !! t = sleepers w !! t).
Proof.
  intros Hreach. pose proof (reachable_registered w Hreach) as Hreg.
  assert (Hempty : timers w ∖ activeTimeouts w = ∅).
  { destruct Hreg as (Hs & _). set_solver. }
  split.
  { intros t Ht. rewrite stop_spec. simpl. rewrite Hempty. set_solver. }
  split; [by rewrite stop_spec|].
  split; [by rewrite stop_spec|].
  split.
  { split; [reflexivity|].
    destruct (stop_last_state w) as [Hlast Hlog].
    split; [exact Hlast|]. split; [exact Hlog|].
    intros w' Hin Hl.
    destruct (stop_drains_before_completion w w' Hin Hl) as [Ht Hat].
    rewrite Ht, Hat, Hempty. split; [done|]. split; [done|]. set_solver. }
  split.
  { exists (set_trace
              (trace w ++ [LogInfo StopRequested;
                           LogInfo (ClearingTimeouts (size (activeTimeouts w)));
                           LogInfo AllTimeoutsCleared]
                 ++ (if bool_decide (is_Some (currentLoopTask w))
                     then [LogInfo LoopTaskNotAwaited] else []))
              (stopped w)).
    split; [done|]. split; [done|]. split.
    - eexists. split; [reflexivity|].
      destruct (bool_decide _); repeat constructor; discriminate.
    - rewrite stop_spec. unfold stop_completion, bind, logInfo, emit, modify, stopped, stop_log.
      simpl. rewrite <- !app_assoc. reflexivity. }
  split; [by rewrite stop_spec|].
  intros t ls w' [v Hv] Hrun.
  destruct (abandoned_run t v _ ls w' Hrun (stop_abandons w t v Hreg Hv))
    as (Hfire & _ & _ & Hs').
  split; [done|]. by rewrite Hs', Hv.
Qed.

Lemma stop_cancels_registered_timeouts_witness :
  (∀ t, t ∈ activeTimeouts locked_hold_world → t ∉ timers (stop locked_hold_world).2)
  ∧ timers (stop locked_hold_world).2 = ∅
  ∧ activeTimeouts (stop locked_hold_world).2 = ∅
  ∧ (stop locked_hold_world = run_statements stop_statements locked_hold_world
     ∧ last (states_between stop_statements locked_hold_world)
       = Some (stop locked_hold_world).2
     ∧ completion_logged locked_hold_world (stop locked_hold_world).2
     ∧ ∀ w', w' ∈ states_between stop_statements locked_hold_world →
         completion_logged locked_hold_world w' →
         timers w' = ∅ ∧ activeTimeouts w' = ∅
         ∧ ∀ t, t ∈ activeTimeouts locked_hold_world → t ∉ timers w')
  ∧ (∃ w1, timers w1 = ∅ ∧ activeTimeouts w1 = ∅
           ∧ emitted (λ e, e ≠ LogInfo StoppedSuccessfully ∧ e ≠ ShowInformation IsStopped)
               locked_hold_world w1
           ∧ stop locked_hold_world = stop_completion w1)
  ∧ sleepers (stop locked_hold_world).2 = sleepers locked_hold_world
  ∧ (∀ t ls w', sleep_pending t locked_hold_world → run (stop locked_hold_world).2 ls w' →
       (Fire t ∉ ls) ∧ sleepers w' !! t = sleepers locked_hold_world !! t).
Proof.
  apply (stop_cancels_registered_timeouts locked_hold_world).
  exact locked_hold_world_reachable.
Defined.

(** ** The credential replay *)

Lemma emitted_refl P w : emitted P w w.
Proof. exists []. by rewrite app_nil_r. Qed.

Lemma emitted_emit P w0 w e :
  P e → emitted P w0 w → emitted P w0 (set_trace (trace w ++ [e]) w).
Proof.
  intros He (new & Hn & Hf). exists (new ++ [e]). split.
  - simpl. by rewrite Hn, app_assoc.
  - apply Forall_app. split; [done | by constructor].
Qed.

Lemma emitted_same_trace P w0 w w' :
  trace w' = trace w → emitted P w0 w → emitted P w0 w'.
Proof. intros Ht (new & Hn & Hf). exists new. by rewrite Ht. Qed.

Lemma emitted_trans P w0 w1 w2 :
  emitted P w0 w1 → emitted P w1 w2 → emitted P w0 w2.
Proof.
  intros (n1 & H1 & F1) (n2 & H2 & F2). exists (n1 ++ n2). split.
  - by rewrite H2, H1, app_assoc.
  - by apply Forall_app.
Qed.

Lemma slept_refl S w : slept S w w.
Proof. intros t v Hv. by left. Qed.

Lemma slept_same S w0 w w' :
  sleepers w' = sleepers w → slept S w0 w → slept S w0 w'.
Proof. intros Hs H t v Hv. apply H. by rewrite <- Hs. Qed.

Lemma slept_insert S w0 w w' t v :
  S v → slept S w0 w → sleepers w' = <[t := v]> (sleepers w) → slept S w0 w'.
Proof.
  intros Hv H Hs t' v' Hv'. rewrite Hs in Hv'.
  destruct (decide (t = t')) as [->|Hne].
  - rewrite lookup_insert_eq in Hv'. injection Hv' as <-. by right.
  - rewrite lookup_insert_ne in Hv' by done. by apply H.
Qed.

Lemma footprint_refl P S w : footprint P S w w.
Proof. split; [apply emitted_refl | apply slept_refl]. Qed.

(** One write keeps a footprint: [solveP] is to admit the event written,
    [solveS] the sleep entered. *)
Ltac footprint_write solveP solveS :=
  let w := fresh "w" in
  let He := fresh "He" in
  let Hs := fresh "Hs" in
  intros w [He Hs]; split;
  [ first [ eapply (emitted_same_trace _ _ w); [reflexivity | exact He]
          | apply emitted_emit; [solveP | exact He] ]
  | first [ eapply (slept_same _ _ w); [reflexivity | exact Hs]
          | eapply (slept_insert _ _ w); [ | exact Hs | reflexivity ]; solveS ] ].

Lemma stop_footprint P S w0 :
  (∀ e, is_command e = false → P e) → keeps (footprint P S w0) stop.
Proof.
  intros HP w [He Hs]. split.
  - apply (emitted_trans _ _ w); [done|].
    destruct (stop_emits_no_command w) as (new & Hn & Hf).
    exists new. split; [done|]. eapply Forall_impl; [exact Hf | exact HP].
  - eapply slept_same; [|exact Hs]. by rewrite stop_spec.
Qed.

(** Running the body of a task from [w]: the first read sees [w]. *)
Lemma keeps_from (I : world → Prop) {A B} (g : world → A) (f : A → M B) (w : world) :
  I w → keeps I (f (g w)) → I (bind (gets g) f w).2.
Proof. intros Hw Hf. unfold bind, gets. simpl. by apply Hf. Qed.

(** The first segment of an iteration types nothing, and a sleep it
    enters carries the secret resolved at its start, which is non-empty. *)
Lemma loopTask_footprint (w : world) :
  footprint (λ e, is_credential_replay e = false)
    (λ v, ∃ secret ms mouseIds keyboardIds dryRun,
       trim <$> secretStorage w = Some secret ∧ secret ≠ []
       ∧ v = (ms, AfterLockedHold secret mouseIds keyboardIds dryRun))
    w (loopTask w).2.
Proof.
  unfold loopTask. apply keeps_from; [apply footprint_refl|].
  apply keeps_bind; [apply keeps_gets | intros running].
  destruct (trim <$> secretStorage w) as [[|c secret]|] eqn:E;
    [apply keeps_ret| |apply keeps_ret].
  keeps_split ltac:(footprint_write
    ltac:(reflexivity)
    ltac:(eexists _, _, _, _, _; split; [reflexivity | split; [done | reflexivity]])).
  all: apply stop_footprint; intros [] He; try done; destruct m; done.
Qed.

Lemma resume_locked_footprint (w : world) secret mouseIds keyboardIds dryRun :
  footprint (λ e, is_credential_replay e = false ∨ replay_of secret e)
    (λ v, ∃ ms, v = (ms, AfterUnlockedHold mouseIds keyboardIds dryRun))
    w (resume (AfterLockedHold secret mouseIds keyboardIds dryRun) w).2.
Proof.
  assert (H : keeps (footprint (λ e, is_credential_replay e = false ∨ replay_of secret e)
                       (λ v, ∃ ms, v = (ms, AfterUnlockedHold mouseIds keyboardIds dryRun)) w)
                (resume (AfterLockedHold secret mouseIds keyboardIds dryRun))).
  { unfold resume. keeps_split ltac:(footprint_write
      ltac:(solve
        [ left; reflexivity
        | right; exists [u "type"; secret]; split; [by left | (by left) || (by right)]
        | right; exists [u "key"; u "Return"]; split; [by right | (by left) || (by right)] ])
      ltac:(by eexists)). }
  apply H, footprint_refl.
Qed.

Lemma resume_unlocked_footprint (w : world) mouseIds keyboardIds dryRun :
  footprint (λ e, is_credential_replay e = false) (λ v, False)
    w (resume (AfterUnlockedHold mouseIds keyboardIds dryRun) w).2.
Proof.
  assert (H : keeps (footprint (λ e, is_credential_replay e = false) (λ v, False) w)
                (resume (AfterUnlockedHold mouseIds keyboardIds dryRun))).
  { unfold resume. keeps_split ltac:(footprint_write ltac:(reflexivity) ltac:(fail)). }
  apply H, footprint_refl.
Qed.

Lemma replay_safe_emit (w : world) (e : event) :
  (∀ s, typed_secret e = Some s → s ≠ []) →
  replay_safe w → replay_safe (set_trace (trace w ++ [e]) w).
Proof.
  intros He [Ht Hs]. split; [|exact Hs].
  intros e' s Hin. simpl in Hin. apply elem_of_app in Hin as [Hin|Hin].
  - by apply Ht.
  - apply list_elem_of_singleton in Hin as ->. apply He.
Qed.

Lemma replay_safe_same (w w' : world) :
  trace w' = trace w → sleepers w' = sleepers w →
  replay_safe w → replay_safe w'.
Proof. intros Ht Hs [H1 H2]. split; [by rewrite Ht | by rewrite Hs]. Qed.

Lemma replay_safe_sleep (w w' : world) (t : nat) (v : jsnum * cont) :
  (∀ ms secret m k d, v = (ms, AfterLockedHold secret m k d) → secret ≠ []) →
  trace w' = trace w → sleepers w' = <[t := v]> (sleepers w) →
  replay_safe w → replay_safe w'.
Proof.
  intros Hv Ht Hs [H1 H2]. split; [by rewrite Ht|].
  intros t' ms secret m k d. rewrite Hs.
  destruct (decide (t = t')) as [->|Hne].
  - rewrite lookup_insert_eq. intros [= ->]. by eapply Hv.
  - rewrite lookup_insert_ne by done. apply H2.
Qed.

Ltac replay_write :=
  let w := fresh "w" in
  let H := fresh "H" in
  intros w H;
  first [ eapply (replay_safe_same w); [reflexivity | reflexivity | exact H]
        | apply replay_safe_emit; [intros ?; simpl; try discriminate | exact H]
        | eapply (replay_safe_sleep w); [ | reflexivity | reflexivity | exact H ];
          let Heq := fresh "Heq" in
          intros ? ? ? ? ? Heq;
          first [ discriminate Heq | injection Heq; intros; subst; done ] ].

Lemma replay_safe_stop : keeps replay_safe stop.
Proof.
  intros w [H1 H2]. rewrite stop_spec. split; [|exact H2].
  intros e s Hin. simpl in Hin. apply elem_of_app in Hin as [Hin|Hin]; [by apply H1|].
  intros He. exfalso. unfold stop_log in Hin.
  destruct (bool_decide _); simpl in Hin;
    repeat (apply elem_of_cons in Hin as [->|Hin]; [discriminate He|]);
    by apply elem_of_nil in Hin.
Qed.

Lemma replay_safe_start : keeps replay_safe start.
Proof. unfold start. keeps_split replay_write. Qed.

Lemma replay_safe_setSecret : keeps replay_safe setSecret.
Proof. keeps_split replay_write. Qed.

Lemma replay_safe_clearSecret : keeps replay_safe clearSecret.
Proof. keeps_split replay_write. Qed.

Lemma replay_safe_loopTask : keeps replay_safe loopTask.
Proof. unfold loopTask. keeps_split replay_write; apply replay_safe_stop. Qed.

Lemma replay_safe_resume (k : cont) :
  (∀ secret m kb d, k = AfterLockedHold secret m kb d → secret ≠ []) →
  keeps replay_safe (resume k).
Proof.
  intros Hk. destruct k as [secret m kb d|m kb d]; unfold resume.
  - assert (Hne : secret ≠ []) by (by eapply Hk).
    keeps_split replay_write; intros [= <-]; done.
  - keeps_split replay_write.
Qed.

Lemma replay_safe_step w l w' : step w l w' → replay_safe w → replay_safe w'.
Proof.
  intros Hstep Hr. destruct Hstep as [w|w|w|w|w|w id Hid|w t ms k Ht Hk|w c].
  - by apply replay_safe_start.
  - by apply replay_safe_stop.
  - by apply replay_safe_stop.
  - by apply replay_safe_setSecret.
  - by apply replay_safe_clearSecret.
  - apply replay_safe_loopTask. by eapply replay_safe_same; [| |exact Hr].
  - apply replay_safe_resume.
    + intros secret m kb d ->. destruct Hr as [_ H2]. by eapply H2.
    + destruct Hr as [H1 H2]. split; [done|]. simpl.
      intros t' ms' secret m kb d Hl.
      destruct (decide (t' = t)) as [->|Hne].
      * by rewrite lookup_delete_eq in Hl.
      * rewrite lookup_delete_ne in Hl by done. by eapply H2.
  - by eapply replay_safe_same; [| |exact Hr].
Qed.

Lemma replay_safe_run w ls w' : run w ls w' → replay_safe w → replay_safe w'.
Proof.
  induction 1 as [w|w l w1 ls w2 Hstep _ IH]; intros Hr; [done|].
  apply IH. by apply (replay_safe_step w l).
Qed.

Lemma reachable_replay_safe w : reachable w → replay_safe w.
Proof.
  intros (c & stored & e & ls & Hrun). apply (replay_safe_run _ _ _ Hrun).
  split.
  - intros ev s Hin. by apply elem_of_nil in Hin.
  - intros t ms secret m k d Hl. simpl in Hl. by rewrite lookup_empty in Hl.
Qed.

Lemma loopTask_without_secret (w : world) :
  trim <$> secretStorage w = None ∨ trim <$> secretStorage w = Some [] →
  loopTask w = (Resolved (), w).
Proof.
  intros H. unfold loopTask.
  change (bind (gets secretStorage) ?f w) with (f (secretStorage w) w). cbv beta.
  change (bind (gets active) ?f w) with (f (active w) w). cbv beta.
  by destruct H as [-> | ->].
Qed.

(** C1: an iteration whose secret is absent, or empty once trimmed, ends
    at once and leaves the world as it was.  Otherwise its first segment
    types nothing, and the sleep it enters carries the secret resolved at
    its start, which is non-empty; resumed from that sleep, the only
    invocations of the input-text-injection command are the typing of
    that secret and the confirmation key, and the sleep then entered is
    the unlocked hold; resumed from the unlocked hold, nothing is typed.
    So in every reachable world each secret typed so far, or held by a
    suspended cycle, is non-empty. *)
Theorem replay_only_with_resolved_secret :
  (∀ w, trim <$> secretStorage w = None ∨ trim <$> secretStorage w = Some [] →
        loopTask w = (Resolved (), w))
  ∧ (∀ w, footprint (λ e, is_credential_replay e = false)
            (λ v, ∃ secret ms mouseIds keyboardIds dryRun,
               trim <$> secretStorage w = Some secret ∧ secret ≠ []
               ∧ v = (ms, AfterLockedHold secret mouseIds keyboardIds dryRun))
            w (loopTask w).2)
  ∧ (∀ w secret mouseIds keyboardIds dryRun,
       footprint (λ e, is_credential_replay e = false ∨ replay_of secret e)
         (λ v, ∃ ms, v = (ms, AfterUnlockedHold mouseIds keyboardIds dryRun))
         w (resume (AfterLockedHold secret mouseIds keyboardIds dryRun) w).2)
  ∧ (∀ w mouseIds keyboardIds dryRun,
       footprint (λ e, is_credential_replay e = false) (λ v, False)
         w (resume (AfterUnlockedHold mouseIds keyboardIds dryRun) w).2)
  ∧ (∀ w, reachable w → replay_safe w).
Proof.
  split; [apply loopTask_without_secret|].
  split; [apply loopTask_footprint|].
  split; [apply resume_locked_footprint|].
  split; [apply resume_unlocked_footprint|].
  apply reachable_replay_safe.
Qed.

Lemma replay_only_with_resolved_secret_witness :
  loopTask (initial (Config None None None None) (Some (u "  ")) silent_env)
  = (Resolved (), initial (Config None None None None) (Some (u "  ")) silent_env)
  ∧ replay_safe locked_hold_world.
Proof.
  destruct replay_only_with_resolved_secret as (Hnone & _ & _ & _ & Hsafe).
  split.
  - apply Hnone. right. reflexivity.
  - apply Hsafe. exact locked_hold_world_reachable.
Defined.

(** ** Starting *)

Lemma bind_gets {A B} (g : world → A) (f : A → M B) (w : world) :
  bind (gets g) f w = f (g w) w.
Proof. reflexivity. Qed.

Lemma bind_resolved {A B} (m : M A) (f : A → M B) (w w' : world) (a : A) :
  m w = (Resolved a, w') → bind m f w = f a w'.
Proof. intros H. unfold bind. by rewrite H. Qed.

Lemma bind_rejected {A B} (m : M A) (f : A → M B) (w w' : world) :
  m w = (Rejected, w') → bind m f w = (Rejected, w').
Proof. intros H. unfold bind. by rewrite H. Qed.

Lemma bind_emit {B} (e : event) (f : unit → M B) (w : world) :
  bind (emit e) f w = f () (set_trace (trace w ++ [e]) w).
Proof. reflexivity. Qed.

Lemma isDryRun_spec (w : world) :
  isDryRun w = (Resolved (default false (dryRun (configuration w))), w).
Proof. reflexivity. Qed.

Lemma same_session_refl (w : world) : same_session w w.
Proof. by repeat split. Qed.

Lemma session_frame_refl (w : world) : session_frame w w.
Proof. split; [apply same_session_refl | apply emitted_refl]. Qed.

Ltac session_write :=
  let w := fresh "w" in
  let Hs := fresh "Hs" in
  let He := fresh "He" in
  intros w [Hs He]; split;
  [ exact Hs
  | first [ eapply (emitted_same_trace _ _ w); [reflexivity | exact He]
          | apply emitted_emit; [reflexivity | exact He] ] ].

Ltac gate_write :=
  let w := fresh "w" in
  let H := fresh "H" in
  let Hsec := fresh "Hsec" in
  intros w [H Hsec]; split; [revert w H Hsec; intros w H _; revert w H; session_write | exact Hsec].

Lemma binaries_gate_frame (w0 : world) (d : bool) :
  keeps (λ w, session_frame w0 w ∧ secretStorage w = secretStorage w0) (binaries_gate d).
Proof. keeps_split gate_write. Qed.

(** While a session is active, [start] leaves it alone. *)
Lemma start_active_frame (w0 : world) :
  active w0 = true → keeps (session_frame w0) start.
Proof.
  intros Hact. unfold start.
  apply keeps_bind; [keeps_split session_write | intros dryRun].
  apply keeps_bind; [keeps_split session_write | intros proceed].
  destruct (negb proceed); [apply keeps_ret|].
  apply keeps_bind; [apply keeps_gets | intros stored].
  destruct (trim <$> stored) as [[|c s]|];
    [keeps_split session_write | | keeps_split session_write].
  intros w Hw. rewrite bind_gets.
  destruct Hw as [Hs He]. pose proof Hs as (Ha & _).
  rewrite Ha, Hact. by split.
Qed.

(** C9: a call of [start] while the service is active changes neither
    the flag, the start time, the task handle, the timeouts nor the
    pending sleeps, creates no loop task, and runs no lock command. *)
Theorem start_while_active (w : world) :
  active w = true →
  active (start w).2 = true
  ∧ startTime (start w).2 = startTime w
  ∧ currentLoopTask (start w).2 = currentLoopTask w
  ∧ entering (start w).2 = entering w
  ∧ next_task (start w).2 = next_task w
  ∧ same_session w (start w).2
  ∧ emitted (λ e, is_lock_action e = false) w (start w).2.
Proof.
  intros Hact.
  destruct (start_active_frame w Hact w (session_frame_refl w)) as [Hs He].
  pose proof Hs as (Ha & Hst & Hc & _ & _ & _ & Hen & _ & Hnt).
  rewrite Ha, Hst, Hc, Hen, Hnt. done.
Qed.

Lemma start_while_active_witness :
  active (start locked_hold_world).2 = true
  ∧ startTime (start locked_hold_world).2 = startTime locked_hold_world
  ∧ currentLoopTask (start locked_hold_world).2 = currentLoopTask locked_hold_world
  ∧ entering (start locked_hold_world).2 = entering locked_hold_world
  ∧ next_task (start locked_hold_world).2 = next_task locked_hold_world
  ∧ same_session locked_hold_world (start locked_hold_world).2
  ∧ emitted (λ e, is_lock_action e = false) locked_hold_world (start locked_hold_world).2.
Proof.
  apply (start_while_active locked_hold_world). reflexivity.
Defined.

Lemma checkBinaryExists_resolves (b : jsstring) (w : world) :
  ∃ found, (checkBinaryExists b w).1 = Resolved found.
Proof.
  unfold checkBinaryExists. rewrite (bind_resolved _ _ _ _ _ (isDryRun_spec w)).
  destruct (default false (dryRun (configuration w))).
  - by exists true.
  - unfold try_catch.
    destruct (bind (execAndWaitForOutput (u "which") [b]) _ w) as [[found|] w'];
      simpl; eauto.
Qed.

Lemma checkBinaries_loop_resolves (binaries missing : list jsstring) (w : world) :
  ∃ m, (checkBinaries_loop binaries missing w).1 = Resolved m.
Proof.
  revert missing w. induction binaries as [|b bs IH]; intros missing w; simpl.
  - by exists missing.
  - destruct (checkBinaryExists b w) as [r w'] eqn:E.
    destruct (checkBinaryExists_resolves b w) as [found Hf].
    rewrite E in Hf. simpl in Hf. subst r.
    rewrite (bind_resolved _ _ _ _ _ E). apply IH.
Qed.

Lemma checkRequiredBinaries_resolves (w : world) :
  ∃ allPresent missing, (checkRequiredBinaries w).1 = Resolved (allPresent, missing).
Proof.
  unfold checkRequiredBinaries.
  destruct (checkBinaries_loop_resolves REQUIRED_BINARIES [] w) as [m Hm].
  destruct (checkBinaries_loop REQUIRED_BINARIES [] w) as [r w'] eqn:E.
  simpl in Hm. subst r. rewrite (bind_resolved _ _ _ _ _ E). by eexists _, _.
Qed.

Lemma gate_open_proceeds (w : world) :
  gate_open w →
  (binaries_gate (default false (dryRun (configuration w))) w).1 = Resolved true.
Proof.
  intros Hopen. unfold binaries_gate. rewrite bind_gets.
  destruct (requiredBinariesChecked w) eqn:Hc; [reflexivity|]. simpl.
  destruct (checkRequiredBinaries_resolves w) as (ap & m & Hr).
  destruct (checkRequiredBinaries w) as [r w'] eqn:E. simpl in Hr. subst r.
  rewrite (bind_resolved _ _ _ _ _ E).
  destruct Hopen as [Hopen | [Hopen | [m' Hopen]]].
  - congruence.
  - rewrite Hopen, andb_false_r. reflexivity.
  - rewrite E in Hopen. simpl in Hopen. injection Hopen as -> _. reflexivity.
Qed.

Lemma prompted_emit w0 w e : prompted w0 w → prompted w0 (set_trace (trace w ++ [e]) w).
Proof.
  intros (new & Hn & Hin). exists (new ++ [e]). split.
  - simpl. by rewrite Hn, app_assoc.
  - apply elem_of_app. by left.
Qed.

Lemma prompted_same_trace w0 w w' : trace w' = trace w → prompted w0 w → prompted w0 w'.
Proof. intros Ht (new & Hn & Hin). exists new. by rewrite Ht. Qed.

Ltac prompted_write :=
  let w := fresh "w" in
  let H := fresh "H" in
  intros w H;
  first [ eapply (prompted_same_trace _ w); [reflexivity | exact H]
        | apply prompted_emit; exact H ].

(** Without a secret, [start] ends in its check of the binaries or in
    its block for the missing secret. *)
Lemma start_without_secret_cases (w : world) :
  trim <$> secretStorage w = None ∨ trim <$> secretStorage w = Some [] →
  (start w).2 =
  match (binaries_gate (default false (dryRun (configuration w))) w).1 with
  | Resolved true =>
      (secret_missing (binaries_gate (default false (dryRun (configuration w))) w).2).2
  | _ => (binaries_gate (default false (dryRun (configuration w))) w).2
  end.
Proof.
  intros Hsecret. unfold start.
  rewrite (bind_resolved _ _ _ _ _ (isDryRun_spec w)).
  pose proof (binaries_gate_frame w (default false (dryRun (configuration w))) w
                (conj (session_frame_refl w) eq_refl)) as [_ Hsec].
  destruct (binaries_gate _ w) as [[proceed|] w1] eqn:Hg; simpl in *.
  - rewrite (bind_resolved _ _ _ _ _ Hg). destruct proceed; simpl; [|done].
    rewrite bind_gets, Hsec. by destruct Hsecret as [-> | ->].
  - by rewrite (bind_rejected _ _ _ _ Hg).
Qed.

(** C8, as the code has it: without a stored secret, or with one that is
    blank, [start] leaves the session as it was (the flag in particular),
    creates no loop task and runs no lock command, whatever the user
    answers; and when the check of the binaries lets it through, the user
    is told that the secret is not set. *)
Theorem start_without_secret (w : world) :
  trim <$> secretStorage w = None ∨ trim <$> secretStorage w = Some [] →
  active (start w).2 = active w
  ∧ currentLoopTask (start w).2 = currentLoopTask w
  ∧ entering (start w).2 = entering w
  ∧ same_session w (start w).2
  ∧ emitted (λ e, is_lock_action e = false) w (start w).2
  ∧ (gate_open w → prompted w (start w).2).
Proof.
  intros Hsecret.
  pose proof (start_without_secret_cases w Hsecret) as Hcases.
  pose proof (binaries_gate_frame w (default false (dryRun (configuration w))) w
                (conj (session_frame_refl w) eq_refl)) as [Hgate _].
  assert (Hframe : session_frame w (start w).2).
  { destruct ((binaries_gate _ w).1) as [[|]|]; rewrite Hcases; try done.
    assert (Hk : keeps (session_frame w) secret_missing)
      by keeps_split session_write.
    by apply Hk. }
  destruct Hframe as [Hs He].
  pose proof Hs as (Ha & _ & Hc & _ & _ & _ & Hen & _).
  split; [done|]. split; [done|]. split; [done|]. split; [done|]. split; [done|].
  intros Hopen. rewrite (gate_open_proceeds w Hopen) in Hcases. rewrite Hcases.
  destruct Hgate as [_ (new & Hn & _)].
  assert (Hk : keeps (prompted w)
            (let* action := consult env_pick in
             match action with
             | Some SetSecretNow => setSecret >> emit (ShowInformation SecretSetStartAgain)
             | _ => ret ()
             end))
    by keeps_split prompted_write.
  unfold secret_missing. rewrite bind_emit.
  apply Hk. exists (new ++ [ShowError SecretNotSet]). split.
  - simpl. by rewrite Hn, app_assoc.
  - apply elem_of_app. right. by apply list_elem_of_singleton.
Qed.

Lemma start_without_secret_witness :
  let w := initial (Config (Some true) None None None) None
             (MkEnv (λ _, true) (λ _, None) (λ _, 0%Q) (λ _, 0%Z)
                (λ _, Some SetSecretNow) (λ _, Some (u " pw "))) in
  active (start w).2 = false
  ∧ currentLoopTask (start w).2 = None
  ∧ entering (start w).2 = ∅
  ∧ prompted w (start w).2
  ∧ secretStorage (start w).2 = Some (u "pw").
Proof.
  intros w.
  destruct (start_without_secret w) as (Ha & Hc & He & _ & _ & Hp).
  - left. reflexivity.
  - split; [exact Ha|]. split; [exact Hc|]. split; [exact He|]. split.
    + apply Hp. right. left. reflexivity.
    + vm_compute. reflexivity.
Defined.

(** C8 as stated fails on the prompt: with no secret stored, outside
    dry-run and with the binaries not found, [start] reports the missing
    binaries and returns before it looks at the secret; the user is not
    asked to set one. *)
Lemma start_without_binaries_does_not_prompt :
  let w := initial (Config None None None None) None silent_env in
  secretStorage w = None
  ∧ trace (start w).2
    = [Spawn (u "which") [u "ft_lock"]; Spawn (u "which") [u "xdotool"];
       Spawn (u "which") [u "xset"]; Spawn (u "which") [u "xinput"];
       Spawn (u "which") [u "loginctl"];
       ShowError (MissingBinaries REQUIRED_BINARIES)]
  ∧ ¬ prompted w (start w).2.
Proof.
  intros w. split; [reflexivity|].
  assert (Ht : trace (start w).2
    = [Spawn (u "which") [u "ft_lock"]; Spawn (u "which") [u "xdotool"];
       Spawn (u "which") [u "xset"]; Spawn (u "which") [u "xinput"];
       Spawn (u "which") [u "loginctl"];
       ShowError (MissingBinaries REQUIRED_BINARIES)]) by (vm_compute; reflexivity).
  split; [exact Ht|].
  intros (new & Hn & Hin). rewrite Ht in Hn. simpl in Hn. subst new.
  repeat (apply elem_of_cons in Hin as [Hin|Hin]; [discriminate Hin|]).
  by apply elem_of_nil in Hin.
Qed.

(** ** Two consequences worth recording *)

(** A duration that parsed to [NaN] passes the interval validation, since
    every comparison with [NaN] is false. *)
Example validateLockIntervals_NaN :
  validateLockIntervals NaN NaN = Validation true None.
Proof. reflexivity. Qed.

(** [start] sets the flag before it validates the intervals: with an
    interval above the ceiling it reports the error and returns with the
    flag set and no loop task created. *)
Example start_with_invalid_interval :
  let w := initial (Config (Some true) None (Some (u "40m")) None)
             (Some (u "pw")) silent_env in
  active (start w).2 = true
  ∧ currentLoopTask (start w).2 = None
  ∧ entering (start w).2 = ∅
  ∧ last (trace (start w).2) = Some (ShowError (CannotStart (Some MinExceedsLimit))).
Proof. vm_compute. done. Qed.

(** * Further properties *)

(** ** Durations *)

Lemma match_duration_pattern_form (s : jsstring) :
  is_Some (match_duration s) ↔ pattern_form s.
Proof.
  split.
  - intros [[g c] Hm]. apply match_duration_sound in Hm as (-> & Hne & Hg & Hc).
    by exists g, c.
  - intros (g & c & -> & Hne & Hg & Hc). exists (g, c).
    by apply match_duration_accepts.
Qed.

Lemma parseDuration_run (s : jsstring) (w : world) :
  parseDuration s w = (Resolved (duration_value s), after_parse s w).
Proof.
  unfold duration_value, after_parse, parseDuration.
  destruct (match_duration (trim s)) as [[g c]|]; [|reflexivity].
  destruct (toLowerCase1 c =? 104); [reflexivity|].
  destruct (toLowerCase1 c =? 109); [reflexivity|].
  destruct (toLowerCase1 c =? 115); reflexivity.
Qed.

Lemma parseDuration_unmatched (s : jsstring) (w : world) :
  ¬ pattern_form (trim s) →
  parseDuration s w
  = (Resolved ONE_HOUR, set_trace (trace w ++ [LogError (InvalidDurationFormat s)]) w).
Proof.
  intros Hf. unfold parseDuration.
  destruct (match_duration (trim s)) as [gc|] eqn:Hm; [|reflexivity].
  destruct Hf. apply match_duration_pattern_form. by exists gc.
Qed.

Lemma duration_value_unmatched (s : jsstring) :
  ¬ pattern_form (trim s) → duration_value s = ONE_HOUR.
Proof.
  intros Hf. unfold duration_value. by rewrite (parseDuration_unmatched s dry_world Hf).
Qed.

(** X2: [parseDuration] always returns.  On a string of the shape of the
    pattern it logs nothing; on any other string it logs the error once
    and returns one hour, 3 600 000 ms. *)
Theorem parseDuration_fallback (s : jsstring) (w : world) :
  (pattern_form (trim s) → parseDuration s w = (Resolved (duration_value s), w))
  ∧ (¬ pattern_form (trim s) →
       parseDuration s w
       = (Resolved ONE_HOUR, set_trace (trace w ++ [LogError (InvalidDurationFormat s)]) w))
  ∧ jsnum_equiv ONE_HOUR (ofZ 3600000).
Proof.
  split; [|split; [|reflexivity]].
  - intros Hf. apply match_duration_pattern_form in Hf as [gc Hm].
    rewrite parseDuration_run. unfold after_parse. by rewrite Hm.
  - apply parseDuration_unmatched.
Qed.

Lemma parseDuration_fallback_witness :
  parseDuration (u " 5m") dry_world = (Resolved (duration_value (u " 5m")), dry_world)
  ∧ parseDuration (u "5 m") dry_world
    = (Resolved ONE_HOUR,
       set_trace (trace dry_world ++ [LogError (InvalidDurationFormat (u "5 m"))]) dry_world).
Proof.
  split.
  - apply (parseDuration_fallback (u " 5m") dry_world).
    exists (u "5"), 109. repeat split; try done. repeat constructor.
  - apply (parseDuration_fallback (u "5 m") dry_world).
    intros (g & c & Heq & _ & Hg & _).
    change (trim (u "5 m")) with ([53; 32] ++ [109]) in Heq.
    apply app_inj_tail in Heq as [<- _].
    apply Forall_cons in Hg as [_ Hg]. apply Forall_cons in Hg as [Hg _].
    discriminate Hg.
Defined.

(** X3: the fallback is itself no valid interval.  A minimum that does
    not have the shape of the pattern is reported as above the limit
    whatever the maximum is, and such a maximum is reported as above the
    limit whenever the minimum is not. *)
Theorem malformed_interval_is_invalid (s : jsstring) :
  ¬ pattern_form (trim s) →
  (∀ b, validateLockIntervals (duration_value s) b
        = Validation false (Some MinExceedsLimit))
  ∧ (∀ a, jsgt a MAX_INTERVAL_MS = false →
          validateLockIntervals a (duration_value s)
          = Validation false (Some MaxExceedsLimit)).
Proof.
  intros Hf. rewrite (duration_value_unmatched s Hf). split.
  - intros b. reflexivity.
  - intros a Ha. unfold validateLockIntervals. rewrite Ha. reflexivity.
Qed.

Lemma malformed_interval_is_invalid_witness :
  validateLockIntervals (duration_value (u "ten")) (duration_value (u "20m"))
  = Validation false (Some MinExceedsLimit)
  ∧ validateLockIntervals (duration_value (u "10m")) (duration_value (u "ten"))
    = Validation false (Some MaxExceedsLimit).
Proof.
  assert (Hten : ¬ pattern_form (trim (u "ten"))).
  { intros (g & c & Heq & _ & _ & Hc).
    change (trim (u "ten")) with ([116; 101] ++ [110]) in Heq.
    apply app_inj_tail in Heq as [_ <-]. discriminate Hc. }
  destruct (malformed_interval_is_invalid (u "ten") Hten) as [Hmin Hmax].
  split; [apply Hmin | apply Hmax; reflexivity].
Defined.

Lemma duration_value_dots (n : nat) (c : N) :
  is_unit_letter c = true → duration_value (replicate (S n) DOT ++ [c]) = NaN.
Proof.
  intros Hc. unfold duration_value.
  destruct (parseDuration_matched (replicate (S n) DOT ++ [c]) (replicate (S n) DOT) c dry_world)
    as (v & Hv & Heq).
  - apply match_duration_unpadded; [done| |done].
    apply Forall_replicate. reflexivity.
  - rewrite Hv. simpl. rewrite parseFloat_dots in Heq. by destruct v.
Qed.

(** X4: durations written with dots only switch the checks off.  Two
    such intervals pass the validation, such a minimum passes with any
    maximum within the limit, and such a duration never expires. *)
Theorem dotted_durations_pass_all_checks (n m : nat) (c d : N) :
  is_unit_letter c = true → is_unit_letter d = true →
  validateLockIntervals (duration_value (replicate (S n) DOT ++ [c]))
    (duration_value (replicate (S m) DOT ++ [d])) = Validation true None
  ∧ (∀ b, jsgt b MAX_INTERVAL_MS = false →
          validateLockIntervals (duration_value (replicate (S n) DOT ++ [c])) b
          = Validation true None)
  ∧ (∀ w, (hasTimeExpired (duration_value (replicate (S n) DOT ++ [c])) w).1
          = Resolved false).
Proof.
  intros Hc Hd. rewrite !duration_value_dots by done.
  split; [reflexivity|]. split.
  - intros b Hb. unfold validateLockIntervals. simpl. by rewrite Hb.
  - intros w. reflexivity.
Qed.

Lemma dotted_durations_pass_all_checks_witness :
  validateLockIntervals (duration_value (u ".m")) (duration_value (u "..s"))
  = Validation true None
  ∧ (hasTimeExpired (duration_value (u ".m")) dry_world).1 = Resolved false.
Proof.
  destruct (dotted_durations_pass_all_checks 0 1 109 115) as (H1 & _ & H3);
    [reflexivity | reflexivity |].
  split; [exact H1 | exact (H3 dry_world)].
Defined.

(** The value of a decimal number with a unit, over exact rationals. *)
Lemma duration_value_decimal
    (ws1 ws2 ip : jsstring) (fp : option jsstring) (c : N) :
  Forall (λ c, is_js_whitespace c = true) ws1 →
  Forall (λ c, is_js_whitespace c = true) ws2 →
  Forall (λ c, is_digit c = true) ip →
  Forall (λ c, is_digit c = true) (default [] fp) →
  ip ≠ [] ∨ default [] fp ≠ [] →
  is_unit_letter c = true →
  jsnum_equiv (duration_value (ws1 ++ literal ip fp ++ c :: ws2))
    (Num (decimal_value ip (default [] fp) * unit_factor c))
  ∧ duration_value (ws1 ++ literal ip fp ++ c :: ws2)
    = duration_value (literal ip fp ++ [toLowerCase1 c])
  ∧ trim (ws1 ++ literal ip fp ++ c :: ws2) = literal ip fp ++ [c].
Proof.
  intros Hws1 Hws2 Hip Hfp Hne Hc.
  assert (Hlit : Forall (λ c, is_digit_or_dot c = true) (literal ip fp))
    by (by apply literal_digit_or_dot).
  assert (Hlne : literal ip fp ≠ []).
  { unfold literal. destruct Hne as [Hne|Hne]; [by destruct ip|].
    destruct fp; [by destruct ip | done]. }
  assert (Htrim : trim (ws1 ++ literal ip fp ++ c :: ws2) = literal ip fp ++ [c]).
  { apply trim_padded; try done.
    - eapply Forall_impl; [exact Hlit|]. apply digit_or_dot_not_whitespace.
    - by apply unit_letter_not_whitespace. }
  split; [|split; [|done]].
  - destruct (parseDuration_well_formed ws1 ws2 ip fp c dry_world) as (q & Hq & Hv);
      try done.
    rewrite parseDuration_run in Hq. injection Hq as -> _. exact Hv.
  - assert (Hlow : is_unit_letter (toLowerCase1 c) = true).
    { unfold is_unit_letter in Hc. rewrite !orb_true_iff, !N.eqb_eq in Hc.
      decompose [or] Hc; subst; reflexivity. }
    assert (Hll : toLowerCase1 (toLowerCase1 c) = toLowerCase1 c).
    { unfold is_unit_letter in Hc. rewrite !orb_true_iff, !N.eqb_eq in Hc.
      decompose [or] Hc; subst; reflexivity. }
    unfold duration_value, parseDuration.
    rewrite Htrim, (match_duration_unpadded _ _ Hlne Hlit Hlow).
    rewrite (match_duration_accepts _ _ Hlne Hlit Hc). by rewrite Hll.
Qed.

(** A string of [n] digits reads as a number below [10 ^ n]. *)
Lemma digits_val_bound (ds : jsstring) :
  Forall (λ c, is_digit c = true) ds →
  (0 ≤ digits_val ds < 10 ^ Z.of_nat (length ds))%Z.
Proof.
  intros Hds. unfold digits_val.
  assert (H : ∀ a, (0 ≤ a)%Z →
            (0 ≤ fold_left (λ acc c, 10 * acc + digit_val c) ds a
             < (a + 1) * 10 ^ Z.of_nat (length ds))%Z).
  { induction Hds as [|c ds Hc _ IH]; intros a Ha; simpl fold_left.
    - simpl. lia.
    - assert (Hd : (0 ≤ digit_val c ≤ 9)%Z).
      { unfold is_digit in Hc. apply andb_true_iff in Hc as [H1 H2].
        apply N.leb_le in H1, H2. unfold digit_val. lia. }
      specialize (IH (10 * a + digit_val c)%Z ltac:(lia)).
      replace (Z.of_nat (length (c :: ds))) with (Z.succ (Z.of_nat (length ds)))
        by (simpl length; lia).
      rewrite Z.pow_succ_r by lia.
      assert (0 < 10 ^ Z.of_nat (length ds))%Z by (apply Z.pow_pos_nonneg; lia).
      nia. }
  specialize (H 0%Z ltac:(lia)). lia.
Qed.

(** X1: a whole number of at most nine digits followed by a unit letter
    of either case, with blanks around it, has as its value the number
    times the factor of the unit, an integer below 2^53; blanks and the
    case of the letter make no difference. *)
Theorem duration_of_whole_number (ws1 ws2 ds : jsstring) (c : N) :
  Forall (λ c, is_js_whitespace c = true) ws1 →
  Forall (λ c, is_js_whitespace c = true) ws2 →
  Forall (λ c, is_digit c = true) ds →
  ds ≠ [] → (length ds ≤ 9)%nat →
  is_unit_letter c = true →
  jsnum_equiv (duration_value (ws1 ++ ds ++ c :: ws2))
    (Num (inject_Z (digits_val ds) * unit_factor c))
  ∧ (0 <= inject_Z (digits_val ds) * unit_factor c < 9007199254740992)%Q
  ∧ duration_value (ws1 ++ ds ++ c :: ws2) = duration_value (ds ++ [toLowerCase1 c])
  ∧ whole_form (ws1 ++ ds ++ c :: ws2).
Proof.
  intros Hws1 Hws2 Hds Hne Hlen Hc.
  destruct (duration_value_decimal ws1 ws2 ds None c) as (Hv & Hcase & Htrim);
    try done; [by left|].
  unfold literal in Hv, Hcase, Htrim. cbn [from_option] in Hv, Hcase, Htrim.
  rewrite app_nil_r in Hv, Hcase, Htrim.
  split; [|split; [|split; [exact Hcase|]]].
  - destruct (duration_value (ws1 ++ ds ++ c :: ws2)) as [q|]; [|exact Hv].
    cbn [jsnum_equiv] in *. rewrite Hv. unfold decimal_value.
    cbn [default length pow10 Nat.iter]. rewrite app_nil_r. reflexivity.
  - pose proof (digits_val_bound ds Hds) as [H0 H1].
    assert (H9 : (digits_val ds < 10 ^ 9)%Z).
    { eapply Z.lt_le_trans; [exact H1|]. apply Z.pow_le_mono_r; lia. }
    unfold unit_factor.
    destruct ((c =? 104) || (c =? 72)); [|destruct ((c =? 109) || (c =? 77))];
      unfold Qle, Qlt; cbn [Qnum Qden Qmult inject_Z]; lia.
  - by exists ds, c.
Qed.

Lemma duration_of_whole_number_witness :
  jsnum_equiv (duration_value (u "  10M ")) (Num 600000)
  ∧ duration_value (u "  10M ") = duration_value (u "10m").
Proof.
  destruct (duration_of_whole_number (u "  ") (u " ") (u "10") 77)
    as (Hv & _ & Hc & _).
  - repeat constructor.
  - repeat constructor.
  - repeat constructor.
  - discriminate.
  - simpl. lia.
  - reflexivity.
  - change (u "  " ++ u "10" ++ 77 :: u " ") with (u "  10M ") in Hv, Hc.
    split; [|exact Hc].
    destruct (duration_value (u "  10M ")) as [q|]; simpl in *; [|exact Hv].
    rewrite Hv. reflexivity.
Defined.

(** ** Computations that always resolve, and what a rejection leaves *)

Section NeverRejects.

Lemma never_ret {A} (a : A) : never_rejects (ret a).
Proof. intros w. by exists a. Qed.

Lemma never_gets {A} (f : world → A) : never_rejects (gets f).
Proof. intros w. by eexists. Qed.

Lemma never_modify (f : world → world) : never_rejects (modify f).
Proof. intros w. by eexists. Qed.

Lemma never_consult {A} (f : Env → nat → A) : never_rejects (consult f).
Proof. intros w. by eexists. Qed.

Lemma never_bind {A B} (m : M A) (f : A → M B) :
  never_rejects m → (∀ a, never_rejects (f a)) → never_rejects (bind m f).
Proof.
  intros Hm Hf w. unfold bind. destruct (Hm w) as [a Ha].
  destruct (m w) as [r w']. simpl in Ha. subst r. apply Hf.
Qed.

Lemma never_try_catch {A} (m h : M A) : never_rejects h → never_rejects (try_catch m h).
Proof.
  intros Hh w. unfold try_catch. destruct (m w) as [[a|] w']; [by exists a | apply Hh].
Qed.

Lemma never_void {A} (m : M A) : never_rejects (void m).
Proof. intros w. by eexists. Qed.

Lemma never_when (b : bool) (m : M unit) : never_rejects m → never_rejects (when b m).
Proof. intros Hm. destruct b; [done | apply never_ret]. Qed.

Lemma never_for_each {A} (xs : list A) (body : A → M unit) :
  (∀ x, never_rejects (body x)) → never_rejects (for_each xs body).
Proof.
  intros Hb. induction xs as [|x xs IH]; simpl; [apply never_ret|].
  apply never_bind; [apply Hb | by intros _].
Qed.

Lemma never_checkBinaries_loop (binaries missing : list jsstring) :
  (∀ b, never_rejects (checkBinaryExists b)) →
  never_rejects (checkBinaries_loop binaries missing).
Proof.
  intros Hb. revert missing.
  induction binaries as [|b bs IH]; intros missing; simpl; [apply never_ret|].
  apply never_bind; [apply Hb | intros x; apply IH].
Qed.

End NeverRejects.

Ltac never_step :=
  lazymatch goal with
  | |- never_rejects (ret _) => apply never_ret
  | |- never_rejects (gets _) => apply never_gets
  | |- never_rejects (modify _) => apply never_modify
  | |- never_rejects (consult _) => apply never_consult
  | |- never_rejects (try_catch _ _) => apply never_try_catch
  | |- never_rejects (void _) => apply never_void
  | |- never_rejects (when _ _) => apply never_when
  | |- never_rejects (for_each _ _) => apply never_for_each; intros ?
  | |- never_rejects (checkBinaries_loop _ _) => apply never_checkBinaries_loop; intros ?
  | |- never_rejects (bind _ _) => apply never_bind; [|intros ?]
  | |- never_rejects (match ?x with _ => _ end) => destruct x
  | |- never_rejects _ =>
      progress unfold
        logInfo, logError, logCommand, emit, isDryRun, sleep, parseDuration,
        checkBinaryExists, checkRequiredBinaries, disableInputDevices,
        enableInputDevices, getKeyboardIds, getMouseIds, getRandomLockInterval,
        getCurrentSessionId, hasTimeExpired, call_loopTask, xset_off, setSecret,
        clearSecret, binaries_gate, secret_missing, stop
  end.

Ltac never_split := repeat never_step.

Lemma rejects_within_keeps (I : world → Prop) {A} (m : M A) :
  keeps I m → rejects_within I m.
Proof. intros Hm w Hw _. by apply Hm. Qed.

Lemma rejects_within_never (I : world → Prop) {A} (m : M A) :
  never_rejects m → rejects_within I m.
Proof. intros Hm w _ Hr. destruct (Hm w) as [a Ha]. congruence. Qed.

Lemma rejects_within_bind (I : world → Prop) {A B} (m : M A) (f : A → M B) :
  keeps I m → (∀ a, rejects_within I (f a)) → rejects_within I (bind m f).
Proof.
  intros Hm Hf w Hw. unfold bind. specialize (Hm w Hw).
  destruct (m w) as [[a|] w']; simpl in *; [by apply Hf | done].
Qed.

(** Reduces [rejects_within I m] along [m]: a prefix that keeps [I], then
    a rest that cannot reject. *)
Ltac rejects_step prim :=
  lazymatch goal with
  | |- rejects_within _ (bind _ _) =>
      first [ apply rejects_within_bind; [solve [keeps_split prim] | intros ?]
            | apply rejects_within_never; solve [never_split] ]
  | |- rejects_within _ (match ?x with _ => _ end) => destruct x
  | |- rejects_within _ _ =>
      first [ apply rejects_within_keeps; solve [keeps_split prim]
            | apply rejects_within_never; solve [never_split] ]
  end.

Ltac rejects_split prim := repeat (rejects_step prim).

Ltac same_session_write :=
  let w := fresh "w" in
  let Hs := fresh "Hs" in
  intros w Hs; exact Hs.

Lemma loopTask_rejects_within (w0 : world) : rejects_within (same_session w0) loopTask.
Proof. unfold loopTask. rejects_split same_session_write. Qed.

Lemma resume_rejects_within (w0 : world) (k : cont) :
  rejects_within (same_session w0) (resume k).
Proof. unfold resume. rejects_split same_session_write. Qed.

Lemma bind_modify {B} (g : world → world) (f : unit → M B) (w : world) :
  bind (modify g) f w = f () (g w).
Proof. reflexivity. Qed.

Lemma never_binaries_gate (d : bool) : never_rejects (binaries_gate d).
Proof. never_split. Qed.

Lemma never_secret_missing : never_rejects secret_missing.
Proof. never_split. Qed.

Lemma start_rejected (w : world) :
  (start w).1 = Rejected → active (start w).2 = true ∧ same_tasks w (start w).2.
Proof.
  unfold start. rewrite (bind_resolved _ _ _ _ _ (isDryRun_spec w)).
  pose proof (binaries_gate_frame w (default false (dryRun (configuration w))) w
                (conj (session_frame_refl w) eq_refl)) as [[Hs _] _].
  destruct (never_binaries_gate (default false (dryRun (configuration w))) w) as [p Hp].
  destruct (binaries_gate _ w) as [r w1] eqn:Hg. simpl in Hp, Hs. subst r.
  rewrite (bind_resolved _ _ _ _ _ Hg).
  destruct p; cbn [negb]; [|discriminate].
  rewrite bind_gets.
  destruct (trim <$> secretStorage w1) as [[|c s]|].
  - intros Hr. destruct (never_secret_missing w1) as [a Ha]. congruence.
  - rewrite bind_gets. destruct (active w1); [discriminate|].
    rewrite bind_modify.
    destruct Hs as (_ & _ & Hc & Hat & Ht & Hsl & He & Hnt & Hnk).
    match goal with
    | |- (?m ?w2).1 = Rejected → _ =>
        cut (rejects_within (λ w', active w' = true ∧ same_tasks w w') m)
    end.
    + intros H Hr. apply H; [|exact Hr]. split; [reflexivity|].
      by repeat split.
    + rejects_split same_session_write.
  - intros Hr. destruct (never_secret_missing w1) as [a Ha]. congruence.
Qed.

(** X5: a command that cannot be spawned ends its task on the spot.  When
    [loopTask], or its continuation after a sleep, rejects, it has entered
    no sleep and created no next task, and the flag is as it was: the loop
    is over while the service still counts as active.  When [start]
    rejects, at its initial lock, the flag is set and there is no loop
    task. *)
Theorem rejection_ends_the_loop :
  (∀ w, (loopTask w).1 = Rejected → same_session w (loopTask w).2)
  ∧ (∀ k w, (resume k w).1 = Rejected → same_session w (resume k w).2)
  ∧ (∀ w, (start w).1 = Rejected →
          active (start w).2 = true ∧ same_tasks w (start w).2).
Proof.
  split; [|split].
  - intros w. apply loopTask_rejects_within, same_session_refl.
  - intros k w. apply resume_rejects_within, same_session_refl.
  - apply start_rejected.
Qed.

Lemma rejection_ends_the_loop_witness :
  same_session failing_world (loopTask failing_world).2
  ∧ same_session failing_world
      (resume (AfterLockedHold (u "pw") [9] [10] false) failing_world).2
  ∧ active (start (set_active false failing_world)).2 = true
  ∧ same_tasks (set_active false failing_world) (start (set_active false failing_world)).2.
Proof.
  destruct rejection_ends_the_loop as (Hloop & Hres & Hstart).
  split; [|split].
  - apply Hloop. vm_compute. reflexivity.
  - apply Hres. vm_compute. reflexivity.
  - apply Hstart. vm_compute. reflexivity.
Defined.

(** ** Dry-run *)

Lemma keeps_bind_isDryRun (I : world → Prop) {B} (f : bool → M B) :
  (∀ w, I w → dry w) → keeps I (f true) → keeps I (bind isDryRun f).
Proof.
  intros Hd Hf w Hw. rewrite (bind_resolved _ _ _ _ _ (isDryRun_spec w)).
  rewrite (Hd w Hw). by apply Hf.
Qed.

Ltac dry_write :=
  let w := fresh "w" in
  let Hd := fresh "Hd" in
  let He := fresh "He" in
  intros w [Hd He]; split;
  [ exact Hd
  | first [ eapply (emitted_same_trace _ _ w); [reflexivity | exact He]
          | apply emitted_emit; [reflexivity | exact He] ] ].

Ltac dry_step :=
  lazymatch goal with
  | |- keeps _ (bind isDryRun _) =>
      apply keeps_bind_isDryRun; [by intros ? [? _] | cbv beta iota]
  | |- _ => keeps_step dry_write
  end.

Ltac dry_split := repeat dry_step.

Lemma dry_stop w0 : keeps (dry_quiet w0) stop.
Proof. unfold stop. dry_split. Qed.

Lemma dry_start w0 : keeps (dry_quiet w0) start.
Proof. unfold start. dry_split. Qed.

Lemma dry_setSecret w0 : keeps (dry_quiet w0) setSecret.
Proof. dry_split. Qed.

Lemma dry_clearSecret w0 : keeps (dry_quiet w0) clearSecret.
Proof. dry_split. Qed.

Lemma dry_loopTask w0 : keeps (dry_quiet w0) loopTask.
Proof. unfold loopTask. dry_split; apply dry_stop. Qed.

Lemma dry_resume w0 k : keeps (dry_quiet w0) (resume k).
Proof. unfold resume. dry_split. Qed.

Lemma dry_step_quiet w0 w l w' :
  step w l w' → (∀ c, l = Reconfigure c → default false (dryRun c) = true) →
  dry_quiet w0 w → dry_quiet w0 w'.
Proof.
  intros Hstep Hl Hq. destruct Hstep as [w|w|w|w|w|w id Hid|w t ms k Ht Hk|w c].
  - by apply dry_start.
  - by apply dry_stop.
  - by apply dry_stop.
  - by apply dry_setSecret.
  - by apply dry_clearSecret.
  - apply dry_loopTask. destruct Hq as [Hd He]. by split.
  - apply dry_resume. destruct Hq as [Hd He]. by split.
  - destruct Hq as [Hd He]. split; [|done]. by apply (Hl c).
Qed.

Lemma dry_run_quiet w0 w ls w' :
  run w ls w' → (∀ c, Reconfigure c ∈ ls → default false (dryRun c) = true) →
  dry_quiet w0 w → dry_quiet w0 w'.
Proof.
  induction 1 as [w|w l w1 ls w2 Hstep _ IH]; intros Hls Hq; [done|].
  apply IH.
  - intros c Hin. apply Hls. by right.
  - apply (dry_step_quiet w0 w l w1 Hstep); [|done].
    intros c ->. apply Hls. by left.
Qed.

(** X6: in dry-run nothing is executed.  Along any run of the service
    that starts in dry-run and in which every change of the configuration
    keeps dry-run on, no process is spawned, whatever is called and
    whichever timeout fires. *)
Theorem dry_run_spawns_nothing (w : world) (ls : list label) (w' : world) :
  run w ls w' → dry w →
  (∀ c, Reconfigure c ∈ ls → default false (dryRun c) = true) →
  dry w' ∧ emitted (λ e, is_spawn e = false) w w'.
Proof.
  intros Hrun Hd Hls. apply (dry_run_quiet w w ls w' Hrun Hls).
  split; [done | apply emitted_refl].
Qed.

Lemma dry_run_spawns_nothing_witness :
  dry locked_hold_world
  ∧ emitted (λ e, is_spawn e = false) dry_world locked_hold_world.
Proof.
  apply (dry_run_spawns_nothing dry_world [CallStart; Enter 0%nat]).
  - eapply run_cons; [apply step_start|].
    eapply run_cons; [|apply run_nil].
    apply step_enter. vm_compute. reflexivity.
  - reflexivity.
  - intros c Hin.
    repeat (apply elem_of_cons in Hin as [Hin|Hin]; [discriminate Hin|]).
    by apply elem_of_nil in Hin.
Defined.

(** ** The set of active timeouts *)

Ltac tracked_write :=
  let w := fresh "w" in
  let Ha := fresh "Ha" in
  let Hs := fresh "Hs" in
  let t := fresh "t" in
  let Ht := fresh "Ht" in
  intros w [Ha Hs]; split; simpl;
  [ first [ exact Ha | set_solver ]
  | first [ exact Hs
          | intros t Ht; destruct (decide (t = next_timer w)) as [->|];
            [ rewrite lookup_insert_eq; by eexists
            | rewrite lookup_insert_ne by done; apply Hs; set_solver ]
          | intros t Ht; apply Hs; set_solver ] ].

Lemma tracked_stop : keeps timers_tracked stop.
Proof.
  intros w [Ha Hs]. rewrite stop_spec. split; simpl; [set_solver|].
  intros t Ht. apply Hs. set_solver.
Qed.

Lemma tracked_start : keeps timers_tracked start.
Proof. unfold start. keeps_split tracked_write. Qed.

Lemma tracked_setSecret : keeps timers_tracked setSecret.
Proof. keeps_split tracked_write. Qed.

Lemma tracked_clearSecret : keeps timers_tracked clearSecret.
Proof. keeps_split tracked_write. Qed.

Lemma tracked_loopTask : keeps timers_tracked loopTask.
Proof. unfold loopTask. keeps_split tracked_write; apply tracked_stop. Qed.

Lemma tracked_resume k : keeps timers_tracked (resume k).
Proof. unfold resume. keeps_split tracked_write. Qed.

Lemma tracked_step w l w' : step w l w' → timers_tracked w → timers_tracked w'.
Proof.
  intros Hstep Hr. destruct Hstep as [w|w|w|w|w|w id Hid|w t' ms k Ht' Hk|w c].
  - by apply tracked_start.
  - by apply tracked_stop.
  - by apply tracked_stop.
  - by apply tracked_setSecret.
  - by apply tracked_clearSecret.
  - apply tracked_loopTask. destruct Hr as [Ha Hs]. by split.
  - apply tracked_resume. destruct Hr as [Ha Hs]. split; simpl; [set_solver|].
    intros t Ht. apply elem_of_difference in Ht as [Ht Hne].
    rewrite lookup_delete_ne by set_solver. by apply Hs.
  - destruct Hr as [Ha Hs]. by split.
Qed.

Lemma tracked_run w ls w' : run w ls w' → timers_tracked w → timers_tracked w'.
Proof.
  induction 1 as [w|w l w1 ls w2 Hstep _ IH]; intros Hr; [done|].
  apply IH. by apply (tracked_step w l).
Qed.

(** X7: the set of active timeouts is exact.  In every reachable world
    it holds the timeouts that are armed and no others; each of them has
    a task waiting in its sleep, and each was handed out before. *)
Theorem activeTimeouts_exact (w : world) :
  reachable w →
  activeTimeouts w = timers w
  ∧ (∀ t, t ∈ activeTimeouts w → sleep_pending t w)
  ∧ (∀ t, t ∈ activeTimeouts w → (t < next_timer w)%nat).
Proof.
  intros Hreach.
  destruct (reachable_registered w Hreach) as (Hsub & Hlt & _).
  destruct Hreach as (c & stored & e & ls & Hrun).
  destruct (tracked_run _ _ _ Hrun) as [Ha Hs].
  { split; [done|]. intros t Ht. simpl in Ht. set_solver. }
  assert (Heq : activeTimeouts w = timers w) by set_solver.
  split; [done|]. rewrite Heq. split; [exact Hs | exact Hlt].
Qed.

Lemma activeTimeouts_exact_witness :
  activeTimeouts locked_hold_world = timers locked_hold_world
  ∧ (∀ t, t ∈ activeTimeouts locked_hold_world → sleep_pending t locked_hold_world)
  ∧ (∀ t, t ∈ activeTimeouts locked_hold_world → (t < next_timer locked_hold_world)%nat).
Proof.
  apply (activeTimeouts_exact locked_hold_world).
  exists (Config (Some true) None (Some (u "10m")) (Some (u "10m"))),
    (Some (u "pw")), silent_env, [CallStart; Enter 0%nat].
  eapply run_cons; [apply step_start|].
  eapply run_cons; [|apply run_nil].
  apply step_enter. vm_compute. reflexivity.
Defined.

(** ** Stopping twice, and the service at rest *)

(** X8: [stop] is idempotent.  A second [stop], or [dispose], resolves
    and changes nothing but the log, where it reports no timeout to clear
    and no task to drop. *)
Theorem stop_twice (w : world) :
  stop (stop w).2
  = (Resolved (), set_trace (trace (stop w).2 ++ stop_again_log) (stop w).2)
  ∧ dispose (stop w).2 = stop (stop w).2
  ∧ dispose (dispose w).2 = stop (stop w).2.
Proof.
  split; [|split]; [|reflexivity|reflexivity].
  rewrite !stop_spec. unfold stopped at 1. unfold stop_log at 1. simpl.
  rewrite difference_empty_L. reflexivity.
Qed.

Lemma loopTask_inactive (w : world) : active w = false → loopTask w = (Resolved (), w).
Proof.
  intros Ha. unfold loopTask. rewrite !bind_gets, Ha.
  by destruct (trim <$> secretStorage w) as [[|? ?]|].
Qed.

Ltac rest_write :=
  let w := fresh "w" in
  let Ha := fresh "Ha" in
  let Ht := fresh "Ht" in
  let He := fresh "He" in
  intros w (Ha & Ht & He); split; [exact Ha | split; [exact Ht|]];
  first [ eapply (emitted_same_trace _ _ w); [reflexivity | exact He]
        | apply emitted_emit; [reflexivity | exact He] ].

Lemma rest_setSecret w0 : keeps (at_rest w0) setSecret.
Proof. keeps_split rest_write. Qed.

Lemma rest_clearSecret w0 : keeps (at_rest w0) clearSecret.
Proof. keeps_split rest_write. Qed.

Lemma rest_stop w0 : keeps (at_rest w0) stop.
Proof.
  intros w (Ha & Ht & He). rewrite stop_spec. split; [done|]. split.
  - simpl. rewrite Ht. set_solver.
  - apply (emitted_trans _ _ w); [done|].
    pose proof (stop_emits_no_command w) as H. by rewrite stop_spec in H.
Qed.

Lemma rest_step w0 w l w' :
  step w l w' → l ≠ CallStart → at_rest w0 w → at_rest w0 w'.
Proof.
  intros Hstep Hl Hr. destruct Hstep as [w|w|w|w|w|w id Hid|w t ms k Ht Hk|w c].
  - done.
  - by apply rest_stop.
  - by apply rest_stop.
  - by apply rest_setSecret.
  - by apply rest_clearSecret.
  - unfold enter. rewrite loopTask_inactive; [|by destruct Hr].
    destruct Hr as (Ha & Ht & He). by split.
  - destruct Hr as (_ & Ht' & _). rewrite Ht' in Ht. set_solver.
  - destruct Hr as (Ha & Ht & He). by split.
Qed.

Lemma rest_run w0 w ls w' :
  run w ls w' → CallStart ∉ ls → at_rest w0 w → at_rest w0 w'.
Proof.
  induction 1 as [w|w l w1 ls w2 Hstep _ IH]; intros Hls Hr; [done|].
  apply not_elem_of_cons in Hls as [Hl Hls].
  apply IH; [done|]. apply (rest_step w0 w l w1 Hstep); [congruence | done].
Qed.

(** X9: [stop] stops everything.  From a reachable world, where each
    loop task waits in a timed sleep or has not begun its body, after
    [stop] and until [start] is called again, whatever else happens (loop
    tasks created earlier that only now run their body, timeouts, further
    calls, changes of the settings), the flag stays clear, no timeout is
    armed and no command is run. *)
Theorem nothing_runs_after_stop (w : world) (ls : list label) (w' : world) :
  reachable w → run (stop w).2 ls w' → CallStart ∉ ls →
  active w' = false ∧ timers w' = ∅ ∧ emitted (λ e, is_command e = false) w w'.
Proof.
  intros Hreach Hrun Hls.
  assert (H0 : at_rest w (stop w).2).
  { destruct (reachable_registered w Hreach) as (Hsub & _).
    split; [by rewrite stop_spec|]. split.
    - rewrite stop_spec. simpl. set_solver.
    - apply stop_emits_no_command. }
  apply (rest_run w _ _ _ Hrun Hls H0).
Qed.

Lemma nothing_runs_after_stop_witness :
  let w' := enter 0 (set_configuration (Config None None None None)
                       (stop (start dry_world).2).2) in
  active w' = false ∧ timers w' = ∅
  ∧ emitted (λ e, is_command e = false) (start dry_world).2 w'.
Proof.
  apply (nothing_runs_after_stop (start dry_world).2
           [Reconfigure (Config None None None None); Enter 0%nat]).
  - exists (Config (Some true) None (Some (u "10m")) (Some (u "10m"))),
      (Some (u "pw")), silent_env, [CallStart].
    eapply run_cons; [apply step_start | apply run_nil].
  - eapply run_cons; [apply step_reconfigure|].
    eapply run_cons; [|apply run_nil].
    apply step_enter. vm_compute. reflexivity.
  - intros Hin.
    repeat (apply elem_of_cons in Hin as [Hin|Hin]; [discriminate Hin|]).
    by apply elem_of_nil in Hin.
Defined.

(** ** Best-effort helpers *)

Lemma same_state_refl (w : world) : same_state w w.
Proof. split; [apply same_session_refl | done]. Qed.

Lemma same_state_trans (w0 w1 w2 : world) :
  same_state w0 w1 → same_state w1 w2 → same_state w0 w2.
Proof.
  unfold same_state, same_session. intros H1 H2.
  destruct_and!. repeat split; congruence.
Qed.

(** A command whose failure is ignored: the event, and nothing else that
    lasts. *)
Lemma ignored_command (cmd : jsstring) (args : list jsstring) (w : world) :
  ∃ w', try_catch (runCommandAsync cmd args) (ret ()) w = (Resolved (), w')
        ∧ trace w' = trace w
            ++ [command_event (default false (dryRun (configuration w))) cmd args]
        ∧ same_state w w'.
Proof.
  unfold try_catch, runCommandAsync.
  rewrite (bind_resolved _ _ _ _ _ (isDryRun_spec w)).
  destruct (default false (dryRun (configuration w))) eqn:Hd.
  - eexists. split; [reflexivity|]. split; [reflexivity | by repeat split].
  - unfold bind, emit, modify, consult. simpl.
    destruct (env_spawn (env w) (ticks w)); simpl;
      (eexists; split; [reflexivity|]; split; [reflexivity | by repeat split]).
Qed.

Lemma ignored_commands (cmd : jsstring) (args : N → list jsstring) (ids : list N) (w : world) :
  ∃ w', for_each ids (λ id : N, try_catch (runCommandAsync cmd (args id)) (ret ())) w
        = (Resolved (), w')
        ∧ trace w' = trace w
            ++ map (λ id, command_event (default false (dryRun (configuration w)))
                            cmd (args id)) ids
        ∧ same_state w w'.
Proof.
  revert w. induction ids as [|id ids IH]; intros w.
  - exists w. split; [reflexivity|]. split; [by rewrite app_nil_r | apply same_state_refl].
  - destruct (ignored_command cmd (args id) w) as (w1 & H1 & Ht1 & Hs1).
    destruct (IH w1) as (w2 & H2 & Ht2 & Hs2).
    exists w2. split; [|split].
    + cbn [for_each]. by rewrite (bind_resolved _ _ _ _ _ H1).
    + rewrite Ht2, Ht1. destruct Hs1 as (_ & _ & _ & -> & _).
      by rewrite <- app_assoc.
    + by apply (same_state_trans w w1 w2).
Qed.

(** X10: the device toggles are best effort.  [disableInputDevices] and
    [enableInputDevices] run one command per id, in the order of the
    list, whether or not any of them can be spawned; they always resolve
    and change nothing else. *)
Theorem device_toggles_best_effort (ids : list N) (w : world) :
  ((disableInputDevices ids w).1 = Resolved ()
   ∧ trace (disableInputDevices ids w).2
     = trace w ++ map (λ id, command_event (default false (dryRun (configuration w)))
                               XINPUT_CMD [u "disable"; toString id]) ids
   ∧ same_state w (disableInputDevices ids w).2)
  ∧ ((enableInputDevices ids w).1 = Resolved ()
     ∧ trace (enableInputDevices ids w).2
       = trace w ++ map (λ id, command_event (default false (dryRun (configuration w)))
                                 XINPUT_CMD [u "enable"; toString id]) ids
     ∧ same_state w (enableInputDevices ids w).2).
Proof.
  split.
  - destruct (ignored_commands XINPUT_CMD (λ id, [u "disable"; toString id]) ids w)
      as (w' & H & Ht & Hs).
    unfold disableInputDevices. by rewrite H.
  - destruct (ignored_commands XINPUT_CMD (λ id, [u "enable"; toString id]) ids w)
      as (w' & H & Ht & Hs).
    unfold enableInputDevices. by rewrite H.
Qed.

Lemma never_getKeyboardIds : never_rejects getKeyboardIds.
Proof. never_split. Qed.

Lemma never_getMouseIds : never_rejects getMouseIds.
Proof. never_split. Qed.

(** X11: a listing that fails means no devices.  [getKeyboardIds] and
    [getMouseIds] never reject; when the listing command fails (outside
    dry-run), each logs its error, returns the empty list, and changes
    nothing else. *)
Theorem enumeration_failure_is_empty (w : world) :
  (∃ ids, (getKeyboardIds w).1 = Resolved ids)
  ∧ (∃ ids, (getMouseIds w).1 = Resolved ids)
  ∧ (default false (dryRun (configuration w)) = false →
     env_stdout (env w) (ticks w) = None →
     ((getKeyboardIds w).1 = Resolved []
      ∧ trace (getKeyboardIds w).2
        = trace w ++ [Spawn XINPUT_CMD [u "list"]; LogError ErrorGettingKeyboardIds]
      ∧ same_state w (getKeyboardIds w).2)
     ∧ ((getMouseIds w).1 = Resolved []
        ∧ trace (getMouseIds w).2
          = trace w ++ [Spawn XINPUT_CMD [u "list"]; LogError ErrorGettingMouseIds]
        ∧ same_state w (getMouseIds w).2)).
Proof.
  split; [apply never_getKeyboardIds|]. split; [apply never_getMouseIds|].
  intros Hd Hout.
  assert (Hexec : execAndWaitForOutput XINPUT_CMD [u "list"] w
                  = (Rejected, set_ticks (S (ticks w))
                                 (set_trace (trace w ++ [Spawn XINPUT_CMD [u "list"]]) w))).
  { unfold execAndWaitForOutput. rewrite (bind_resolved _ _ _ _ _ (isDryRun_spec w)), Hd.
    unfold bind, emit, modify, consult. simpl. by rewrite Hout. }
  split.
  - unfold getKeyboardIds, try_catch. rewrite (bind_rejected _ _ _ _ Hexec).
    split; [reflexivity|]. split; [|by repeat split].
    simpl. by rewrite <- app_assoc.
  - unfold getMouseIds, try_catch. rewrite (bind_rejected _ _ _ _ Hexec).
    split; [reflexivity|]. split; [|by repeat split].
    simpl. by rewrite <- app_assoc.
Qed.

Lemma enumeration_failure_is_empty_witness :
  let w := initial (Config None None None None) None silent_env in
  (getKeyboardIds w).1 = Resolved []
  ∧ trace (getKeyboardIds w).2
    = trace w ++ [Spawn XINPUT_CMD [u "list"]; LogError ErrorGettingKeyboardIds].
Proof.
  intros w.
  destruct (enumeration_failure_is_empty w) as (_ & _ & H).
  destruct H as [(Hr & Ht & _) _]; [reflexivity | reflexivity |].
  split; [exact Hr | exact Ht].
Defined.

(** ** The session id *)

Lemma trimEnd_prefix (t : jsstring) : ∃ suffix, t = trimEnd t ++ suffix.
Proof.
  unfold trimEnd, trimStart.
  exists (reverse (take_while is_js_whitespace (reverse t))).
  rewrite <- reverse_app, take_drop_while. by rewrite reverse_involutive.
Qed.

(** What [trim] leaves does not start with a blank. *)
Lemma trim_head (s : jsstring) (c : N) (r : jsstring) :
  trim s = c :: r → is_js_whitespace c = false.
Proof.
  unfold trim. intros Ht.
  destruct (trimEnd_prefix (trimStart s)) as [suffix Hs].
  rewrite Ht in Hs. unfold trimStart in Hs.
  pose proof (drop_while_head is_js_whitespace s) as Hh.
  by rewrite Hs in Hh.
Qed.

Lemma first_session_field_spec (lines : list jsstring) :
  match first_session_field lines with
  | Some id => id ≠ [] ∧ Forall (λ c, is_js_whitespace c = false) id
  | None => Forall (λ line, trim line = []) lines
  end.
Proof.
  induction lines as [|line lines IH]; simpl; [constructor|].
  destruct (trim line) as [|c r] eqn:Ht.
  - destruct (first_session_field lines); [done | by constructor].
  - pose proof (trim_head line c r Ht) as Hc. simpl. rewrite Hc. simpl. split; [done|].
    constructor; [done|].
    pose proof (take_while_Forall (λ c, negb (is_js_whitespace c)) r) as Hf.
    eapply Forall_impl; [exact Hf|]. intros x Hx. by apply negb_true_iff.
Qed.

Lemma never_getCurrentSessionId : never_rejects getCurrentSessionId.
Proof. never_split. Qed.

Lemma getCurrentSessionId_id (w : world) (id : jsstring) :
  (getCurrentSessionId w).1 = Resolved (Some id) →
  id ≠ [] ∧ Forall (λ c, is_js_whitespace c = false) id.
Proof.
  unfold getCurrentSessionId, try_catch.
  destruct (execAndWaitForOutput LOGINCTL_CMD [u "list-sessions"; u "--no-legend"] w)
    as [[out|] w1] eqn:He.
  - rewrite (bind_resolved _ _ _ _ _ He). unfold logInfo, logError. rewrite bind_emit.
    pose proof (first_session_field_spec (split_lines out)) as Hf.
    destruct (first_session_field (split_lines out)) as [id'|].
    + rewrite bind_emit. simpl. by intros [= <-].
    + rewrite bind_emit. simpl. discriminate.
  - rewrite (bind_rejected _ _ _ _ He). unfold logError. rewrite bind_emit.
    simpl. discriminate.
Qed.

(** X12: the session to terminate.  [getCurrentSessionId] never rejects,
    and an id it returns is non-empty and free of blanks.  When the
    listing command fails (outside dry-run), [terminateSession] logs that
    and resolves without running a terminate command. *)
Theorem session_id_is_a_field (w : world) :
  (∃ r, (getCurrentSessionId w).1 = Resolved r)
  ∧ (∀ id, (getCurrentSessionId w).1 = Resolved (Some id) →
           id ≠ [] ∧ Forall (λ c, is_js_whitespace c = false) id)
  ∧ (default false (dryRun (configuration w)) = false →
     env_stdout (env w) (ticks w) = None →
     (terminateSession w).1 = Resolved ()
     ∧ trace (terminateSession w).2
       = trace w ++ [Spawn LOGINCTL_CMD [u "list-sessions"; u "--no-legend"];
                     LogError LoginctlError; LogError NoSessionIdForLogout]
     ∧ same_state w (terminateSession w).2).
Proof.
  split; [apply never_getCurrentSessionId|].
  split; [apply getCurrentSessionId_id|].
  intros Hd Hout.
  assert (Hexec : execAndWaitForOutput LOGINCTL_CMD [u "list-sessions"; u "--no-legend"] w
                  = (Rejected, set_ticks (S (ticks w))
                       (set_trace (trace w
                          ++ [Spawn LOGINCTL_CMD [u "list-sessions"; u "--no-legend"]]) w))).
  { unfold execAndWaitForOutput. rewrite (bind_resolved _ _ _ _ _ (isDryRun_spec w)), Hd.
    unfold bind, emit, modify, consult. simpl. by rewrite Hout. }
  assert (Hget : getCurrentSessionId w
                 = (Resolved None,
                    set_trace (trace w
                       ++ [Spawn LOGINCTL_CMD [u "list-sessions"; u "--no-legend"];
                           LogError LoginctlError])
                      (set_ticks (S (ticks w)) w))).
  { unfold getCurrentSessionId, try_catch. rewrite (bind_rejected _ _ _ _ Hexec).
    unfold logError. rewrite bind_emit. unfold ret, set_trace, set_ticks. simpl.
    by rewrite <- app_assoc. }
  unfold terminateSession. rewrite (bind_resolved _ _ _ _ _ Hget).
  split; [reflexivity|]. split; [|by repeat split].
  simpl. by rewrite <- !app_assoc.
Qed.

Lemma session_id_is_a_field_witness :
  let w := initial (Config None None None None) None silent_env in
  (terminateSession w).1 = Resolved ()
  ∧ trace (terminateSession w).2
    = trace w ++ [Spawn LOGINCTL_CMD [u "list-sessions"; u "--no-legend"];
                  LogError LoginctlError; LogError NoSessionIdForLogout]
  ∧ (∀ id, (getCurrentSessionId dry_world).1 = Resolved (Some id) →
           id ≠ [] ∧ Forall (λ c, is_js_whitespace c = false) id).
Proof.
  intros w.
  destruct (session_id_is_a_field w) as (_ & _ & H).
  destruct H as (Hr & Ht & _); [reflexivity | reflexivity |].
  split; [exact Hr|]. split; [exact Ht|].
  destruct (session_id_is_a_field dry_world) as (_ & Hid & _). exact Hid.
Defined.

(** ** The required binaries *)

Lemma not_found_env (w w' : world) (k : nat) (binaries : list jsstring) :
  env w' = env w → not_found w' k binaries = not_found w k binaries.
Proof.
  intros He. revert k. induction binaries as [|b bs IH]; intros k; simpl; [done|].
  unfold probe_finds. rewrite He, !IH. done.
Qed.

Lemma execAndWaitForOutput_real (cmd : jsstring) (args : list jsstring) (w : world) :
  default false (dryRun (configuration w)) = false →
  execAndWaitForOutput cmd args w
  = (match env_stdout (env w) (ticks w) with
     | Some out => Resolved out
     | None => Rejected
     end,
     set_ticks (S (ticks w)) (set_trace (trace w ++ [Spawn cmd args]) w)).
Proof.
  intros Hd. unfold execAndWaitForOutput.
  rewrite (bind_resolved _ _ _ _ _ (isDryRun_spec w)), Hd.
  unfold bind, emit, modify, consult. simpl.
  by destruct (env_stdout (env w) (ticks w)).
Qed.

Lemma checkBinaryExists_real (b : jsstring) (w : world) :
  default false (dryRun (configuration w)) = false →
  ∃ w', checkBinaryExists b w = (Resolved (probe_finds w (ticks w)), w')
        ∧ ticks w' = S (ticks w) ∧ same_state w w'.
Proof.
  intros Hd. unfold checkBinaryExists, probe_finds.
  rewrite (bind_resolved _ _ _ _ _ (isDryRun_spec w)), Hd.
  unfold try_catch, bind. rewrite (execAndWaitForOutput_real _ _ w Hd).
  destruct (env_stdout (env w) (ticks w)); simpl;
    (eexists; split; [reflexivity|]; split; [reflexivity | by repeat split]).
Qed.

Lemma checkBinaries_loop_real (binaries missing : list jsstring) (w : world) :
  default false (dryRun (configuration w)) = false →
  (checkBinaries_loop binaries missing w).1
  = Resolved (missing ++ not_found w (ticks w) binaries).
Proof.
  revert missing w. induction binaries as [|b bs IH]; intros missing w Hd; simpl.
  - by rewrite app_nil_r.
  - destruct (checkBinaryExists_real b w Hd) as (w1 & H1 & Ht & Hs).
    rewrite (bind_resolved _ _ _ _ _ H1).
    destruct Hs as (_ & _ & _ & Hc & He).
    rewrite IH by (by rewrite Hc). rewrite Ht, (not_found_env w w1) by done.
    destruct (probe_finds w (ticks w)); [done|]. by rewrite <- app_assoc.
Qed.

Lemma checkBinaryExists_dry (b : jsstring) (w : world) :
  dry w →
  checkBinaryExists b w
  = (Resolved true, set_trace (trace w ++ [LogInfo (WouldExecute (u "which") [b])]) w).
Proof.
  intros Hd. unfold checkBinaryExists.
  rewrite (bind_resolved _ _ _ _ _ (isDryRun_spec w)), Hd. reflexivity.
Qed.

Lemma checkBinaries_loop_dry (binaries missing : list jsstring) (w : world) :
  dry w → (checkBinaries_loop binaries missing w).1 = Resolved missing.
Proof.
  revert w. induction binaries as [|b bs IH]; intros w Hd; simpl; [done|].
  rewrite (bind_resolved _ _ _ _ _ (checkBinaryExists_dry b w Hd)).
  by apply IH.
Qed.

Lemma not_found_sublist (w : world) (k : nat) (binaries : list jsstring) :
  sublist (not_found w k binaries) binaries.
Proof.
  revert k. induction binaries as [|b bs IH]; intros k; simpl; [constructor|].
  destruct (probe_finds w k); [by apply sublist_cons | by apply sublist_skip].
Qed.

(** X13: what the check of the binaries reports.  In dry-run every
    binary counts as present.  Otherwise the binaries reported missing
    are, in order, those whose probe fails or prints only blanks, and all
    count as present exactly when none is missing. *)
Theorem checkRequiredBinaries_report (w : world) :
  (dry w → (checkRequiredBinaries w).1 = Resolved (true, []))
  ∧ (default false (dryRun (configuration w)) = false →
     (checkRequiredBinaries w).1
     = Resolved (bool_decide (not_found w (ticks w) REQUIRED_BINARIES = []),
                 not_found w (ticks w) REQUIRED_BINARIES))
  ∧ sublist (not_found w (ticks w) REQUIRED_BINARIES) REQUIRED_BINARIES.
Proof.
  split; [|split].
  - intros Hd. unfold checkRequiredBinaries.
    pose proof (checkBinaries_loop_dry REQUIRED_BINARIES [] w Hd) as H.
    destruct (checkBinaries_loop REQUIRED_BINARIES [] w) as [r w1] eqn:E.
    simpl in H. subst r. by rewrite (bind_resolved _ _ _ _ _ E).
  - intros Hd. unfold checkRequiredBinaries.
    pose proof (checkBinaries_loop_real REQUIRED_BINARIES [] w Hd) as H.
    destruct (checkBinaries_loop REQUIRED_BINARIES [] w) as [r w1] eqn:E.
    cbn [fst] in H. subst r. rewrite (bind_resolved _ _ _ _ _ E).
    generalize (not_found w (ticks w) REQUIRED_BINARIES). intros nf.
    unfold ret. cbn [fst app]. f_equal. f_equal. apply bool_decide_ext.
    destruct nf; [done|]. split; intros H; discriminate H.
  - apply not_found_sublist.
Qed.

Lemma checkRequiredBinaries_report_witness :
  let e := MkEnv (λ _, true)
             (λ k, if (k =? 1)%nat then None else Some (u "/usr/bin/x"))
             (λ _, 0%Q) (λ _, 0%Z) (λ _, None) (λ _, None) in
  (checkRequiredBinaries dry_world).1 = Resolved (true, [])
  ∧ (checkRequiredBinaries (initial (Config None None None None) None e)).1
    = Resolved (false, [u "xdotool"]).
Proof.
  intros e. split.
  - apply (checkRequiredBinaries_report dry_world). reflexivity.
  - destruct (checkRequiredBinaries_report (initial (Config None None None None) None e))
      as (_ & H & _).
    rewrite H by reflexivity. reflexivity.
Defined.

(** ** Starting a session *)

Lemma bind_consult {A B} (g : Env → nat → A) (f : A → M B) (w : world) :
  bind (consult g) f w = f (g (env w) (ticks w)) (set_ticks (S (ticks w)) w).
Proof. reflexivity. Qed.

Lemma bind_assoc {A B C} (m : M A) (f : A → M B) (g : B → M C) (w : world) :
  bind (bind m f) g w = bind m (λ a, bind (f a) g) w.
Proof. unfold bind. by destruct (m w) as [[a|] w']. Qed.

Lemma bind_ret {A B} (a : A) (f : A → M B) (w : world) : bind (ret a) f w = f a w.
Proof. reflexivity. Qed.

Ltac world_fields :=
  cbn [active currentLoopTask requiredBinariesChecked activeTimeouts startTime
       secretStorage configuration timers sleepers entering next_timer next_task
       env ticks trace
       set_active set_currentLoopTask set_requiredBinariesChecked
       set_activeTimeouts set_startTime set_secretStorage set_configuration
       set_timers set_sleepers set_entering set_next_timer set_next_task
       set_env set_ticks set_trace fst snd].

Tactic Notation "world_fields" "in" hyp(H) :=
  cbn [active currentLoopTask requiredBinariesChecked activeTimeouts startTime
       secretStorage configuration timers sleepers entering next_timer next_task
       env ticks trace
       set_active set_currentLoopTask set_requiredBinariesChecked
       set_activeTimeouts set_startTime set_secretStorage set_configuration
       set_timers set_sleepers set_entering set_next_timer set_next_task
       set_env set_ticks set_trace fst snd] in H.

Ltac gate_frame_write :=
  let w := fresh "w" in
  let H := fresh "H" in
  let Hsec := fresh "Hsec" in
  let Hc := fresh "Hc" in
  let He := fresh "He" in
  intros w (H & Hsec & Hc & He);
  split; [revert w H Hsec Hc He; intros w H _ _ _; revert w H; session_write|];
  split; [exact Hsec|]; split; [exact Hc | exact He].

Lemma binaries_gate_gate_frame (w0 : world) (d : bool) :
  keeps (gate_frame w0) (binaries_gate d).
Proof. keeps_split gate_frame_write. Qed.

Lemma gate_frame_refl (w : world) : gate_frame w w.
Proof. split; [apply session_frame_refl | done]. Qed.

Lemma binaries_gate_checked (w : world) (d : bool) :
  requiredBinariesChecked w = true → binaries_gate d w = (Resolved true, w).
Proof. intros H. unfold binaries_gate. by rewrite bind_gets, H. Qed.

(** The log of [parseDuration] holds no command. *)
Lemma after_parse_spec (s : jsstring) (w : world) :
  ∃ new, after_parse s w = set_trace (trace w ++ new) w
         ∧ Forall (λ e, is_command e = false) new.
Proof.
  unfold after_parse. destruct (match_duration (trim s)).
  - exists []. split; [|constructor]. destruct w. unfold set_trace. simpl.
    by rewrite app_nil_r.
  - eexists. split; [reflexivity|]. by repeat constructor.
Qed.

Lemma runCommandAsync_dry (cmd : jsstring) (args : list jsstring) (w : world) :
  dry w →
  runCommandAsync cmd args w
  = (Resolved (), set_trace (trace w ++ [LogInfo (WouldExecute cmd args)]) w).
Proof.
  intros Hd. unfold runCommandAsync.
  rewrite (bind_resolved _ _ _ _ _ (isDryRun_spec w)), Hd. reflexivity.
Qed.

Lemma runCommandAsync_real (cmd : jsstring) (args : list jsstring) (w : world) :
  default false (dryRun (configuration w)) = false →
  runCommandAsync cmd args w
  = (if env_spawn (env w) (ticks w) then Resolved () else Rejected,
     set_ticks (S (ticks w)) (set_trace (trace w ++ [Spawn cmd args]) w)).
Proof.
  intros Hd. unfold runCommandAsync.
  rewrite (bind_resolved _ _ _ _ _ (isDryRun_spec w)), Hd.
  unfold bind, emit, modify, consult. simpl.
  by destruct (env_spawn (env w) (ticks w)).
Qed.

(** An awaited command: its event, and whether it resolves. *)
Lemma runCommandAsync_cases (cmd : jsstring) (args : list jsstring) (w : world) :
  ∃ r w', runCommandAsync cmd args w = (r, w')
          ∧ trace w' = trace w
              ++ [command_event (default false (dryRun (configuration w))) cmd args]
          ∧ same_state w w'
          ∧ ((dry w ∨ ∀ k, env_spawn (env w) k = true) → r = Resolved ()).
Proof.
  destruct (default false (dryRun (configuration w))) eqn:Hd.
  - rewrite (runCommandAsync_dry cmd args w Hd). eexists _, _.
    split; [reflexivity|]. split; [reflexivity|]. split; [by repeat split | done].
  - rewrite (runCommandAsync_real cmd args w Hd). eexists _, _.
    split; [reflexivity|]. split; [reflexivity|]. split; [by repeat split|].
    intros [Hdry | Hsp]; [unfold dry in Hdry; congruence | by rewrite Hsp].
Qed.

Lemma lock_is_command (e : event) : is_command e = false → is_lock_action e = false.
Proof. by destruct e as [| [] | | | |]. Qed.

(** Closes [Forall P l] for a list put together from lists known to
    satisfy [P] and from events that satisfy it by computation. *)
Ltac forall_events :=
  repeat first
    [ assumption
    | apply Forall_nil_2
    | apply Forall_app_2
    | apply Forall_cons_2; [reflexivity|]
    | match goal with |- context [bool_decide ?P] => destruct (bool_decide P) end ].

(** [start] up to its validation of the intervals. *)
Ltac start_prefix w w1 Hg Hsec Ha Hc :=
  unfold start;
  rewrite (bind_resolved _ _ _ _ _ (isDryRun_spec w));
  rewrite (bind_resolved _ _ _ _ _ Hg); cbn [negb];
  rewrite bind_gets, Hsec, bind_gets, Ha;
  rewrite bind_modify, bind_consult, bind_modify, bind_gets;
  world_fields; rewrite Hc;
  rewrite (bind_resolved _ _ _ _ _ (parseDuration_run _ _));
  rewrite (bind_resolved _ _ _ _ _ (parseDuration_run _ _)).

Lemma start_invalid_from (w w1 : world) (c : N) (s : jsstring) :
  binaries_gate (default false (dryRun (configuration w))) w = (Resolved true, w1) →
  active w1 = false → trim <$> secretStorage w1 = Some (c :: s) →
  configuration w1 = configuration w →
  valid (configured_validation (configuration w)) = false →
  (start w).1 = Resolved ()
  ∧ active (start w).2 = true
  ∧ same_tasks w1 (start w).2
  ∧ emitted (λ e, is_lock_action e = false) w1 (start w).2
  ∧ last (trace (start w).2)
    = Some (ShowError (CannotStart (error (configured_validation (configuration w))))).
Proof.
  intros Hg Ha Hsec Hc Hv.
  start_prefix w w1 Hg Hsec Ha Hc.
  fold (configured_min (configuration w)) (configured_max (configuration w)).
  fold (configured_validation (configuration w)). rewrite Hv. cbn [negb].
  match goal with
  | |- context [after_parse ?s2 (after_parse ?s1 ?w0)] =>
      destruct (after_parse_spec s1 w0) as (n1 & -> & Hn1);
      destruct (after_parse_spec s2 (set_trace (trace w0 ++ n1) w0)) as (n2 & -> & Hn2)
  end.
  unfold emit, modify. world_fields.
  split; [reflexivity|]. split; [reflexivity|]. split; [by repeat split|]. split.
  - exists (n1 ++ n2 ++ [ShowError (CannotStart (error (configured_validation (configuration w))))]).
    split; [by rewrite <- !app_assoc|].
    repeat apply Forall_app_2; [| |by repeat constructor];
      (eapply Forall_impl; [eassumption | exact lock_is_command]).
  - by rewrite last_snoc.
Qed.

(** Shows a concrete setting to be a whole number [ds] with unit [c]. *)
Ltac show_whole ds c :=
  left; exists ds, c;
  split; [reflexivity|]; split; [discriminate|]; split; [simpl; lia|];
  split; [repeat constructor | reflexivity].

(** X14: a start that fails on the intervals blocks the next one.  With
    the check of the binaries passed and a secret stored, [start] on a
    stopped service whose configured intervals, given as durations that
    are computed without rounding, are not valid reports the reason and
    returns with the flag set: no lock command is run, no loop task is
    created, and no timeout is armed.  From then on [start] finds the
    flag set and does nothing, whatever the settings are changed to. *)
Theorem failed_start_blocks_restart (w : world) :
  gate_open w → active w = false → has_secret w →
  intervals_unrounded (configuration w) →
  valid (configured_validation (configuration w)) = false →
  (start w).1 = Resolved ()
  ∧ active (start w).2 = true
  ∧ same_tasks w (start w).2
  ∧ emitted (λ e, is_lock_action e = false) w (start w).2
  ∧ last (trace (start w).2)
    = Some (ShowError (CannotStart (error (configured_validation (configuration w)))))
  ∧ (∀ c, session_frame (set_configuration c (start w).2)
            (start (set_configuration c (start w).2)).2).
Proof.
  intros Hopen Ha (c & s & Hsec) _ Hv.
  pose proof (gate_open_proceeds w Hopen) as Hp.
  pose proof (binaries_gate_gate_frame w (default false (dryRun (configuration w))) w
                (gate_frame_refl w)) as ((Hs & He) & Hs1 & Hc1 & _).
  destruct (binaries_gate _ w) as [r w1] eqn:Hg. cbn [fst snd] in *. subst r.
  pose proof Hs as (Ha1 & _ & Hcur & Hat & Ht & Hsl & Hen & Hnt & Hnk).
  destruct (start_invalid_from w w1 c s Hg) as (Hr & Hact & Htasks & Hem & Hlast);
    [congruence | congruence | done | done |].
  split; [done|]. split; [done|]. split.
  { destruct Htasks as (? & ? & ? & ? & ? & ? & ?). repeat split; congruence. }
  split; [by apply (emitted_trans _ w w1)|]. split; [done|].
  intros c'. by apply start_active_frame, session_frame_refl.
Qed.

Lemma failed_start_blocks_restart_witness :
  let w := initial (Config (Some true) None (Some (u "40m")) None)
             (Some (u "pw")) silent_env in
  active (start w).2 = true
  ∧ same_tasks w (start w).2
  ∧ session_frame (set_configuration (Config (Some true) None None None) (start w).2)
      (start (set_configuration (Config (Some true) None None None) (start w).2)).2.
Proof.
  intros w.
  destruct (failed_start_blocks_restart w) as (_ & Ha & Ht & _ & _ & Hnext).
  - right. left. reflexivity.
  - reflexivity.
  - exists 112, (u "w"). reflexivity.
  - split; [show_whole (u "40") 109 | show_whole (u "20") 109].
  - vm_compute. reflexivity.
  - split; [exact Ha|]. split; [exact Ht | apply Hnext].
Defined.

Lemma start_valid_from (w w1 : world) (c : N) (s : jsstring) :
  binaries_gate (default false (dryRun (configuration w))) w = (Resolved true, w1) →
  active w1 = false → trim <$> secretStorage w1 = Some (c :: s) →
  configuration w1 = configuration w →
  valid (configured_validation (configuration w)) = true →
  active (start w).2 = true
  ∧ startTime (start w).2 = env_now (env w1) (ticks w1)
  ∧ locked_once (command_event (default false (dryRun (configuration w))) LOCK_CMD [])
      w1 (start w).2
  ∧ (activeTimeouts (start w).2 = activeTimeouts w1 ∧ timers (start w).2 = timers w1
     ∧ sleepers (start w).2 = sleepers w1 ∧ next_timer (start w).2 = next_timer w1)
  ∧ ((start w).1 = Resolved () →
     currentLoopTask (start w).2 = Some (next_task w1)
     ∧ entering (start w).2 = {[next_task w1]} ∪ entering w1
     ∧ next_task (start w).2 = S (next_task w1))
  ∧ (default false (dryRun (configuration w)) = true
     ∨ env_spawn (env w1) (S (ticks w1)) = true → (start w).1 = Resolved ()).
Proof.
  intros Hg Ha Hsec Hc Hv.
  destruct (start w) as [r wf] eqn:E. cbn [fst snd]. revert E.
  start_prefix w w1 Hg Hsec Ha Hc.
  fold (configured_min (configuration w)) (configured_max (configuration w))
    (configured_duration (configuration w)).
  fold (configured_validation (configuration w)). rewrite Hv. cbn [negb].
  match goal with
  | |- context [after_parse ?s2 (after_parse ?s1 ?w0)] =>
      destruct (after_parse_spec s1 w0) as (n1 & -> & Hn1);
      destruct (after_parse_spec s2 (set_trace (trace w0 ++ n1) w0)) as (n2 & -> & Hn2)
  end.
  world_fields.
  pose proof (Forall_impl _ _ _ Hn1 lock_is_command) as Hl1.
  pose proof (Forall_impl _ _ _ Hn2 lock_is_command) as Hl2.
  destruct (default false (dryRun (configuration w))) eqn:Hd.
  - assert (Hd1 : default false (dryRun (configuration w1)) = true) by (by rewrite Hc).
    unfold when, logInfo. repeat first [rewrite bind_assoc | rewrite bind_emit].
    match goal with
    | |- context [bind (runCommandAsync LOCK_CMD []) _ ?wc] =>
        rewrite (bind_resolved _ _ _ _ _ (runCommandAsync_dry LOCK_CMD [] wc Hd1))
    end.
    unfold call_loopTask, bind, gets, emit, modify, ret. world_fields.
    intros [= <- <-]. world_fields.
    split; [reflexivity|]. split; [reflexivity|]. split; [|by repeat split].
    exists (n1 ++ n2 ++ [LogInfo BannerRule; LogInfo StartingDryRun;
                         LogInfo (BannerDuration (configured_duration (configuration w)));
                         LogInfo (BannerInterval (configured_min (configuration w))
                                    (configured_max (configuration w)));
                         LogInfo BannerRule; LogInfo InitialLock]),
      [ShowInformation (Started true (configured_duration (configuration w))
                          (configured_min (configuration w))
                          (configured_max (configuration w)))].
    split; [by rewrite <- !app_assoc|]. split; [|by repeat constructor].
    repeat apply Forall_app_2; [done | done | by repeat constructor].
  - assert (Hd1 : default false (dryRun (configuration w1)) = false) by (by rewrite Hc).
    unfold when. rewrite !bind_ret.
    match goal with
    | |- context [bind (runCommandAsync LOCK_CMD []) _ ?wc] =>
        pose proof (runCommandAsync_real LOCK_CMD [] wc Hd1) as Hrun
    end.
    world_fields in Hrun.
    destruct (env_spawn (env w1) (S (ticks w1))) eqn:Hsp.
    + rewrite (bind_resolved _ _ _ _ _ Hrun).
      unfold call_loopTask, bind, gets, emit, modify, ret. world_fields.
      intros [= <- <-]. world_fields.
      split; [reflexivity|]. split; [reflexivity|]. split; [|by repeat split].
      exists (n1 ++ n2),
        [ShowInformation (Started false (configured_duration (configuration w))
                            (configured_min (configuration w))
                            (configured_max (configuration w)))].
      split; [by rewrite <- !app_assoc|]. split; [|by repeat constructor].
      by apply Forall_app_2.
    + rewrite (bind_rejected _ _ _ _ Hrun).
      intros [= <- <-]. world_fields.
      split; [reflexivity|]. split; [reflexivity|]. split; [|split; [done|]].
      * exists (n1 ++ n2), []. split; [by rewrite <- !app_assoc|].
        split; [by apply Forall_app_2 | constructor].
      * split; [discriminate | by intros [|]].
Qed.

(** X15: a start that goes through begins one loop.  With the check of
    the binaries passed and a secret stored, [start] on a stopped service
    with valid intervals, given as durations that are computed without
    rounding, sets the flag and runs the lock command once; it arms no
    timeout.  When the check had passed at an earlier start, the
    start time recorded is the answer of the clock at the call.  When
    [start] resolves, which it does in dry-run and whenever the lock
    command can be spawned, it has created one loop task and holds it as
    the current one. *)
Theorem start_begins_one_loop (w : world) :
  gate_open w → active w = false → has_secret w →
  intervals_unrounded (configuration w) →
  valid (configured_validation (configuration w)) = true →
  active (start w).2 = true
  ∧ (requiredBinariesChecked w = true →
     startTime (start w).2 = env_now (env w) (ticks w))
  ∧ locked_once (command_event (default false (dryRun (configuration w))) LOCK_CMD [])
      w (start w).2
  ∧ (activeTimeouts (start w).2 = activeTimeouts w ∧ timers (start w).2 = timers w
     ∧ sleepers (start w).2 = sleepers w ∧ next_timer (start w).2 = next_timer w)
  ∧ ((start w).1 = Resolved () →
     currentLoopTask (start w).2 = Some (next_task w)
     ∧ entering (start w).2 = {[next_task w]} ∪ entering w
     ∧ next_task (start w).2 = S (next_task w))
  ∧ (dry w ∨ (∀ k, env_spawn (env w) k = true) → (start w).1 = Resolved ()).
Proof.
  intros Hopen Ha (c & s & Hsec) _ Hv.
  pose proof (gate_open_proceeds w Hopen) as Hp.
  pose proof (binaries_gate_gate_frame w (default false (dryRun (configuration w))) w
                (gate_frame_refl w)) as ((Hs & He) & Hs1 & Hc1 & He1).
  pose proof (binaries_gate_checked w (default false (dryRun (configuration w)))) as Hchk.
  destruct (binaries_gate _ w) as [r w1] eqn:Hg. cbn [fst snd] in *. subst r.
  pose proof Hs as (Ha1 & _ & Hcur & Hat & Ht & Hsl & Hen & Hnt & Hnk).
  destruct (start_valid_from w w1 c s Hg)
    as (Hact & Hstart & Hlock & (Hat' & Ht' & Hsl' & Hnt') & Hres & Hok);
    [congruence | congruence | done | done |].
  split; [done|]. split.
  { intros Hchecked. specialize (Hchk Hchecked). injection Hchk as <-. done. }
  split.
  { destruct Hlock as (pre & post & Htr & Hpre & Hpost).
    destruct He as (new & Hnew & Hfn).
    exists (new ++ pre), post. split; [|split; [by apply Forall_app_2 | done]].
    by rewrite Htr, Hnew, <- !app_assoc. }
  split; [repeat split; congruence|]. split.
  { intros Hr. destruct (Hres Hr) as (-> & -> & ->). by rewrite Hen, Hnk. }
  intros [Hd | Hsp]; apply Hok; [by left | right]. rewrite He1. apply Hsp.
Qed.

Lemma start_begins_one_loop_witness :
  active (start dry_world).2 = true
  ∧ locked_once (LogInfo (WouldExecute LOCK_CMD [])) dry_world (start dry_world).2
  ∧ (start dry_world).1 = Resolved ()
  ∧ currentLoopTask (start dry_world).2 = Some 0%nat
  ∧ timers (start dry_world).2 = ∅.
Proof.
  destruct (start_begins_one_loop dry_world)
    as (Ha & _ & Hlock & (_ & Ht & _) & Hres & Hok).
  - right. left. reflexivity.
  - reflexivity.
  - exists 112, (u "w"). reflexivity.
  - split; show_whole (u "10") 109.
  - vm_compute. reflexivity.
  - split; [exact Ha|]. split; [exact Hlock|].
    assert (Hr : (start dry_world).1 = Resolved ()) by (apply Hok; left; reflexivity).
    split; [exact Hr|]. split; [apply (Hres Hr) | exact Ht].
Defined.

(** ** A cycle that does not lock *)

(** [loopTask] of an active service with a secret, up to its validation
    of the intervals. *)
Ltac loopTask_prefix w Hsec Ha :=
  unfold loopTask;
  rewrite bind_gets, bind_gets, Hsec, Ha; cbn [negb];
  rewrite bind_gets;
  rewrite (bind_resolved _ _ _ _ _ (isDryRun_spec w));
  rewrite (bind_resolved _ _ _ _ _ (parseDuration_run _ _));
  rewrite (bind_resolved _ _ _ _ _ (parseDuration_run _ _));
  rewrite (bind_resolved _ _ _ _ _ (parseDuration_run _ _));
  fold (configured_min (configuration w)) (configured_max (configuration w))
    (configured_duration (configuration w));
  fold (configured_validation (configuration w));
  match goal with
  | |- context [after_parse ?s3 (after_parse ?s2 (after_parse ?s1 w))] =>
      let n1 := fresh "n1" in
      let n2 := fresh "n2" in
      let n3 := fresh "n3" in
      let Hn1 := fresh "Hn1" in
      let Hn2 := fresh "Hn2" in
      let Hn3 := fresh "Hn3" in
      destruct (after_parse_spec s1 w) as (n1 & -> & Hn1);
      destruct (after_parse_spec s2 (set_trace (trace w ++ n1) w)) as (n2 & -> & Hn2);
      world_fields;
      destruct (after_parse_spec s3 (set_trace ((trace w ++ n1) ++ n2)
                                       (set_trace (trace w ++ n1) w)))
        as (n3 & -> & Hn3);
      world_fields
  end.

(** X16: settings that became invalid stop the service.  When a cycle
    begins on an active service whose configured intervals, given as
    durations that are computed without rounding, are not valid,
    [loopTask] stops the service and reports the reason: it resolves, the
    flag is clear, the registered timeouts are disarmed and forgotten,
    the task handle is dropped, and neither a command is run nor a sleep
    entered. *)
Theorem invalid_settings_stop_the_loop (w : world) :
  active w = true → has_secret w →
  intervals_unrounded (configuration w) →
  valid (configured_validation (configuration w)) = false →
  (loopTask w).1 = Resolved ()
  ∧ active (loopTask w).2 = false
  ∧ activeTimeouts (loopTask w).2 = ∅
  ∧ timers (loopTask w).2 = timers w ∖ activeTimeouts w
  ∧ currentLoopTask (loopTask w).2 = None
  ∧ sleepers (loopTask w).2 = sleepers w
  ∧ entering (loopTask w).2 = entering w
  ∧ emitted (λ e, is_command e = false) w (loopTask w).2
  ∧ last (trace (loopTask w).2)
    = Some (ShowError (StoppedInvalidSettings
                         (error (configured_validation (configuration w))))).
Proof.
  intros Ha (c & s & Hsec) _ Hv.
  destruct (loopTask w) as [r wf] eqn:E. cbn [fst snd]. revert E.
  loopTask_prefix w Hsec Ha.
  rewrite Hv. cbn [negb].
  unfold logError. rewrite bind_emit.
  rewrite (bind_resolved _ _ _ _ _ (stop_spec _)).
  unfold emit, modify, stopped. world_fields.
  intros [= <- <-]. world_fields.
  repeat (split; [reflexivity|]). split; [|by rewrite last_snoc].
  eexists. split; [by rewrite <- !app_assoc|].
  repeat apply Forall_app_2; try done; try (by repeat constructor).
  destruct (bool_decide _); by repeat constructor.
Qed.

Lemma invalid_settings_stop_the_loop_witness :
  let w := set_configuration (Config (Some true) None (Some (u "40m")) None)
             locked_hold_world in
  (loopTask w).1 = Resolved ()
  ∧ active (loopTask w).2 = false
  ∧ activeTimeouts (loopTask w).2 = ∅
  ∧ emitted (λ e, is_command e = false) w (loopTask w).2.
Proof.
  intros w.
  destruct (invalid_settings_stop_the_loop w) as (Hr & Ha & Hat & _ & _ & _ & _ & He & _).
  - reflexivity.
  - exists 112, (u "w"). reflexivity.
  - split; [show_whole (u "40") 109 | show_whole (u "20") 109].
  - vm_compute. reflexivity.
  - split; [exact Hr|]. split; [exact Ha|]. split; [exact Hat | exact He].
Defined.

Lemma bind_void {A B} (m : M A) (f : unit → M B) (w : world) :
  bind (void m) f w = f () (m w).2.
Proof. reflexivity. Qed.

Lemma terminateSession_frame (w0 : world) : keeps (session_frame w0) terminateSession.
Proof. keeps_split session_write. Qed.

Lemma terminateSession_dry (w : world) :
  dry w →
  terminateSession w
  = (Resolved (),
     set_trace (trace w ++
       [LogInfo (WouldExecute LOGINCTL_CMD [u "list-sessions"; u "--no-legend"]);
        LogInfo (LoginctlOutput MOCK_SESSIONS);
        LogInfo (FoundSessionId (u "c54"));
        LogInfo (TerminatingSession (u "c54"));
        LogInfo (WouldExecute LOGINCTL_CMD [u "terminate-session"; u "c54"])]) w).
Proof.
  intros Hd.
  assert (Hget : getCurrentSessionId w
    = (Resolved (Some (u "c54")),
       set_trace (trace w ++
         [LogInfo (WouldExecute LOGINCTL_CMD [u "list-sessions"; u "--no-legend"]);
          LogInfo (LoginctlOutput MOCK_SESSIONS);
          LogInfo (FoundSessionId (u "c54"))]) w)).
  { unfold getCurrentSessionId, try_catch, execAndWaitForOutput.
    rewrite bind_assoc, (bind_resolved _ _ _ _ _ (isDryRun_spec w)), Hd.
    unfold logCommand, logInfo. rewrite bind_assoc, bind_emit.
    change (bool_decide (LOGINCTL_CMD = XINPUT_CMD)) with false.
    change (bool_decide (LOGINCTL_CMD = LOGINCTL_CMD)) with true.
    cbn [andb].
    match goal with
    | |- context [if ?b then ret MOCK_SESSIONS else _] => change b with true
    end.
    cbv iota. rewrite bind_ret, bind_emit.
    change (first_session_field (split_lines MOCK_SESSIONS)) with (Some (u "c54")).
    cbv beta iota. rewrite bind_emit. unfold ret. world_fields.
    by rewrite <- !app_assoc. }
  unfold terminateSession. rewrite (bind_resolved _ _ _ _ _ Hget).
  change (u "c54") with [99; 53; 52]. cbv beta iota.
  unfold logInfo. rewrite bind_emit.
  rewrite runCommandAsync_dry by exact Hd. world_fields.
  by rewrite <- !app_assoc.
Qed.

(** X17: a session that ran out ends without another lock.  When a
    cycle begins on an active service with a secret and valid intervals
    after the configured duration has passed, all three given as durations
    that are computed without rounding, [loopTask] runs no lock command,
    enters no sleep and creates no task.  When it
    resolves it has stopped the service; when it rejects, the session is
    left as it was, with the flag set.  In dry-run it resolves, and the
    terminate command is logged for the session of the mock listing. *)
Theorem expiry_ends_the_session (w : world) :
  active w = true → has_secret w →
  settings_unrounded w →
  valid (configured_validation (configuration w)) = true →
  jsge (ofZ (env_now (env w) (ticks w) - startTime w))
    (duration_value (configured_duration (configuration w))) = true →
  (emitted (λ e, is_lock_action e = false) w (loopTask w).2
   ∧ sleepers (loopTask w).2 = sleepers w
   ∧ entering (loopTask w).2 = entering w
   ∧ next_task (loopTask w).2 = next_task w)
  ∧ ((loopTask w).1 = Resolved () →
     active (loopTask w).2 = false
     ∧ activeTimeouts (loopTask w).2 = ∅
     ∧ timers (loopTask w).2 = timers w ∖ activeTimeouts w
     ∧ currentLoopTask (loopTask w).2 = None
     ∧ last (trace (loopTask w).2)
       = Some (ShowInformation (FinishedAfter (configured_duration (configuration w)))))
  ∧ ((loopTask w).1 = Rejected → same_session w (loopTask w).2)
  ∧ (dry w →
     (loopTask w).1 = Resolved ()
     ∧ LogInfo (WouldExecute LOGINCTL_CMD [u "terminate-session"; u "c54"])
       ∈ trace (loopTask w).2).
Proof.
  intros Ha (c & s & Hsec) _ Hv Hexp.
  destruct (loopTask w) as [r wf] eqn:E. cbn [fst snd]. revert E.
  loopTask_prefix w Hsec Ha.
  rewrite Hv. cbn [negb].
  unfold hasTimeExpired.
  rewrite bind_assoc, bind_consult, bind_assoc, bind_gets, bind_ret.
  world_fields. rewrite Hexp.
  unfold logInfo. rewrite bind_emit.
  match goal with
  | |- bind terminateSession _ ?w5 = _ → _ =>
      pose proof (terminateSession_frame w5 w5 (session_frame_refl w5)) as [Hs He];
      pose proof (terminateSession_dry w5) as Hdry;
      destruct (terminateSession w5) as [[[]|] w6] eqn:Et
  end; cbn [fst snd] in Hs, He; world_fields in He;
    destruct Hs as (Ha6 & Hst6 & Hc6 & Hat6 & Ht6 & Hsl6 & Hen6 & Hnt6 & Hnk6);
    world_fields in Ha6; world_fields in Hc6; world_fields in Hat6;
    world_fields in Ht6; world_fields in Hsl6; world_fields in Hen6;
    world_fields in Hnt6; world_fields in Hnk6; world_fields in Hst6;
    destruct He as (new & Hnew & Hfnew); world_fields in Hnew.
  - rewrite (bind_resolved _ _ _ _ _ Et), bind_void, stop_spec.
    unfold emit, modify, stopped. world_fields.
    intros [= <- <-]. world_fields.
    split; [|split; [|split]].
    + split; [|done]. unfold emitted. world_fields.
      rewrite Hnew. eexists. split; [by rewrite <- !app_assoc|].
      pose proof (Forall_impl _ _ _ Hn1 lock_is_command).
      pose proof (Forall_impl _ _ _ Hn2 lock_is_command).
      pose proof (Forall_impl _ _ _ Hn3 lock_is_command).
      unfold stop_log. forall_events.
    + intros _. rewrite Hat6, Ht6, last_snoc. done.
    + discriminate.
    + intros Hd. split; [done|]. specialize (Hdry Hd). injection Hdry as ->.
      world_fields. rewrite !elem_of_app. left. left. right.
      rewrite !elem_of_cons. tauto.
  - rewrite (bind_rejected _ _ _ _ Et).
    intros [= <- <-].
    split; [|split; [|split]].
    + split; [|done]. unfold emitted.
      rewrite Hnew. eexists. split; [by rewrite <- !app_assoc|].
      pose proof (Forall_impl _ _ _ Hn1 lock_is_command).
      pose proof (Forall_impl _ _ _ Hn2 lock_is_command).
      pose proof (Forall_impl _ _ _ Hn3 lock_is_command).
      forall_events.
    + discriminate.
    + intros _. by repeat split.
    + intros Hd. specialize (Hdry Hd). discriminate Hdry.
Qed.

Lemma expiry_ends_the_session_witness :
  let w := set_configuration
             (Config (Some true) (Some (u "0s")) (Some (u "10m")) (Some (u "10m")))
             locked_hold_world in
  emitted (λ e, is_lock_action e = false) w (loopTask w).2
  ∧ (loopTask w).1 = Resolved ()
  ∧ active (loopTask w).2 = false
  ∧ LogInfo (WouldExecute LOGINCTL_CMD [u "terminate-session"; u "c54"])
    ∈ trace (loopTask w).2.
Proof.
  intros w.
  destruct (expiry_ends_the_session w) as ((He & _) & Hres & _ & Hdry).
  - reflexivity.
  - exists 112, (u "w"). reflexivity.
  - split; [split; show_whole (u "10") 109|].
    split; [show_whole (u "0") 115|]. vm_compute. repeat split; discriminate.
  - vm_compute. reflexivity.
  - vm_compute. reflexivity.
  - destruct Hdry as [Hr Hin]; [reflexivity|].
    split; [exact He|]. split; [exact Hr|]. split; [apply (Hres Hr) | exact Hin].
Defined.

(** ** The cap on the locked hold *)

Lemma keeps_bind_post (I : world → Prop) {A B} (Q : A → Prop) (m : M A) (f : A → M B) :
  (∀ w, I w → I (m w).2 ∧ ∀ a, (m w).1 = Resolved a → Q a) →
  (∀ a, Q a → keeps I (f a)) → keeps I (bind m f).
Proof.
  intros Hm Hf w Hw. unfold bind. destruct (Hm w Hw) as [HI HQ].
  destruct (m w) as [[a|] w']; cbn [fst snd] in *; [|done].
  apply Hf; [by apply HQ | done].
Qed.

Lemma capped_same (e : Env) (w w' : world) :
  env w' = env w → sleepers w' = sleepers w → sleeps_capped e w → sleeps_capped e w'.
Proof. intros He Hs [H1 H2]. split; [congruence | by rewrite Hs]. Qed.

Lemma capped_sleep (e : Env) (w w' : world) (t : nat) (ms : jsnum) (k : cont) :
  within_cap ms → env w' = env w → sleepers w' = <[t := (ms, k)]> (sleepers w) →
  sleeps_capped e w → sleeps_capped e w'.
Proof.
  intros Hms He Hs [H1 H2]. split; [congruence|].
  intros t' ms' k'. rewrite Hs.
  destruct (decide (t = t')) as [->|Hne].
  - rewrite lookup_insert_eq. by intros [= <- <-].
  - rewrite lookup_insert_ne by done. apply H2.
Qed.

Ltac capped_write solveCap :=
  let w := fresh "w" in
  let H := fresh "H" in
  intros w H;
  first [ eapply (capped_same _ w); [reflexivity | reflexivity | exact H]
        | eapply (capped_sleep _ w); [ | reflexivity | reflexivity | exact H ];
          solveCap ].

Lemma unlock_time_within_cap : within_cap UNLOCK_TIME_MS.
Proof. vm_compute. discriminate. Qed.

Lemma capped_stop (e : Env) : keeps (sleeps_capped e) stop.
Proof. intros w H. rewrite stop_spec. by eapply capped_same; [| |exact H]. Qed.

Lemma capped_start (e : Env) : keeps (sleeps_capped e) start.
Proof. unfold start. keeps_split ltac:(capped_write ltac:(fail)). Qed.

Lemma capped_setSecret (e : Env) : keeps (sleeps_capped e) setSecret.
Proof. keeps_split ltac:(capped_write ltac:(fail)). Qed.

Lemma capped_clearSecret (e : Env) : keeps (sleeps_capped e) clearSecret.
Proof. keeps_split ltac:(capped_write ltac:(fail)). Qed.

Lemma capped_resume (e : Env) (k : cont) : keeps (sleeps_capped e) (resume k).
Proof.
  unfold resume. keeps_split ltac:(capped_write ltac:(exact unlock_time_within_cap)).
Qed.

(** With valid intervals the interval drawn is within the cap, or is no
    number. *)
Lemma getRandomLockInterval_capped (e : Env) (a b : jsnum) (w : world) :
  random_in_range e → valid (validateLockIntervals a b) = true →
  sleeps_capped e w →
  sleeps_capped e (getRandomLockInterval a b w).2
  ∧ ∀ v, (getRandomLockInterval a b w).1 = Resolved v → within_cap v.
Proof.
  intros Hr Hv Hw. split.
  - assert (H : keeps (sleeps_capped e) (getRandomLockInterval a b))
      by keeps_split ltac:(capped_write ltac:(fail)).
    by apply H.
  - unfold getRandomLockInterval.
    destruct a as [x|], b as [y|]; cbn [js_strict_eq];
      try (intros v [= <-]; exact I).
    unfold validateLockIntervals in Hv.
    destruct (jsgt (Num x) MAX_INTERVAL_MS) eqn:Hx; [discriminate Hv|].
    destruct (jsgt (Num y) MAX_INTERVAL_MS) eqn:Hy; [discriminate Hv|].
    destruct (jsgt (Num x) (Num y)) eqn:Hxy; [discriminate Hv|].
    change MAX_INTERVAL_MS with (Num (30 * 60 * 1000)) in Hx, Hy.
    apply jsgt_Num_false in Hx, Hy, Hxy.
    destruct (Qeq_bool x y).
    + intros v [= <-]. unfold within_cap. lra.
    + intros v [= <-]. destruct Hw as [He _].
      destruct (Hr (ticks w)) as [Hr0 Hr1]. rewrite He.
      cbn -[Qmult Qplus Qminus Qle].
      set (r := env_random e (ticks w)) in *. nra.
Qed.

Lemma capped_loopTask (e : Env) : random_in_range e → keeps (sleeps_capped e) loopTask.
Proof.
  intros Hr w Hw. unfold loopTask. rewrite bind_gets, bind_gets.
  destruct (trim <$> secretStorage w) as [[|c secret]|]; [done| |done].
  destruct (active w); cbn [negb]; [|done].
  rewrite bind_gets.
  rewrite (bind_resolved _ _ _ _ _ (isDryRun_spec w)).
  rewrite (bind_resolved _ _ _ _ _ (parseDuration_run _ _)).
  rewrite (bind_resolved _ _ _ _ _ (parseDuration_run _ _)).
  rewrite (bind_resolved _ _ _ _ _ (parseDuration_run _ _)).
  match goal with
  | |- context [after_parse ?s3 (after_parse ?s2 (after_parse ?s1 w))] =>
      assert (Hw3 : sleeps_capped e (after_parse s3 (after_parse s2 (after_parse s1 w))));
      [ destruct (after_parse_spec s1 w) as (n1 & -> & _);
        destruct (after_parse_spec s2 (set_trace (trace w ++ n1) w)) as (n2 & -> & _);
        match goal with
        | |- context [after_parse s3 ?w2] =>
            destruct (after_parse_spec s3 w2) as (n3 & -> & _)
        end;
        by eapply capped_same; [| |exact Hw]
      | generalize dependent (after_parse s3 (after_parse s2 (after_parse s1 w))) ]
  end.
  intros w3 Hw3.
  destruct (valid (validateLockIntervals _ _)) eqn:Hv; cbn [negb].
  - match goal with
    | |- sleeps_capped e (?m w3).2 => cut (keeps (sleeps_capped e) m); [by intros H; apply H|]
    end.
    apply keeps_bind; [keeps_split ltac:(capped_write ltac:(fail)) | intros expired].
    destruct expired.
    { keeps_split ltac:(capped_write ltac:(fail)); apply capped_stop. }
    apply (keeps_bind_post _ within_cap).
    { intros w' Hw'. by apply getRandomLockInterval_capped. }
    intros lockIntervalMs Hcap.
    keeps_split ltac:(capped_write ltac:(exact Hcap)).
  - match goal with
    | |- sleeps_capped e (?m w3).2 => cut (keeps (sleeps_capped e) m); [by intros H; apply H|]
    end.
    keeps_split ltac:(capped_write ltac:(fail)); apply capped_stop.
Qed.

Lemma capped_step (e : Env) w l w' :
  random_in_range e → step w l w' → sleeps_capped e w → sleeps_capped e w'.
Proof.
  intros Hr Hstep Hw. destruct Hstep as [w|w|w|w|w|w id Hid|w t ms k Ht Hk|w c].
  - by apply capped_start.
  - by apply capped_stop.
  - by apply capped_stop.
  - by apply capped_setSecret.
  - by apply capped_clearSecret.
  - apply capped_loopTask; [done|]. by eapply capped_same; [| |exact Hw].
  - apply capped_resume. destruct Hw as [H1 H2]. split; [done|].
    intros t' ms' k'. cbn [sleepers set_sleepers].
    destruct (decide (t' = t)) as [->|Hne].
    + by rewrite lookup_delete_eq.
    + rewrite lookup_delete_ne by done. apply H2.
  - by eapply capped_same; [| |exact Hw].
Qed.

Lemma capped_run (e : Env) w ls w' :
  random_in_range e → run w ls w' → sleeps_capped e w → sleeps_capped e w'.
Proof.
  intros Hr. induction 1 as [w|w l w1 ls w2 Hstep _ IH]; intros Hw; [done|].
  apply IH. by apply (capped_step e w l).
Qed.

(** X18: no sleep outlasts the cap.  With a random source that draws
    from [0, 1), in every world the service reaches, whatever the
    settings are and however they are changed, each pending sleep was
    entered for at most 1 800 000 ms, or for a time that is no number
    (which a timeout takes as zero). *)
Theorem sleeps_within_cap
    (c : config) (stored : option jsstring) (e : Env) (ls : list label) (w : world)
    (t : nat) (ms : jsnum) (k : cont) :
  random_in_range e → run (initial c stored e) ls w →
  sleepers w !! t = Some (ms, k) → within_cap ms.
Proof.
  intros Hr Hrun Hl.
  assert (H0 : sleeps_capped e (initial c stored e)).
  { split; [done|]. intros t' ms' k' H. cbn in H. by rewrite lookup_empty in H. }
  destruct (capped_run e _ _ _ Hr Hrun H0) as [_ H]. apply (H t ms k Hl).
Qed.

Lemma sleeps_within_cap_witness :
  match sleepers locked_hold_world !! 0%nat with
  | Some (ms, _) => within_cap ms
  | None => False
  end.
Proof.
  destruct (sleepers locked_hold_world !! 0%nat) as [[ms k]|] eqn:E.
  - apply (sleeps_within_cap (Config (Some true) None (Some (u "10m")) (Some (u "10m")))
             (Some (u "pw")) silent_env [CallStart; Enter 0%nat] locked_hold_world
             0%nat ms k).
    + intros n. split; [unfold Qle | unfold Qlt]; simpl; lia.
    + eapply run_cons; [apply step_start|].
      eapply run_cons; [|apply run_nil].
      apply step_enter. vm_compute. reflexivity.
    + exact E.
  - vm_compute in E. discriminate E.
Defined.

(** ** The two steps after the locked hold *)

Lemma traced_refl (w : world) : traced w [] w.
Proof. split; [by rewrite app_nil_r | apply same_state_refl]. Qed.

Lemma traced_emit (w0 : world) (evs : list event) (w : world) (e : event) :
  traced w0 evs w → traced w0 (evs ++ [e]) (set_trace (trace w ++ [e]) w).
Proof.
  intros [Ht Hs]. split; [cbn [trace set_trace]; by rewrite Ht, app_assoc|].
  apply (same_state_trans w0 w); [done | by repeat split].
Qed.

Lemma traced_dry (w0 : world) (evs : list event) (w : world) :
  traced w0 evs w →
  default false (dryRun (configuration w)) = default false (dryRun (configuration w0)).
Proof. intros (_ & _ & _ & _ & -> & _). done. Qed.

Lemma traced_can_run (w0 : world) (evs : list event) (w : world) :
  traced w0 evs w → can_run_commands w0 → can_run_commands w.
Proof.
  intros Ht [Hd | Hsp].
  - left. unfold dry. by rewrite (traced_dry w0 evs w Ht).
  - right. destruct Ht as (_ & _ & _ & _ & _ & ->). done.
Qed.

(** A command that is awaited, where commands can be run. *)
Lemma traced_command (w0 : world) (evs : list event) (w : world)
    (cmd : jsstring) (args : list jsstring) :
  can_run_commands w0 → traced w0 evs w →
  ∃ w', runCommandAsync cmd args w = (Resolved (), w')
        ∧ traced w0 (evs ++ [command_event (default false (dryRun (configuration w0)))
                               cmd args]) w'.
Proof.
  intros Hcan Ht. pose proof (traced_dry w0 evs w Ht) as Hd.
  destruct (traced_can_run w0 evs w Ht Hcan) as [Hdry | Hsp].
  - rewrite (runCommandAsync_dry cmd args w Hdry). eexists. split; [reflexivity|].
    rewrite <- Hd, Hdry. by apply traced_emit.
  - destruct (default false (dryRun (configuration w))) eqn:Hdw.
    + rewrite (runCommandAsync_dry cmd args w Hdw). eexists. split; [reflexivity|].
      rewrite <- Hd. by apply traced_emit.
    + rewrite (runCommandAsync_real cmd args w Hdw), Hsp. eexists. split; [reflexivity|].
      rewrite <- Hd. destruct Ht as [Htr Hs]. split.
      * cbn [trace set_trace set_ticks]. by rewrite Htr, app_assoc.
      * apply (same_state_trans w0 w); [done | by repeat split].
Qed.

(** A command whose outcome is dropped. *)
Lemma traced_xset_off (w0 : world) (evs : list event) (w : world) :
  traced w0 evs w →
  ∃ w', xset_off w = (Resolved (), w')
        ∧ traced w0 (evs ++ [xset_event (default false (dryRun (configuration w0)))]) w'.
Proof.
  intros Ht. pose proof (traced_dry w0 evs w Ht) as Hd.
  unfold xset_off, void, xset_event. eexists. split; [reflexivity|].
  rewrite <- Hd. destruct Ht as [Htr Hs].
  destruct (default false (dryRun (configuration w))) eqn:Hdw.
  - rewrite (runCommandAsync_dry _ _ w Hdw). split.
    + cbn [snd trace set_trace]. by rewrite Htr, app_assoc.
    + apply (same_state_trans w0 w); [done | by repeat split].
  - rewrite (runCommandAsync_real _ _ w Hdw). split.
    + cbn [snd trace set_trace set_ticks]. by rewrite Htr, app_assoc.
    + apply (same_state_trans w0 w); [done | by repeat split].
Qed.

(** The commands of a device toggle, each with its failure ignored. *)
Lemma traced_toggles (w0 : world) (evs : list event) (w : world)
    (args : N → list jsstring) (ids : list N) :
  traced w0 evs w →
  ∃ w', for_each ids (λ id : N, try_catch (runCommandAsync XINPUT_CMD (args id)) (ret ())) w
        = (Resolved (), w')
        ∧ traced w0 (evs ++ map (λ id, command_event
                                         (default false (dryRun (configuration w0)))
                                         XINPUT_CMD (args id)) ids) w'.
Proof.
  intros Ht. pose proof (traced_dry w0 evs w Ht) as Hd.
  destruct (ignored_commands XINPUT_CMD args ids w) as (w' & Hq & Htr' & Hs').
  exists w'. split; [done|]. destruct Ht as [Htr Hs]. split.
  - by rewrite Htr', Htr, Hd, app_assoc.
  - by apply (same_state_trans w0 w).
Qed.

Ltac traced_step lem Ht :=
  let w' := fresh "w" in
  let Hq := fresh "Hq" in
  destruct lem as (w' & Hq & Ht);
  rewrite (bind_resolved _ _ _ _ _ Hq); clear Hq.

Lemma resume_locked_spec
    (secret : jsstring) (mouseIds keyboardIds : list N) (d0 : bool) (w : world) :
  active w = true → can_run_commands w →
  (resume (AfterLockedHold secret mouseIds keyboardIds d0) w).1 = Resolved ()
  ∧ trace (resume (AfterLockedHold secret mouseIds keyboardIds d0) w).2
    = trace w
      ++ unlock_commands (default false (dryRun (configuration w)))
           secret mouseIds keyboardIds
      ++ (if d0 then [LogInfo (UnlockedFor UNLOCK_TIME_MS)] else [])
  ∧ sleepers (resume (AfterLockedHold secret mouseIds keyboardIds d0) w).2
    = <[next_timer w := (UNLOCK_TIME_MS, AfterUnlockedHold mouseIds keyboardIds d0)]>
        (sleepers w)
  ∧ timers (resume (AfterLockedHold secret mouseIds keyboardIds d0) w).2
    = {[next_timer w]} ∪ timers w
  ∧ activeTimeouts (resume (AfterLockedHold secret mouseIds keyboardIds d0) w).2
    = {[next_timer w]} ∪ activeTimeouts w.
Proof.
  intros Ha Hcan.
  destruct (resume _ w) as [r wf] eqn:E. cbn [fst snd]. revert E.
  unfold resume. rewrite bind_gets, Ha. cbn [negb].
  pose proof (traced_refl w) as H0.
  traced_step (traced_xset_off w _ w H0) H1.
  unfold disableInputDevices.
  traced_step (traced_toggles w _ _ (λ id, [u "disable"; toString id]) mouseIds H1) H2.
  traced_step (traced_toggles w _ _ (λ id, [u "disable"; toString id]) keyboardIds H2) H3.
  traced_step (traced_command w _ _ LOCK_CMD [] Hcan H3) H4.
  traced_step (traced_command w _ _ XDOTOOL_CMD [u "type"; secret] Hcan H4) H5.
  traced_step (traced_xset_off w _ _ H5) H6.
  traced_step (traced_command w _ _ XDOTOOL_CMD [u "key"; u "Return"] Hcan H6) H7.
  traced_step (traced_xset_off w _ _ H7) H8.
  assert (H9 : ∃ w9, when d0 (logInfo (UnlockedFor UNLOCK_TIME_MS)) w7 = (Resolved (), w9)
    ∧ traced w ((((((((([] ++ [xset_event (default false (dryRun (configuration w)))])
          ++ map (λ id, command_event (default false (dryRun (configuration w)))
                          XINPUT_CMD [u "disable"; toString id]) mouseIds)
          ++ map (λ id, command_event (default false (dryRun (configuration w)))
                          XINPUT_CMD [u "disable"; toString id]) keyboardIds)
          ++ [command_event (default false (dryRun (configuration w))) LOCK_CMD []])
          ++ [command_event (default false (dryRun (configuration w)))
                XDOTOOL_CMD [u "type"; secret]])
          ++ [xset_event (default false (dryRun (configuration w)))])
          ++ [command_event (default false (dryRun (configuration w)))
                XDOTOOL_CMD [u "key"; u "Return"]])
          ++ [xset_event (default false (dryRun (configuration w)))])
          ++ (if d0 then [LogInfo (UnlockedFor UNLOCK_TIME_MS)] else [])) w9).
  { destruct d0.
    - eexists. split; [reflexivity|]. by apply traced_emit.
    - eexists. split; [reflexivity|]. by rewrite app_nil_r. }
  traced_step H9 H10.
  unfold sleep, modify. intros [= <- <-]. world_fields.
  destruct H10 as (Htr & (_ & _ & _ & Hat & Ht & Hsl & _ & Hnt & _) & _).
  split; [reflexivity|]. split.
  { rewrite Htr. unfold unlock_commands. by rewrite <- !app_assoc. }
  by rewrite Hat, Ht, Hsl, Hnt.
Qed.


(** X19: the unlock step, in order.  When the locked hold ends on an
    active service and commands can be run, the continuation of
    [loopTask] runs, in this order and nothing else: display off, one
    disable per mouse and then per keyboard, the lock command, the typing
    of the secret, display off, the return key, display off.  It then
    enters the unlocked hold of 500 ms, as one new timeout. *)
Theorem unlock_step_order
    (secret : jsstring) (mouseIds keyboardIds : list N) (d0 : bool) (w : world) :
  active w = true → can_run_commands w →
  (resume (AfterLockedHold secret mouseIds keyboardIds d0) w).1 = Resolved ()
  ∧ trace (resume (AfterLockedHold secret mouseIds keyboardIds d0) w).2
    = trace w
      ++ unlock_commands (default false (dryRun (configuration w)))
           secret mouseIds keyboardIds
      ++ (if d0 then [LogInfo (UnlockedFor UNLOCK_TIME_MS)] else [])
  ∧ sleepers (resume (AfterLockedHold secret mouseIds keyboardIds d0) w).2
    = <[next_timer w := (UNLOCK_TIME_MS, AfterUnlockedHold mouseIds keyboardIds d0)]>
        (sleepers w)
  ∧ timers (resume (AfterLockedHold secret mouseIds keyboardIds d0) w).2
    = {[next_timer w]} ∪ timers w
  ∧ activeTimeouts (resume (AfterLockedHold secret mouseIds keyboardIds d0) w).2
    = {[next_timer w]} ∪ activeTimeouts w.
Proof. apply resume_locked_spec. Qed.

Lemma unlock_step_order_witness :
  trace (resume (AfterLockedHold (u "pw") [9] [10] true) locked_hold_world).2
  = trace locked_hold_world
    ++ unlock_commands true (u "pw") [9] [10]
    ++ [LogInfo (UnlockedFor UNLOCK_TIME_MS)].
Proof.
  apply (unlock_step_order (u "pw") [9] [10] true locked_hold_world).
  - reflexivity.
  - left. reflexivity.
Defined.

(** X20: the step after the unlocked hold always schedules the next
    cycle.  When the unlocked hold ends on an active service, the
    continuation of [loopTask] turns the display off and runs one enable
    per mouse and then per keyboard, whether or not any of these commands
    can be spawned; it resolves, having created the next loop task as the
    current one, and arms no timeout itself. *)
Theorem reenable_step_schedules_next
    (mouseIds keyboardIds : list N) (d0 : bool) (w : world) :
  active w = true →
  (resume (AfterUnlockedHold mouseIds keyboardIds d0) w).1 = Resolved ()
  ∧ trace (resume (AfterUnlockedHold mouseIds keyboardIds d0) w).2
    = trace w
      ++ reenable_commands (default false (dryRun (configuration w))) mouseIds keyboardIds
      ++ (if d0 then [LogInfo CycleCompleted] else [])
  ∧ currentLoopTask (resume (AfterUnlockedHold mouseIds keyboardIds d0) w).2
    = Some (next_task w)
  ∧ entering (resume (AfterUnlockedHold mouseIds keyboardIds d0) w).2
    = {[next_task w]} ∪ entering w
  ∧ next_task (resume (AfterUnlockedHold mouseIds keyboardIds d0) w).2 = S (next_task w)
  ∧ timers (resume (AfterUnlockedHold mouseIds keyboardIds d0) w).2 = timers w
  ∧ sleepers (resume (AfterUnlockedHold mouseIds keyboardIds d0) w).2 = sleepers w.
Proof.
  intros Ha.
  destruct (resume _ w) as [r wf] eqn:E. cbn [fst snd]. revert E.
  unfold resume. rewrite bind_gets, Ha. cbn [negb].
  pose proof (traced_refl w) as H0.
  traced_step (traced_xset_off w _ w H0) H1.
  unfold enableInputDevices.
  traced_step (traced_toggles w _ _ (λ id, [u "enable"; toString id]) mouseIds H1) H2.
  traced_step (traced_toggles w _ _ (λ id, [u "enable"; toString id]) keyboardIds H2) H3.
  assert (H4 : ∃ w4, when d0 (logInfo CycleCompleted) w2 = (Resolved (), w4)
    ∧ traced w (((([] ++ [xset_event (default false (dryRun (configuration w)))])
          ++ map (λ id, command_event (default false (dryRun (configuration w)))
                          XINPUT_CMD [u "enable"; toString id]) mouseIds)
          ++ map (λ id, command_event (default false (dryRun (configuration w)))
                          XINPUT_CMD [u "enable"; toString id]) keyboardIds)
          ++ (if d0 then [LogInfo CycleCompleted] else [])) w4).
  { destruct d0.
    - eexists. split; [reflexivity|]. by apply traced_emit.
    - eexists. split; [reflexivity|]. by rewrite app_nil_r. }
  traced_step H4 H5.
  destruct H5 as (Htr & (Hact & _ & _ & _ & Ht & Hsl & Hen & _ & Hnk) & _).
  rewrite bind_gets, Hact, Ha.
  unfold when, call_loopTask, bind, gets, modify, ret. world_fields.
  intros [= <- <-]. world_fields.
  split; [reflexivity|]. split.
  { rewrite Htr. unfold reenable_commands. by rewrite <- !app_assoc. }
  by rewrite Ht, Hsl, Hen, Hnk.
Qed.

Lemma reenable_step_schedules_next_witness :
  (resume (AfterUnlockedHold [9] [10] false) failing_world).1 = Resolved ()
  ∧ currentLoopTask (resume (AfterUnlockedHold [9] [10] false) failing_world).2
    = Some 0%nat.
Proof.
  destruct (reenable_step_schedules_next [9] [10] false failing_world)
    as (Hr & _ & Hc & _).
  - reflexivity.
  - split; [exact Hr | exact Hc].
Defined.

(** ** Setting the secret *)

Lemma drop_while_idemp (p : N → bool) (s : jsstring) :
  drop_while p (drop_while p s) = drop_while p s.
Proof.
  induction s as [|c s IH]; [done|]. simpl.
  destruct (p c) eqn:E; [done|]. simpl. by rewrite E.
Qed.

(** Trimming twice is trimming once. *)
Lemma trim_idemp (s : jsstring) : trim (trim s) = trim s.
Proof.
  assert (Hstart : trimStart (trim s) = trim s).
  { destruct (trim s) as [|c r] eqn:Ht; [done|].
    unfold trimStart. simpl. by rewrite (trim_head s c r Ht). }
  unfold trim at 1. rewrite Hstart.
  unfold trim, trimEnd, trimStart.
  by rewrite reverse_involutive, drop_while_idemp.
Qed.

Lemma trim_blank (s : jsstring) :
  Forall (λ c, is_js_whitespace c = true) s → trim s = [].
Proof.
  intros H. unfold trim, trimEnd, trimStart. by rewrite (drop_while_all _ s H).
Qed.

(** X21: what [setSecret] stores.  It always resolves and leaves the
    session alone.  When the input box is dismissed or left empty, the
    stored secret is untouched and nothing is reported.  Otherwise the
    trimmed input replaces the stored secret and the update is reported;
    what is stored is what a later cycle resolves as its secret, and an
    input of blanks only is stored as the empty secret, so that the
    service then has no secret. *)
Theorem setSecret_stores_trimmed (w : world) :
  (setSecret w).1 = Resolved ()
  ∧ same_session w (setSecret w).2
  ∧ (env_input (env w) (ticks w) = None ∨ env_input (env w) (ticks w) = Some [] →
     secretStorage (setSecret w).2 = secretStorage w
     ∧ trace (setSecret w).2 = trace w ++ [ShowInputBox EnterPassword])
  ∧ (∀ c pw, env_input (env w) (ticks w) = Some (c :: pw) →
     secretStorage (setSecret w).2 = Some (trim (c :: pw))
     ∧ trim <$> secretStorage (setSecret w).2 = Some (trim (c :: pw))
     ∧ trace (setSecret w).2
       = trace w ++ [ShowInputBox EnterPassword; ShowInformation PasswordUpdated]
     ∧ (Forall (λ x, is_js_whitespace x = true) (c :: pw) →
        secretStorage (setSecret w).2 = Some [] ∧ ¬ has_secret (setSecret w).2)).
Proof.
  unfold setSecret. rewrite bind_emit, bind_consult. world_fields.
  destruct (env_input (env w) (ticks w)) as [[|c pw]|].
  - split; [done|]. split; [by repeat split|]. split; [done|]. by intros ? ? [=].
  - unfold bind, emit, modify, has_secret. world_fields.
    split; [done|]. split; [by repeat split|]. split; [by intros [[=]|[=]]|].
    intros c' pw' [= <- <-]. split; [done|]. split.
    { change (Some (trim (trim (c :: pw))) = Some (trim (c :: pw))).
      by rewrite trim_idemp. }
    split; [by rewrite <- app_assoc|].
    intros Hb. rewrite (trim_blank _ Hb). split; [done|].
    intros (x & r & Hx). discriminate Hx.
  - split; [done|]. split; [by repeat split|]. split; [done|]. by intros ? ? [=].
Qed.

Lemma setSecret_stores_trimmed_witness :
  let w := initial (Config None None None None) (Some (u "pw"))
             (MkEnv (λ _, true) (λ _, None) (λ _, 0%Q) (λ _, 0%Z) (λ _, None)
                (λ _, Some (u "  "))) in
  secretStorage (setSecret w).2 = Some [] ∧ ¬ has_secret (setSecret w).2.
Proof.
  intros w.
  destruct (setSecret_stores_trimmed w) as (_ & _ & _ & H).
  destruct (H 32 (u " ")) as (_ & _ & _ & Hb); [reflexivity|].
  apply Hb. by repeat constructor.
Defined.

(** ** Clearing the secret during a run *)

(** X22: clearing the secret ends the loop only at the next cycle.
    [clearSecret] empties the store and leaves the session alone.  A
    cycle that begins afterwards ends at once, without a command and with
    the flag still set.  A cycle already in its locked hold is not
    affected: when commands can be run, its unlock step still types the
    secret it resolved before. *)
Theorem clearSecret_ends_loop_at_next_cycle (w : world) :
  (clearSecret w).1 = Resolved ()
  ∧ secretStorage (clearSecret w).2 = None
  ∧ same_session w (clearSecret w).2
  ∧ loopTask (clearSecret w).2 = (Resolved (), (clearSecret w).2)
  ∧ (∀ secret mouseIds keyboardIds d0,
       active w = true → can_run_commands w →
       command_event (default false (dryRun (configuration w)))
         XDOTOOL_CMD [u "type"; secret]
       ∈ trace (resume (AfterLockedHold secret mouseIds keyboardIds d0)
                  (clearSecret w).2).2).
Proof.
  split; [reflexivity|]. split; [reflexivity|]. split; [by repeat split|]. split.
  - apply loopTask_without_secret. by left.
  - intros secret mouseIds keyboardIds d0 Ha Hcan.
    destruct (resume_locked_spec secret mouseIds keyboardIds d0 (clearSecret w).2)
      as (_ & Htr & _); [exact Ha | exact Hcan|].
    rewrite Htr. unfold unlock_commands.
    rewrite !elem_of_app, !elem_of_cons. tauto.
Qed.

Lemma clearSecret_ends_loop_at_next_cycle_witness :
  LogInfo (WouldExecute XDOTOOL_CMD [u "type"; u "pw"])
  ∈ trace (resume (AfterLockedHold (u "pw") [9] [10] true)
             (clearSecret locked_hold_world).2).2.
Proof.
  destruct (clearSecret_ends_loop_at_next_cycle locked_hold_world) as (_ & _ & _ & _ & H).
  apply (H (u "pw") [9] [10] true).
  - reflexivity.
  - left. reflexivity.
Defined.

(** ** A cycle that locks *)

Ltac lock_free_write :=
  let w := fresh "w" in
  let He := fresh "He" in
  let Hs := fresh "Hs" in
  intros w [He Hs]; split;
  [ first [ eapply (emitted_same_trace _ _ w); [reflexivity | exact He]
          | apply emitted_emit; [reflexivity | exact He] ]
  | eapply same_state_trans; [exact Hs | by repeat split] ].

Lemma lock_free_step (w0 : world) {A} (m : M A) (w : world) :
  never_rejects m → keeps (lock_free w0) m → lock_free w0 w →
  ∃ a w', m w = (Resolved a, w') ∧ lock_free w0 w'.
Proof.
  intros Hn Hk Hw. destruct (Hn w) as [a Ha]. specialize (Hk w Hw).
  destruct (m w) as [r w']. cbn [fst snd] in *. subst r. by exists a, w'.
Qed.

Lemma xset_event_no_lock (d : bool) : is_lock_action (xset_event d) = false.
Proof. by destruct d. Qed.

(** X23: a cycle locks once and arms one timeout.  When a cycle begins
    on an active service with a secret, valid intervals and time left,
    the settings given as durations that are computed without rounding,
    [loopTask] runs the lock command once.  When it resolves, which it
    does whenever commands can be run, it has entered one sleep, as one
    new timeout, to go on with the secret resolved at its start; the flag
    is still set. *)
Theorem cycle_locks_once_and_sleeps (w : world) (secret : jsstring) :
  active w = true → trim <$> secretStorage w = Some secret → secret ≠ [] →
  settings_unrounded w →
  valid (configured_validation (configuration w)) = true →
  jsge (ofZ (env_now (env w) (ticks w) - startTime w))
    (duration_value (configured_duration (configuration w))) = false →
  locked_once (command_event (default false (dryRun (configuration w))) LOCK_CMD [])
    w (loopTask w).2
  ∧ ((loopTask w).1 = Resolved () →
     (∃ ms mouseIds keyboardIds,
        sleepers (loopTask w).2
        = <[next_timer w := (ms, AfterLockedHold secret mouseIds keyboardIds
                                   (default false (dryRun (configuration w))))]>
            (sleepers w))
     ∧ timers (loopTask w).2 = {[next_timer w]} ∪ timers w
     ∧ activeTimeouts (loopTask w).2 = {[next_timer w]} ∪ activeTimeouts w
     ∧ active (loopTask w).2 = true)
  ∧ (can_run_commands w → (loopTask w).1 = Resolved ()).
Proof.
  intros Ha Hsec Hne _ Hv Hexp.
  destruct secret as [|c s]; [done|]. clear Hne.
  destruct (loopTask w) as [r wf] eqn:E. cbn [fst snd]. revert E.
  loopTask_prefix w Hsec Ha.
  rewrite Hv. cbn [negb].
  unfold hasTimeExpired.
  rewrite bind_assoc, bind_consult, bind_assoc, bind_gets, bind_ret.
  world_fields. rewrite Hexp.
  match goal with
  | |- bind _ _ ?w4 = _ → _ => assert (H4 : lock_free w w4)
  end.
  { split; [|by repeat split]. unfold emitted. world_fields. eexists.
    split; [by rewrite <- !app_assoc|].
    pose proof (Forall_impl _ _ _ Hn1 lock_is_command).
    pose proof (Forall_impl _ _ _ Hn2 lock_is_command).
    pose proof (Forall_impl _ _ _ Hn3 lock_is_command).
    forall_events. }
  match goal with
  | |- bind ?m _ ?w4 = _ → _ =>
      destruct (lock_free_step w m w4) as (ms & w5 & Hq5 & H5);
      [never_split | keeps_split lock_free_write | exact H4 |];
      rewrite (bind_resolved _ _ _ _ _ Hq5); clear Hq5
  end.
  match goal with
  | |- bind ?m _ ?w5 = _ → _ =>
      destruct (lock_free_step w m w5) as ([] & w6 & Hq6 & H6);
      [never_split | keeps_split lock_free_write | exact H5 |];
      rewrite (bind_resolved _ _ _ _ _ Hq6); clear Hq6
  end.
  match goal with
  | |- bind ?m _ ?w6 = _ → _ =>
      destruct (lock_free_step w m w6) as (mouseIds & w7 & Hq7 & H7);
      [apply never_getMouseIds | keeps_split lock_free_write | exact H6 |];
      rewrite (bind_resolved _ _ _ _ _ Hq7); clear Hq7
  end.
  match goal with
  | |- bind ?m _ ?w7 = _ → _ =>
      destruct (lock_free_step w m w7) as (keyboardIds & w8 & Hq8 & H8);
      [apply never_getKeyboardIds | keeps_split lock_free_write | exact H7 |];
      rewrite (bind_resolved _ _ _ _ _ Hq8); clear Hq8
  end.
  match goal with
  | |- bind ?m _ ?w8 = _ → _ =>
      destruct (lock_free_step w m w8) as ([] & w9 & Hq9 & H9);
      [never_split | keeps_split lock_free_write | exact H8 |];
      rewrite (bind_resolved _ _ _ _ _ Hq9); clear Hq9
  end.
  clear H4 H5 H6 H7 H8.
  destruct H9 as [(new & Hnew & Hfnew) Hs9].
  pose proof Hs9 as ((Ha9 & _ & _ & Hat9 & Ht9 & Hsl9 & _ & Hnt9 & _) & _ & _ & Hc9 & He9).
  destruct (runCommandAsync_cases LOCK_CMD [] w9) as (r1 & wa & Hqa & Htra & Hsa & Hcan).
  rewrite Hc9 in Htra.
  assert (Hta : traced w9 ([] ++ [command_event (default false (dryRun (configuration w)))
                                   LOCK_CMD []]) wa) by done.
  assert (Hcan9 : can_run_commands w → can_run_commands w9).
  { intros [Hd | Hsp]; [left | right]; [unfold dry; by rewrite Hc9 | by rewrite He9]. }
  destruct r1 as [[]|].
  - rewrite (bind_resolved _ _ _ _ _ Hqa).
    traced_step (traced_xset_off w9 _ wa Hta) Htb. rewrite Hc9 in Htb.
    assert (Hc : ∃ wc,
      when (default false (dryRun (configuration w))) (logInfo (SleepingFor ms)) w0
      = (Resolved (), wc)
      ∧ traced w9 ((([] ++ [command_event (default false (dryRun (configuration w)))
                              LOCK_CMD []])
                    ++ [xset_event (default false (dryRun (configuration w)))])
                   ++ (if default false (dryRun (configuration w))
                       then [LogInfo (SleepingFor ms)] else [])) wc).
    { destruct (default false (dryRun (configuration w))).
      - eexists. split; [reflexivity|]. by apply traced_emit.
      - eexists. split; [reflexivity|]. by rewrite app_nil_r. }
    traced_step Hc Htc.
    unfold sleep, modify. intros [= <- <-]. unfold locked_once. world_fields.
    destruct Htc as (Htr & (Hac & _ & _ & Hatc & Htc & Hslc & _ & Hntc & _) & _).
    split; [|split; [|done]].
    + exists new, ([xset_event (default false (dryRun (configuration w)))]
                   ++ (if default false (dryRun (configuration w))
                       then [LogInfo (SleepingFor ms)] else [])).
      split; [rewrite Htr, Hnew; by rewrite <- !app_assoc|]. split; [done|].
      apply Forall_app_2; [by repeat constructor; apply xset_event_no_lock|].
      destruct (default false (dryRun (configuration w))); by repeat constructor.
    + intros _. rewrite Hslc, Hsl9, Hntc, Hnt9, Htc, Ht9, Hatc, Hat9, Hac, Ha9.
      split; [by eexists _, _, _|]. done.
  - rewrite (bind_rejected _ _ _ _ Hqa). intros [= <- <-].
    destruct Hta as (Htr & _). cbn [app] in Htr.
    split; [|split; [discriminate | by intros Hw; apply Hcan, Hcan9]].
    exists new, []. split; [by rewrite Htr, Hnew, <- !app_assoc|].
    split; [done | constructor].
Qed.

Lemma cycle_locks_once_and_sleeps_witness :
  locked_once (LogInfo (WouldExecute LOCK_CMD []))
    (set_entering ∅ (start dry_world).2) locked_hold_world
  ∧ timers locked_hold_world = {[0%nat]}.
Proof.
  destruct (cycle_locks_once_and_sleeps (set_entering ∅ (start dry_world).2) (u "pw"))
    as (Hlock & Hres & Hcan).
  - reflexivity.
  - reflexivity.
  - discriminate.
  - split; [split; show_whole (u "10") 109|].
    split; [show_whole (u "1") 104|]. vm_compute. repeat split; discriminate.
  - vm_compute. reflexivity.
  - vm_compute. reflexivity.
  - split.
    + unfold locked_hold_world, enter.
      replace (entering (start dry_world).2 ∖ {[0%nat]}) with (∅ : gset nat)
        by (vm_compute; reflexivity).
      exact Hlock.
    + assert (Hr : (loopTask (set_entering ∅ (start dry_world).2)).1 = Resolved ())
        by (apply Hcan; left; reflexivity).
      destruct (Hres Hr) as (_ & Ht & _).
      unfold locked_hold_world, enter.
      replace (entering (start dry_world).2 ∖ {[0%nat]}) with (∅ : gset nat)
        by (vm_compute; reflexivity).
      rewrite Ht. vm_compute. reflexivity.
Defined.
